(** * XMS metadata documents: tokenizers, ingestion, dispatcher, serializer

    A shallow embedding of [src/types/index.ts] (class [XMSDoc] and its
    helpers) together with the properties of the parsing engine.

    Conventions of the embedding.
    - A JavaScript string is a list of code units; the code units are the
      8-bit ones (the Latin-1 range), on which [toLowerCase], [trim] and the
      regular-expression classes used by the source are transcribed exactly.
    - [x | null] is [option x]; a thrown [Error] is the [Throw] outcome of
      [Result]; an object used as a map is an association list of its own
      properties in insertion order (JavaScript lists integer-like keys
      first; no statement depends on that order).
    - Reads and writes of properties are those of own properties.  They are
      the reads and writes of the code on objects whose prototype is the
      built-in [Object.prototype], unchanged, and on property names that
      [Object.prototype] does not define.  On the names it defines
      ([inheritedNames]: [__proto__], [constructor], [toString], ...) the
      code reads the inherited member, and an assignment to [__proto__] runs
      the inherited setter, which can replace a prototype or extend
      [Object.prototype] itself.  Every statement that depends on such a
      read or write carries the hypothesis [ownPath] on the keys involved
      and says nothing of the other keys.  An array is read on its indices
      and [length] only.
    - The option callbacks are pure: [numberPredicate] is a total boolean
      function and [onWarning] observes warnings without changing the
      document, so it does not appear.
    - A JavaScript number produced by [Number(raw)] is represented by the
      literal it was read from; [version] is the exact integer value of the
      digit run.  The code holds a double, which is that integer up to
      [MAX_SAFE_INTEGER] and is printed digit by digit there; statements
      about the printed version carry that bound. *)

From Stdlib Require Import Ascii String Bool Arith ZArith NArith Lia List.
From Stdlib Require Import DecimalString.
From Stdlib Require DecimalPos DecimalN.
Import ListNotations.

Set Warnings "-register-all".


(** ** JavaScript strings *)

Abbreviation str := (list ascii).

(** Literals are written [L "text"]. *)
Definition L (s : string) : str := list_ascii_of_string s.

Definition DQUOTE : ascii := ascii_of_nat 34.
Definition BACKSLASH : ascii := ascii_of_nat 92.
Definition SEMI : ascii := ascii_of_nat 59.
Definition EQUALS : ascii := ascii_of_nat 61.
Definition DOT : ascii := ascii_of_nat 46.

Fixpoint str_eqb (a b : str) : bool :=
  match a, b with
  | [], [] => true
  | x :: a', y :: b' => Ascii.eqb x y && str_eqb a' b'
  | _, _ => false
  end.

(** [\d] *)
Definition isDigit (c : ascii) : bool :=
  let n := nat_of_ascii c in (48 <=? n) && (n <=? 57).

(** [\s] restricted to 8-bit code units; also the set removed by [trim]. *)
Definition isSpace (c : ascii) : bool :=
  let n := nat_of_ascii c in
  ((9 <=? n) && (n <=? 13)) || (n =? 32) || (n =? 160).

(** One character class of [KEY_PATTERN]: [[a-z0-9_.]]. *)
Definition isKeyChar (c : ascii) : bool :=
  let n := nat_of_ascii c in
  ((97 <=? n) && (n <=? 122)) || isDigit c || (n =? 95) || (n =? 46).

(** [String.prototype.toLowerCase] on one 8-bit code unit. *)
Definition lowerChar (c : ascii) : ascii :=
  let n := nat_of_ascii c in
  if ((65 <=? n) && (n <=? 90))
     || ((192 <=? n) && (n <=? 222) && negb (n =? 215))
  then ascii_of_nat (n + 32) else c.

Definition toLowerCase (s : str) : str := map lowerChar s.

Fixpoint trimStart (s : str) : str :=
  match s with
  | c :: s' => if isSpace c then trimStart s' else s
  | [] => []
  end.

Definition trimEnd (s : str) : str := rev (trimStart (rev s)).

(** [String.prototype.trim] *)
Definition trim (s : str) : str := trimEnd (trimStart s).

(** [s.startsWith(p)] *)
Fixpoint startsWith (p s : str) : bool :=
  match p, s with
  | [], _ => true
  | x :: p', y :: s' => Ascii.eqb x y && startsWith p' s'
  | _ :: _, [] => false
  end.

(** [s.endsWith(c)] for a one-character argument. *)
Definition endsWithChar (c : ascii) (s : str) : bool :=
  match rev s with
  | x :: _ => Ascii.eqb x c
  | [] => false
  end.

(** [s.slice(1, -1)] *)
Definition sliceInner (s : str) : str := removelast (tl s).

(** [s.indexOf(c)]: the part before the first [c] and the part after it,
    [None] when [c] does not occur (the source's [-1]). *)
Fixpoint splitFirst (c : ascii) (s : str) : option (str * str) :=
  match s with
  | [] => None
  | x :: s' =>
      if Ascii.eqb x c then Some ([], s')
      else match splitFirst c s' with
           | Some (l, r) => Some (x :: l, r)
           | None => None
           end
  end.

(** [key.split(".")]: always at least one segment. *)
Fixpoint splitOn (c : ascii) (s : str) : list str :=
  match s with
  | [] => [[]]
  | x :: s' =>
      if Ascii.eqb x c then [] :: splitOn c s'
      else match splitOn c s' with
           | seg :: segs => (x :: seg) :: segs
           | [] => [[x]]
           end
  end.

(** Longest prefix of characters satisfying [p], and what follows it. *)
Fixpoint span (p : ascii -> bool) (s : str) : str * str :=
  match s with
  | c :: s' => if p c then let (a, b) := span p s' in (c :: a, b) else ([], s)
  | [] => ([], [])
  end.

(** [parseInt(digits, 10)] on a run of decimal digits. *)
Definition parseDigits (ds : str) : N :=
  fold_left (fun acc c => (acc * 10 + N.of_nat (nat_of_ascii c - 48))%N) ds 0%N.

(** Template-literal rendering of an integer. *)
Definition showN (n : N) : str := L (NilZero.string_of_uint (N.to_uint n)).
Definition showZ (z : Z) : str := L (NilZero.string_of_int (Z.to_int z)).
Definition showNat (n : nat) : str := showN (N.of_nat n).

(** [KEY_PATTERN = /^[a-z0-9_.]+$/] *)
Definition KEY_PATTERN (key : str) : bool :=
  match key with
  | [] => false
  | _ => forallb isKeyChar key
  end.

(** ** Outcomes of code that may throw *)

Inductive Result (A : Type) : Type :=
| Ok (a : A)
| Throw (msg : str).
Arguments Ok {A} a.
Arguments Throw {A} msg.

(** [a ?? d] *)
Definition orDefault {A : Type} (a : option A) (d : A) : A :=
  match a with Some x => x | None => d end.
Notation "a ?? d" := (orDefault a d) (at level 45, left associativity).

(** ** Data model *)

(** [XMSRawEntry] *)
Record XMSRawEntry : Type := mkEntry {
  name : str;
  value : option str;
}.

(** [XMSValue]; an [XMSNode] is the property list of an object. *)
Inductive XMSValue : Type :=
| VNull
| VBool (b : bool)
| VNum (literal : str)
| VStr (s : str)
| VObj (props : list (str * XMSValue))
| VArr (items : list XMSValue).

Definition XMSNode : Type := list (str * XMSValue).

(** [o[k]] on own properties; [None] is [undefined]. *)
Fixpoint getProp (o : XMSNode) (k : str) : option XMSValue :=
  match o with
  | [] => None
  | (k', v) :: o' => if str_eqb k' k then Some v else getProp o' k
  end.

(** [o[k] = v] *)
Fixpoint setProp (o : XMSNode) (k : str) (v : XMSValue) : XMSNode :=
  match o with
  | [] => [(k, v)]
  | (k', v') :: o' =>
      if str_eqb k' k then (k', v) :: o' else (k', v') :: setProp o' k v
  end.

(** [InternalState] *)
Record InternalState : Type := mkState {
  st_warnings : list str;
  st_errors : list str;
}.

Definition pushWarning (st : InternalState) (w : str) : InternalState :=
  mkState (st_warnings st ++ [w]) (st_errors st).

Definition pushError (st : InternalState) (e : str) : InternalState :=
  mkState (st_warnings st) (st_errors st ++ [e]).

(** [XMSParseOptions]; [None] is an absent (undefined) option.
    [maxIndexedArraySize] and [transformBareToken] are never read by the
    class and are left out. *)
Record XMSParseOptions : Type := mkOptions {
  coerceBooleans : option bool;
  coerceNumbers : option bool;
  enforceLimits : option bool;
  maxNestingDepth : option Z;
  createFlatKeys : option bool;
  createNestedKeys : option bool;
  keepInvalidKeys : option bool;
  reparseOnFallback : option bool;
  customBooleanLiterals : option (list (str * bool));
  defer : option bool;
  overwriteScalarsForNested : option bool;
  numberPredicate : option (str -> bool);
}.

(** The options object of a call that passes none: [{}]. *)
Definition noOptions : XMSParseOptions :=
  mkOptions None None None None None None None None None None None None.

Definition DEFAULT_coerceBooleans : bool := true.
Definition DEFAULT_coerceNumbers : bool := false.
Definition DEFAULT_enforceLimits : bool := true.
Definition DEFAULT_maxNestingDepth : Z := 5.
Definition DEFAULT_createFlatKeys : bool := false.
Definition DEFAULT_createNestedKeys : bool := true.
Definition DEFAULT_keepInvalidKeys : bool := true.
Definition DEFAULT_reparseOnFallback : bool := true.

Definition spread {A : Type} (dflt : A) (given : option A) : option A :=
  match given with Some x => Some x | None => Some dflt end.

(** [{ ...DEFAULT_OPTIONS, ...options }] *)
Definition withDefaults (o : XMSParseOptions) : XMSParseOptions :=
  mkOptions
    (spread DEFAULT_coerceBooleans (coerceBooleans o))
    (spread DEFAULT_coerceNumbers (coerceNumbers o))
    (spread DEFAULT_enforceLimits (enforceLimits o))
    (spread DEFAULT_maxNestingDepth (maxNestingDepth o))
    (spread DEFAULT_createFlatKeys (createFlatKeys o))
    (spread DEFAULT_createNestedKeys (createNestedKeys o))
    (spread DEFAULT_keepInvalidKeys (keepInvalidKeys o))
    (spread DEFAULT_reparseOnFallback (reparseOnFallback o))
    (customBooleanLiterals o)
    (defer o)
    (overwriteScalarsForNested o)
    (numberPredicate o).

(** [{ ...options, defer: d }] *)
Definition setDefer (o : XMSParseOptions) (d : bool) : XMSParseOptions :=
  mkOptions (coerceBooleans o) (coerceNumbers o) (enforceLimits o)
    (maxNestingDepth o) (createFlatKeys o) (createNestedKeys o)
    (keepInvalidKeys o) (reparseOnFallback o) (customBooleanLiterals o)
    (Some d) (overwriteScalarsForNested o) (numberPredicate o).

(** The class [XMSDoc]: its public fields, then [input] and [opts]. *)
Record XMSDoc : Type := mkDoc {
  version : N;
  isFallback : bool;
  entries : list XMSRawEntry;
  data : XMSNode;
  warnings : list str;
  errors : list str;
  input : str;
  opts : XMSParseOptions;
}.

(** ** Strict tokenizer ([parseXMSCore]) *)

Definition consTok (c : ascii) (r : str * str * bool) : str * str * bool :=
  let '(tok, rest, q) := r in (c :: tok, rest, q).

(** The inner [for] loop of [parseXMSCore] that finds the end of a token.
    Started at the token's first character with [inQuote = esc = false], it
    returns the characters of [body.slice(start, end)], the input from index
    [end] on, and the final [inQuote]. *)
Fixpoint scanToken (inQuote esc : bool) (s : str) : str * str * bool :=
  match s with
  | [] => ([], [], inQuote)
  | ch :: s' =>
      if esc then consTok ch (scanToken inQuote false s')
      else if Ascii.eqb ch BACKSLASH then consTok ch (scanToken inQuote true s')
      else if Ascii.eqb ch DQUOTE then
        consTok ch (scanToken (negb inQuote) false s')
      else if Ascii.eqb ch SEMI && negb inQuote then ([], s, inQuote)
      else consTok ch (scanToken inQuote false s')
  end.

Definition consFst (c : ascii) (r : option (str * str)) : option (str * str) :=
  match r with
  | Some (l, rgt) => Some (c :: l, rgt)
  | None => None
  end.

(** The block that computes [eqIndex]: the token before and after the first
    [=] that is neither quoted nor escaped; [None] is [eqIndex === -1]. *)
Fixpoint findEq (q e : bool) (token : str) : option (str * str) :=
  match token with
  | [] => None
  | c :: t =>
      if e then consFst c (findEq q false t)
      else if Ascii.eqb c BACKSLASH then consFst c (findEq q true t)
      else if Ascii.eqb c DQUOTE then consFst c (findEq (negb q) false t)
      else if Ascii.eqb c EQUALS && negb q then Some ([], t)
      else consFst c (findEq q false t)
  end.

(** The unescaping loop over [inner]; returns [outStr] and the final
    [esc2]. *)
Fixpoint unescape (esc2 : bool) (inner : str) : str * bool :=
  match inner with
  | [] => ([], esc2)
  | c :: r =>
      if esc2 then let (o, e) := unescape false r in (c :: o, e)
      else if Ascii.eqb c BACKSLASH then unescape true r
      else let (o, e) := unescape false r in (c :: o, e)
  end.

Definition isEmpty (s : str) : bool :=
  match s with [] => true | _ => false end.

Definition msgInvalidKeyAccepted (originalKey : str) : str :=
  L "Invalid key pattern for " ++ [DQUOTE] ++ originalKey ++ [DQUOTE]
    ++ L " (accepted).".

(** The body of the outer loop from [let eqIndex = -1] to [out.push]: the
    outcome for one trimmed, non-empty token.  [Ok None] is the [continue]
    that drops an invalid key. *)
Definition strictToken (o : XMSParseOptions) (token : str)
    (st : InternalState) : InternalState * Result (option XMSRawEntry) :=
  let '(key0, valuePart) :=
    match findEq false false token with
    | None => (token, None)
    | Some (l, r) =>
        let v := trim r in (trim l, if isEmpty v then None else Some v)
    end in
  let originalKey := key0 in
  let key := toLowerCase key0 in
  let keyCheck (finalValue : option str) :=
    if negb (KEY_PATTERN key) then
      if negb (keepInvalidKeys o ?? true) then (st, Ok None)
      else (pushWarning st (msgInvalidKeyAccepted originalKey),
            Ok (Some (mkEntry key finalValue)))
    else (st, Ok (Some (mkEntry key finalValue))) in
  match valuePart with
  | None => keyCheck None
  | Some vp =>
      if startsWith [DQUOTE] vp then
        if (length vp <? 2) || negb (endsWithChar DQUOTE vp) then
          (pushError st (L "Malformed quoted value."),
           Throw (L "Malformed quotes"))
        else
          let (outStr, esc2) := unescape false (sliceInner vp) in
          if esc2 then
            (pushError st (L "Dangling backslash."),
             Throw (L "Malformed quotes"))
          else keyCheck (Some outStr)
      else keyCheck (Some vp)
  end.

(** [while (i < len && body[i] === ";") i++] *)
Fixpoint skipSemis (s : str) : str :=
  match s with
  | c :: s' => if Ascii.eqb c SEMI then skipSemis s' else s
  | [] => []
  end.

(** [if (i < len && body[i] === ";") i++] *)
Definition skipOneSemi (s : str) : str :=
  match s with
  | c :: s' => if Ascii.eqb c SEMI then s' else s
  | [] => []
  end.

(** One iteration of the outer [while (i < len)] loop on the input from
    index [i] on; [next] stands for the iterations that follow, run on the
    input that remains. *)
Definition parseXMSIteration
    (next : str -> InternalState -> InternalState * Result (list XMSRawEntry))
    (o : XMSParseOptions) (body : str) (st : InternalState)
    : InternalState * Result (list XMSRawEntry) :=
  match skipSemis body with
  | [] => (st, Ok [])
  | body1 =>
      let '(tokRaw, rest, inQuote) := scanToken false false body1 in
      if inQuote then
        (pushError st (L "Unterminated quote; fallback."),
         Throw (L "Malformed quotes"))
      else
        let token := trim tokRaw in
        if isEmpty token then next (skipOneSemi rest) st
        else
          match strictToken o token st with
          | (st', Throw m) => (st', Throw m)
          | (st', Ok None) => next (skipOneSemi rest) st'
          | (st', Ok (Some e)) =>
              match next (skipOneSemi rest) st' with
              | (st'', Ok out) => (st'', Ok (e :: out))
              | (st'', Throw m) => (st'', Throw m)
              end
          end
  end.

(** The loop itself.  Every iteration consumes at least one character, so
    [length body] iterations are always enough: [parseXMSLoop_fuel] and
    [parseXMSCore_unfold] show that the result does not depend on the
    bound. *)
Fixpoint parseXMSLoop (fuel : nat) (o : XMSParseOptions) (body : str)
    (st : InternalState) : InternalState * Result (list XMSRawEntry) :=
  match fuel with
  | 0 => (st, Ok [])
  | S fuel' => parseXMSIteration (parseXMSLoop fuel' o) o body st
  end.

Definition parseXMSCore (o : XMSParseOptions) (body : str)
    (st : InternalState) : InternalState * Result (list XMSRawEntry) :=
  parseXMSLoop (length body) o body st.

(** ** Legacy tokenizer ([parseCommonMeta]) *)

(** The first loop: [toks], given the characters accumulated in [cur]. *)
Fixpoint splitTokens (cur : str) (s : str) : list str :=
  match s with
  | [] => if isEmpty cur then [] else [cur]
  | ch :: s' =>
      if Ascii.eqb ch SEMI then
        if isEmpty cur then splitTokens [] s' else cur :: splitTokens [] s'
      else splitTokens (cur ++ [ch]) s'
  end.

Definition msgInvalidKeyKept (key : str) : str :=
  L "Invalid key pattern for " ++ [DQUOTE] ++ key ++ [DQUOTE]
    ++ L " (kept in fallback).".

(** The body of the second loop, for one token [tk.text]. *)
Definition legacyToken (o : XMSParseOptions) (text : str)
    (st : InternalState) : InternalState * option XMSRawEntry :=
  let raw := trim text in
  if isEmpty raw then (st, None)
  else
    let '(key, val) :=
      match splitFirst EQUALS raw with
      | None => (toLowerCase raw, Some [])
      | Some (l, r) =>
          let right := trim r in
          (toLowerCase (trim l), if isEmpty right then None else Some right)
      end in
    if negb (KEY_PATTERN key) then
      if negb (keepInvalidKeys o ?? true) then (st, None)
      else (pushWarning st (msgInvalidKeyKept key), Some (mkEntry key val))
    else (st, Some (mkEntry key val)).

Fixpoint legacyLoop (o : XMSParseOptions) (toks : list str)
    (st : InternalState) : InternalState * list XMSRawEntry :=
  match toks with
  | [] => (st, [])
  | tk :: toks' =>
      match legacyToken o tk st with
      | (st', None) => legacyLoop o toks' st'
      | (st', Some e) =>
          let (st'', out) := legacyLoop o toks' st' in (st'', e :: out)
      end
  end.

Definition parseCommonMeta (o : XMSParseOptions) (input : str)
    (st : InternalState) : InternalState * list XMSRawEntry :=
  legacyLoop o (splitTokens [] input) st.

(** ** Ingestion: limit enforcer, value coercer, nested assigner *)

Definition msgTruncated (key : str) (limit : nat) : str :=
  L "Value for key " ++ [DQUOTE] ++ key ++ [DQUOTE]
    ++ L " exceeded limit " ++ showNat limit ++ L " and was truncated.".

(** [enforceLength]; [warn] appends to the warning log [ws]. *)
Definition enforceLength (key value : str) (ws : list str) : str * list str :=
  let limit : option nat :=
    if str_eqb key (L "username") then Some 16
    else if str_eqb key (L "message") || str_eqb key (L "error.message")
            || str_eqb key (L "error")
    then Some 255
    else None in
  match limit with
  | Some lim =>
      if lim <? length value
      then (firstn lim value, ws ++ [msgTruncated key lim])
      else (value, ws)
  | None => (value, ws)
  end.

(** The [for ... in] loop over [customBooleanLiterals]. *)
Fixpoint matchCustomLiteral (lits : list (str * bool)) (lower : str)
    : option bool :=
  match lits with
  | [] => None
  | (lit, b) :: lits' =>
      if str_eqb (toLowerCase lit) lower then Some (Bool.eqb b true)
      else matchCustomLiteral lits' lower
  end.

Definition nonEmptyDigits (s : str) : option str :=
  let (ds, r) := span isDigit s in if isEmpty ds then None else Some r.

(** [/^-?(?:\d+)(?:\.\d+)?(?:[eE][+-]?\d+)?$/.test(raw)] *)
Definition numericPattern (raw : str) : bool :=
  let s1 := match raw with
            | c :: r => if Ascii.eqb c "-"%char then r else raw
            | [] => raw
            end in
  match nonEmptyDigits s1 with
  | None => false
  | Some r1 =>
      let afterFraction :=
        match r1 with
        | c :: t => if Ascii.eqb c DOT then nonEmptyDigits t else Some r1
        | [] => Some r1
        end in
      match afterFraction with
      | None => false
      | Some r2 =>
          match r2 with
          | [] => true
          | c :: t =>
              if Ascii.eqb c "e"%char || Ascii.eqb c "E"%char then
                let t' := match t with
                          | s :: u =>
                              if Ascii.eqb s "+"%char || Ascii.eqb s "-"%char
                              then u else t
                          | [] => t
                          end in
                match nonEmptyDigits t' with
                | Some r3 => isEmpty r3
                | None => false
                end
              else false
          end
      end
  end.

(** [coerceValue] *)
Definition coerceValue (o : XMSParseOptions) (raw : option str) : XMSValue :=
  match raw with
  | None => VNull
  | Some raw =>
      let lower := toLowerCase raw in
      let asBool : option bool :=
        if coerceBooleans o ?? true then
          if str_eqb lower (L "true") then Some true
          else if str_eqb lower (L "false") then Some false
          else match customBooleanLiterals o with
               | Some lits => matchCustomLiteral lits lower
               | None => None
               end
        else None in
      match asBool with
      | Some b => VBool b
      | None =>
          if (coerceNumbers o ?? false)
             && numericPattern raw
             && match numberPredicate o with
                | None => true
                | Some p => p raw
                end
          then VNum raw
          else VStr raw
      end
  end.

Definition msgDepth (key : str) (maxDepth : Z) : str :=
  L "Key " ++ [DQUOTE] ++ key ++ [DQUOTE]
    ++ L " exceeds max nesting depth (" ++ showZ maxDepth
    ++ L "); nested object not created.".

Definition msgSkipNested (key seg : str) : str :=
  L "Skipping nested creation for " ++ [DQUOTE] ++ key ++ [DQUOTE]
    ++ L " due to existing non-object at segment " ++ [DQUOTE] ++ seg
    ++ [DQUOTE] ++ L ".".

(** The [for] loop of [assignNested] from the object [cur] on, over the
    segments that remain.  It returns the updated [cur] and, when the walk
    was abandoned, the segment named in the warning. *)
Fixpoint walkSegments (overwrite : bool) (cur : XMSNode) (segs : list str)
    (v : XMSValue) : XMSNode * option str :=
  match segs with
  | [] => (cur, None)
  | [seg] => (setProp cur seg v, None)
  | seg :: rest =>
      match getProp cur seg with
      | Some (VObj child) =>
          let (child', r) := walkSegments overwrite child rest v in
          (setProp cur seg (VObj child'), r)
      | Some _ =>
          if overwrite then
            let (child', r) := walkSegments overwrite [] rest v in
            (setProp cur seg (VObj child'), r)
          else (cur, Some seg)
      | None =>
          let (child', r) := walkSegments overwrite [] rest v in
          (setProp cur seg (VObj child'), r)
      end
  end.

Record NestCfg : Type := mkCfg {
  cfg_maxNestingDepth : Z;
  cfg_createFlatKeys : bool;
  cfg_createNestedKeys : bool;
}.

(** [assignNested]; the first argument is [this.opts]. *)
Definition assignNested (o : XMSParseOptions) (root : XMSNode) (key : str)
    (v : XMSValue) (cfg : NestCfg) (ws : list str) : XMSNode * list str :=
  let root1 := if cfg_createFlatKeys cfg then setProp root key v else root in
  if negb (cfg_createNestedKeys cfg) then (root1, ws)
  else
    let segs := splitOn DOT key in
    if existsb isEmpty segs then (root1, ws)
    else if (cfg_maxNestingDepth cfg <? Z.of_nat (length segs))%Z then
      (root1, ws ++ [msgDepth key (cfg_maxNestingDepth cfg)])
    else
      match walkSegments (overwriteScalarsForNested o ?? false) root1 segs v
      with
      | (root2, None) => (root2, ws)
      | (root2, Some seg) => (root2, ws ++ [msgSkipNested key seg])
      end.

(** One iteration of the loop of [ingest]: the entry as it is left in the
    entry log, the value tree and the warning log. *)
Definition ingestEntry (o : XMSParseOptions) (e : XMSRawEntry)
    (root : XMSNode) (ws : list str) : XMSRawEntry * XMSNode * list str :=
  let key := name e in
  let '(e1, ws1) :=
    match value e with
    | Some v =>
        if enforceLimits o ?? true then
          let (v', ws') := enforceLength key v ws in (mkEntry key (Some v'), ws')
        else (e, ws)
    | None => (e, ws)
    end in
  let coerced := coerceValue o (value e1) in
  let (root', ws2) :=
    assignNested o root key coerced
      (mkCfg (maxNestingDepth o ?? DEFAULT_maxNestingDepth)
             (createFlatKeys o ?? true)
             (createNestedKeys o ?? true))
      ws1 in
  (e1, root', ws2).

(** [ingest] *)
Fixpoint ingest (o : XMSParseOptions) (es : list XMSRawEntry)
    (root : XMSNode) (ws : list str)
    : list XMSRawEntry * XMSNode * list str :=
  match es with
  | [] => ([], root, ws)
  | e :: es' =>
      let '(e1, root1, ws1) := ingestEntry o e root ws in
      let '(es1, root2, ws2) := ingest o es' root1 ws1 in
      (e1 :: es1, root2, ws2)
  end.

(** ** The document class *)

(** [/^xms\/(\d+)/.exec(input)]: the digit run [m[1]] and
    [input.slice(m[0].length)]. *)
Definition matchVersion (input : str) : option (str * str) :=
  match input with
  | c1 :: c2 :: c3 :: c4 :: r =>
      if str_eqb [c1; c2; c3; c4] (L "xms/") then
        let (ds, body) := span isDigit r in
        if isEmpty ds then None else Some (ds, body)
      else None
  | _ => None
  end.

(** [isProbablyXMS]: [/^xms\/\d+;/.test(input)] *)
Definition isProbablyXMS (input : str) : bool :=
  match matchVersion input with
  | Some (_, c :: _) => Ascii.eqb c SEMI
  | _ => false
  end.

(** The method [parse()] of a document holding [inp] and [o]. *)
Definition parseDoc (inp : str) (o : XMSParseOptions) : XMSDoc :=
  let state := mkState [] [] in
  let '(version0, xmsCandidate, body) :=
    match matchVersion inp with
    | Some (ds, rest) => (parseDigits ds, true, rest)
    | None => (0%N, false, inp)
    end in
  let '(version1, isFallback1, state1, entries1) :=
    if xmsCandidate then
      match parseXMSCore o body state with
      | (st, Ok es) => (version0, false, st, es)
      | (st, Throw _) =>
          if reparseOnFallback o ?? true then
            let (st', es) := parseCommonMeta o inp st in (0%N, true, st', es)
          else (0%N, true, st, [])
      end
    else
      let (st, es) := parseCommonMeta o inp state in (version0, true, st, es) in
  let '(entries2, data2, warnings2) :=
    ingest o entries1 [] (st_warnings state1) in
  mkDoc version1 isFallback1 entries2 data2 warnings2 (st_errors state1)
        inp o.

(** A document on which [parse()] has not run (the field initialisers). *)
Definition unparsed (inp : str) (o : XMSParseOptions) : XMSDoc :=
  mkDoc 0%N false [] [] [] [] inp o.

(** A value passed as [input] at run time. *)
Inductive JsInput : Type :=
| JString (s : str)
| JNotString.

(** [new XMSDoc(input, options)] *)
Definition newXMSDoc (inp : JsInput) (options : XMSParseOptions)
    : Result XMSDoc :=
  match inp with
  | JNotString => Throw (L "Input must be a string.")
  | JString s =>
      let o := withDefaults options in
      if defer options ?? false then Ok (unparsed s o) else Ok (parseDoc s o)
  end.

(** [XMSDoc.parse(input, options)] *)
Definition parse (inp : JsInput) (options : XMSParseOptions) : Result XMSDoc :=
  newXMSDoc inp (setDefer options false).

(** [XMSDoc.safeParse(input, options)] *)
Definition safeParse (inp : JsInput) (options : XMSParseOptions) : XMSDoc :=
  match newXMSDoc inp options with
  | Ok doc => doc
  | Throw msg =>
      let doc := unparsed [] (withDefaults (setDefer noOptions true)) in
      mkDoc 0%N true (entries doc) (data doc) (warnings doc)
            [L "Unexpected parser failure: " ++ msg] (input doc) (opts doc)
  end.

(** [toXMS] *)
Definition needsQuotes (v : str) : bool :=
  existsb (fun c => isSpace c || Ascii.eqb c SEMI || Ascii.eqb c EQUALS
                    || Ascii.eqb c DQUOTE || Ascii.eqb c BACKSLASH) v.

Fixpoint escapeValue (v : str) : str :=
  match v with
  | [] => []
  | ch :: v' =>
      if Ascii.eqb ch DQUOTE || Ascii.eqb ch BACKSLASH
      then BACKSLASH :: ch :: escapeValue v'
      else ch :: escapeValue v'
  end.

Fixpoint xmsTokens (es : list XMSRawEntry) : list str :=
  match es with
  | [] => []
  | e :: es' =>
      if negb (KEY_PATTERN (name e)) then xmsTokens es'
      else
        match value e with
        | None => name e :: xmsTokens es'
        | Some [] => (name e ++ [EQUALS]) :: xmsTokens es'
        | Some v =>
            if needsQuotes v then
              (name e ++ [EQUALS] ++ [DQUOTE] ++ escapeValue v ++ [DQUOTE])
                :: xmsTokens es'
            else (name e ++ [EQUALS] ++ v) :: xmsTokens es'
        end
  end.

(** [tokens.join(";")] *)
Fixpoint joinSemi (toks : list str) : str :=
  match toks with
  | [] => []
  | [t] => t
  | t :: toks' => t ++ [SEMI] ++ joinSemi toks'
  end.

Definition toXMS (doc : XMSDoc) : str :=
  let tokens := xmsTokens (entries doc) in
  if (version doc =? 0)%N then joinSemi tokens
  else
    match tokens with
    | [] => L "xms/" ++ showN (version doc) ++ [SEMI]
    | _ => L "xms/" ++ showN (version doc) ++ [SEMI] ++ joinSemi tokens
    end.

(** The name of the accessor through which an object's prototype is read
    and replaced. *)
Definition PROTO : str := L "__proto__".

(** [deepClone].  The copy of an object is a fresh object filled by the
    assignments [out[k] = ...].  For the key [__proto__] the assignment runs
    the setter the fresh object inherits: it replaces the prototype of the
    copy (by the cloned object or [null]) or does nothing (a primitive), and
    in no case gives the copy a property. *)
Fixpoint deepClone (v : XMSValue) : XMSValue :=
  match v with
  | VObj props =>
      VObj ((fix cloneProps (ps : list (str * XMSValue)) :=
               match ps with
               | [] => []
               | (k, x) :: ps' =>
                   if str_eqb k PROTO then cloneProps ps'
                   else (k, deepClone x) :: cloneProps ps'
               end) props)
  | VArr items =>
      VArr ((fix cloneItems (xs : list XMSValue) :=
               match xs with
               | [] => []
               | x :: xs' => deepClone x :: cloneItems xs'
               end) items)
  | _ => v
  end.

Definition deepCloneNode (n : XMSNode) : XMSNode :=
  match deepClone (VObj n) with
  | VObj n' => n'
  | _ => n
  end.

(** [XMSParsedLike] *)
Record XMSParsedLike : Type := mkParsedLike {
  pl_version : N;
  pl_isFallback : bool;
  pl_entries : list XMSRawEntry;
  pl_data : XMSNode;
  pl_warnings : option (list str);
  pl_errors : option (list str);
}.

(** The options of [XMSDoc.from]: parse options and four more keys. *)
Record FromOptions : Type := mkFromOptions {
  fo_parse : XMSParseOptions;
  fo_version : option N;
  fo_isFallback : option bool;
  fo_preserveWarnings : option bool;
  fo_preserveErrors : option bool;
}.

(** What [XMSDoc.from] is given, as told apart by its run-time guards. *)
Inductive Source : Type :=
| SrcString (s : str)
| SrcParsedLike (p : XMSParsedLike)
| SrcEntries (es : list XMSRawEntry)
| SrcNode (n : XMSNode)
| SrcUnsupported.

Section From.

(** [String(v)] for the number read from a literal: floating-point
    formatting is left to the host. *)
Variable numberToString : str -> str.

Definition joinKey (cur k : str) : str :=
  if isEmpty cur then k else cur ++ [DOT] ++ k.

(** [pushPrim] *)
Definition pushPrim (full : str) (v : XMSValue) : XMSRawEntry :=
  let value :=
    match v with
    | VNull => None
    | VStr s => Some s
    | VNum n => Some (numberToString n)
    | VBool b => Some (if b then L "true" else L "false")
    | _ => None
    end in
  mkEntry (toLowerCase full) value.

(** [walk] inside [flattenNodeToEntries] *)
Fixpoint flattenWalk (val : XMSValue) (cur : str) : list XMSRawEntry :=
  match val with
  | VObj props =>
      (fix overKeys (ps : list (str * XMSValue)) :=
         match ps with
         | [] => []
         | (k, child) :: ps' => flattenWalk child (joinKey cur k) ++ overKeys ps'
         end) props
  | VArr items =>
      (fix overItems (i : nat) (xs : list XMSValue) :=
         match xs with
         | [] => []
         | c :: xs' =>
             flattenWalk c (joinKey cur (showNat i)) ++ overItems (S i) xs'
         end) 0 items
  | prim => [pushPrim cur prim]
  end.

Definition flattenNodeToEntries (node : XMSNode) : list XMSRawEntry :=
  flattenWalk (VObj node) [].

(** [XMSDoc.from(source, options)] *)
Definition from (source : Source) (options : FromOptions) : Result XMSDoc :=
  let fresh := unparsed [] (withDefaults (setDefer (fo_parse options) true)) in
  match source with
  | SrcString s => parse (JString s) (fo_parse options)
  | SrcParsedLike p =>
      Ok (mkDoc
            (match fo_version options with Some v => v | None => pl_version p end)
            (match fo_isFallback options with
             | Some b => b
             | None => pl_isFallback p
             end)
            (map (fun e => mkEntry (name e) (value e)) (pl_entries p))
            (deepCloneNode (pl_data p))
            (match fo_preserveWarnings options, pl_warnings p with
             | Some false, _ => warnings fresh
             | _, Some ws => ws
             | _, None => warnings fresh
             end)
            (match fo_preserveErrors options, pl_errors p with
             | Some false, _ => errors fresh
             | _, Some es => es
             | _, None => errors fresh
             end)
            (input fresh) (opts fresh))
  | SrcEntries es =>
      let '(es', data', ws') :=
        ingest (opts fresh)
          (map (fun e => mkEntry (toLowerCase (name e)) (value e)) es)
          (data fresh) (warnings fresh) in
      Ok (mkDoc (fo_version options ?? 1%N) (fo_isFallback options ?? false)
                es' data' ws' (errors fresh) (input fresh) (opts fresh))
  | SrcNode n =>
      let '(es', data', ws') :=
        ingest (opts fresh) (flattenNodeToEntries n)
          (data fresh) (warnings fresh) in
      Ok (mkDoc (fo_version options ?? 1%N) (fo_isFallback options ?? false)
                es' data' ws' (errors fresh) (input fresh) (opts fresh))
  | SrcUnsupported => Throw (L "Unsupported source type for XMSDoc.from()")
  end.

End From.

(** ** Specification-side definitions *)


(** The scanner state [(inQuote, esc)] after the characters [p]: a quote
    that is not escaped toggles [inQuote], and a backslash that is not
    itself escaped sets [esc] for the next character, inside and outside
    quoting alike. *)
Fixpoint scanState (inQuote esc : bool) (p : str) : bool * bool :=
  match p with
  | [] => (inQuote, esc)
  | ch :: p' =>
      if esc then scanState inQuote false p'
      else if Ascii.eqb ch BACKSLASH then scanState inQuote true p'
      else if Ascii.eqb ch DQUOTE then scanState (negb inQuote) false p'
      else scanState inQuote false p'
  end.

(** The token scan as the specification words it: the backslash escapes the
    following character only inside quoting. *)
Fixpoint scanTokenQuotedEscapes (inQuote esc : bool) (s : str)
    : str * str * bool :=
  match s with
  | [] => ([], [], inQuote)
  | ch :: s' =>
      if esc then consTok ch (scanTokenQuotedEscapes inQuote false s')
      else if Ascii.eqb ch BACKSLASH && inQuote then
        consTok ch (scanTokenQuotedEscapes inQuote true s')
      else if Ascii.eqb ch DQUOTE then
        consTok ch (scanTokenQuotedEscapes (negb inQuote) false s')
      else if Ascii.eqb ch SEMI && negb inQuote then ([], s, inQuote)
      else consTok ch (scanTokenQuotedEscapes inQuote false s')
  end.

(** The token contains a [=]. *)
Definition hasEq (t : str) : bool := existsb (fun c => Ascii.eqb c EQUALS) t.


(** The fixed table of per-key length limits, as the specification lists
    it. *)
Definition lengthLimitTable : list (str * nat) :=
  [(L "username", 16); (L "message", 255); (L "error", 255);
   (L "error.message", 255)].

Fixpoint lookupLimit (table : list (str * nat)) (key : str) : option nat :=
  match table with
  | [] => None
  | (k, n) :: table' => if str_eqb key k then Some n else lookupLimit table' key
  end.

Definition lengthLimit (key : str) : option nat :=
  lookupLimit lengthLimitTable key.

(** An entry after limit enforcement: its value cut to the limit of its
    key. *)
Definition limited (o : XMSParseOptions) (e : XMSRawEntry) : XMSRawEntry :=
  match value e, lengthLimit (name e) with
  | Some v, Some n =>
      if enforceLimits o ?? true then mkEntry (name e) (Some (firstn n v))
      else e
  | _, _ => e
  end.

(** The configuration [ingest] passes to [assignNested]. *)
Definition ingestCfg (o : XMSParseOptions) : NestCfg :=
  mkCfg (maxNestingDepth o ?? DEFAULT_maxNestingDepth)
        (createFlatKeys o ?? true) (createNestedKeys o ?? true).

(** The value found by following [segs] from the object [cur] through
    objects only. *)
Fixpoint lookupPath (cur : XMSNode) (segs : list str) : option XMSValue :=
  match segs with
  | [] => None
  | [seg] => getProp cur seg
  | seg :: rest =>
      match getProp cur seg with
      | Some (VObj child) => lookupPath child rest
      | _ => None
      end
  end.



(** The messages the strict tokenizer records before it throws. *)
Definition strictErrors : list str :=
  [L "Unterminated quote; fallback."; L "Malformed quoted value.";
   L "Dangling backslash."].

(** The state [parse()] starts from. *)
Definition state0 : InternalState := mkState [] [].

(** The ways a document is constructed. *)
Inductive Construction : Type :=
| ViaParse (inp : JsInput) (options : XMSParseOptions)
| ViaSafeParse (inp : JsInput) (options : XMSParseOptions)
| ViaFrom (source : Source) (options : FromOptions).

Definition construct (numberToString : str -> str) (c : Construction)
    : Result XMSDoc :=
  match c with
  | ViaParse inp options => parse inp options
  | ViaSafeParse inp options => Ok (safeParse inp options)
  | ViaFrom source options => from numberToString source options
  end.

(** The pair [(isFallback, version)] the caller hands to a [from]
    constructor that does not tokenize: the options when given, otherwise
    the fields of the source document or the defaults [false] and [1]. *)
Definition suppliedFlags (c : Construction) : option (bool * N) :=
  match c with
  | ViaFrom (SrcParsedLike p) fo =>
      Some (fo_isFallback fo ?? pl_isFallback p, fo_version fo ?? pl_version p)
  | ViaFrom (SrcEntries _) fo | ViaFrom (SrcNode _) fo =>
      Some (fo_isFallback fo ?? false, fo_version fo ?? 1%N)
  | _ => None
  end.

(** A name as the tokenizers leave it: lower-cased and trimmed. *)
Definition normalized (key : str) : Prop :=
  toLowerCase key = key /\ trim key = key.

(** The invariants of a document. *)
Definition wellFormedDoc (doc : XMSDoc) : Prop :=
  (isFallback doc = true -> version doc = 0%N)
  /\ Forall (fun e => normalized (name e)) (entries doc).

(** An entry the serializer writes in a form the strict tokenizer reads
    back: a valid key, and a value that is not the empty string. *)
Definition roundTrippable (e : XMSRawEntry) : Prop :=
  KEY_PATTERN (name e) = true /\ value e <> Some [].

(** Neither a backslash, a quote, a [;] nor a [=]. *)
Definition plainChar (c : ascii) : bool :=
  negb (Ascii.eqb c BACKSLASH || Ascii.eqb c DQUOTE || Ascii.eqb c SEMI
        || Ascii.eqb c EQUALS).

(** Neither a backslash, a quote nor a [;]. *)
Definition scanPlain (c : ascii) : bool :=
  negb (Ascii.eqb c BACKSLASH || Ascii.eqb c DQUOTE || Ascii.eqb c SEMI).

(** The token [toXMS] writes for an entry with a valid key. *)
Definition xmsToken (e : XMSRawEntry) : str :=
  match value e with
  | None => name e
  | Some [] => name e ++ [EQUALS]
  | Some v =>
      if needsQuotes v
      then name e ++ [EQUALS] ++ [DQUOTE] ++ escapeValue v ++ [DQUOTE]
      else name e ++ [EQUALS] ++ v
  end.

(** The value of a decimal numeral read from the left, started at [acc]. *)
Fixpoint uintValue (acc : N) (d : Decimal.uint) : N :=
  match d with
  | Decimal.Nil => acc
  | Decimal.D0 d => uintValue (acc * 10 + 0) d
  | Decimal.D1 d => uintValue (acc * 10 + 1) d
  | Decimal.D2 d => uintValue (acc * 10 + 2) d
  | Decimal.D3 d => uintValue (acc * 10 + 3) d
  | Decimal.D4 d => uintValue (acc * 10 + 4) d
  | Decimal.D5 d => uintValue (acc * 10 + 5) d
  | Decimal.D6 d => uintValue (acc * 10 + 6) d
  | Decimal.D7 d => uintValue (acc * 10 + 7) d
  | Decimal.D8 d => uintValue (acc * 10 + 8) d
  | Decimal.D9 d => uintValue (acc * 10 + 9) d
  end%N.

(** ** Lookup and export methods of the document class *)

(** [arr[s]] for a property name [s] of an array: an index below the
    length, written without leading zeros.  [i] is the index of the first
    element of [items]. *)
Fixpoint arrayIndex (items : list XMSValue) (i : nat) (s : str)
    : option XMSValue :=
  match items with
  | [] => None
  | x :: items' =>
      if str_eqb (showNat i) s then Some x else arrayIndex items' (S i) s
  end.

(** [s in arr] and [arr[s]]: the own properties of an array are its
    indices and [length]. *)
Definition arrayProp (items : list XMSValue) (s : str) : option XMSValue :=
  if str_eqb s (L "length") then Some (VNum (showNat (length items)))
  else arrayIndex items 0 s.

(** The [for] loop of [getNested] from the value [cur] on; [None] is the
    [else] branch that leaves the loop for the flat lookup. *)
Fixpoint getWalk (cur : XMSValue) (segs : list str) : option XMSValue :=
  match segs with
  | [] => Some cur
  | s :: segs' =>
      match cur with
      | VObj props =>
          match getProp props s with
          | Some x => getWalk x segs'
          | None => None
          end
      | VArr items =>
          match arrayProp items s with
          | Some x => getWalk x segs'
          | None => None
          end
      | _ => None
      end
  end.

(** [getNested(path)]; [None] is [undefined]. *)
Definition getNested (doc : XMSDoc) (path : str) : option XMSValue :=
  match getWalk (VObj (data doc)) (splitOn DOT path) with
  | Some v => Some v
  | None => getProp (data doc) path
  end.

(** [get(path)] *)
Definition get (doc : XMSDoc) (path : str) : option XMSValue :=
  getNested doc path.

(** [contains(path)] *)
Definition contains (doc : XMSDoc) (path : str) : bool :=
  match get doc path with Some _ => true | None => false end.

(** [toJSON()] *)
Definition toJSON (doc : XMSDoc) : XMSParsedLike :=
  mkParsedLike (version doc) (isFallback doc) (entries doc)
    (deepCloneNode (data doc)) (Some (warnings doc)) (Some (errors doc)).

(** [toObject()] *)
Definition toObject (doc : XMSDoc) : XMSNode := deepCloneNode (data doc).

(** [raw] *)
Definition raw (doc : XMSDoc) : str := input doc.


(** A property is present. *)
Definition hasProp (o : XMSNode) (k : str) : bool :=
  match getProp o k with Some _ => true | None => false end.

(** A value built of null, booleans, numbers, strings and objects only. *)
Fixpoint plainTree (v : XMSValue) : bool :=
  match v with
  | VObj props =>
      (fix plainProps (ps : list (str * XMSValue)) : bool :=
         match ps with
         | [] => true
         | (_, x) :: ps' => plainTree x && plainProps ps'
         end) props
  | VArr _ => false
  | _ => true
  end.

Definition plainNode (n : XMSNode) : bool := plainTree (VObj n).

(** An input of white space and [;] only. *)
Definition blank (s : str) : bool :=
  forallb (fun c => isSpace c || Ascii.eqb c SEMI) s.

(** The number of object levels of a value: 0 for a scalar and for an empty
    object, one more than its deepest member otherwise. *)
Fixpoint levels (v : XMSValue) : nat :=
  match v with
  | VObj props =>
      (fix overProps (ps : list (str * XMSValue)) : nat :=
         match ps with
         | [] => 0
         | (_, x) :: ps' => Nat.max (S (levels x)) (overProps ps')
         end) props
  | VArr items =>
      (fix overItems (xs : list XMSValue) : nat :=
         match xs with
         | [] => 0
         | x :: xs' => Nat.max (S (levels x)) (overItems xs')
         end) items
  | _ => 0
  end.

Definition nodeLevels (n : XMSNode) : nat := levels (VObj n).

(** ** Own properties and inherited names *)

(** The property names every object inherits from [Object.prototype]. *)
Definition inheritedNames : list str :=
  [PROTO; L "constructor"; L "hasOwnProperty"; L "isPrototypeOf";
   L "propertyIsEnumerable"; L "toLocaleString"; L "toString"; L "valueOf";
   L "__defineGetter__"; L "__defineSetter__"; L "__lookupGetter__";
   L "__lookupSetter__"].

Definition inherited (k : str) : bool := existsb (str_eqb k) inheritedNames.

(** No segment of the dotted key (and so not the key itself, when it has no
    dot) is a name inherited from [Object.prototype]: every read and write
    of [assignNested] and [getNested] for this key is one of an own
    property. *)
Definition ownPath (key : str) : bool :=
  forallb (fun s => negb (inherited s)) (splitOn DOT key).

(** No object of the value has an own property named [__proto__]. *)
Fixpoint noProtoKey (v : XMSValue) : bool :=
  match v with
  | VObj props =>
      (fix overProps (ps : list (str * XMSValue)) : bool :=
         match ps with
         | [] => true
         | (k, x) :: ps' =>
             negb (str_eqb k PROTO) && noProtoKey x && overProps ps'
         end) props
  | VArr items =>
      (fix overItems (xs : list XMSValue) : bool :=
         match xs with
         | [] => true
         | x :: xs' => noProtoKey x && overItems xs'
         end) items
  | _ => true
  end.

(** [Number.MAX_SAFE_INTEGER]: up to it a double is the integer it prints. *)
Definition MAX_SAFE_INTEGER : N := 9007199254740991.

(** The number predicate accepts the literal, or there is no predicate. *)
Definition accepted (o : XMSParseOptions) (raw : str) : bool :=
  match numberPredicate o with
  | None => true
  | Some p => p raw
  end.

(** The entries [parse()] hands to [ingest], with the state the tokenizers
    leave: the strict entries of the body after the prefix [parse] detects,
    the legacy entries of the whole input when there is no prefix or (with
    reparse-on-fallback) when the strict tokenizer threw. *)
Definition tokenized (inp : str) (o : XMSParseOptions)
    : InternalState * list XMSRawEntry :=
  match matchVersion inp with
  | Some (_, body) =>
      match parseXMSCore o body state0 with
      | (st, Ok es) => (st, es)
      | (st, Throw _) =>
          if reparseOnFallback o ?? true then parseCommonMeta o inp st
          else (st, [])
      end
  | None => parseCommonMeta o inp state0
  end.

(** The value tree obtained from [root] by storing, entry after entry, the
    coercion of the entry's value under the entry's name. *)
Definition assignAll (o : XMSParseOptions) (es : list XMSRawEntry)
    (root : XMSNode) : XMSNode :=
  fold_left
    (fun r e =>
       fst (assignNested o r (name e) (coerceValue o (value e))
              (ingestCfg o) []))
    es root.

(** The truncation warning [ingest] records for an entry: none, or the one
    that names the key and its limit. *)
Definition truncationWarning (o : XMSParseOptions) (e : XMSRawEntry)
    : list str :=
  match value e, lengthLimit (name e) with
  | Some v, Some n =>
      if (enforceLimits o ?? true) && (n <? length v)
      then [msgTruncated (name e) n] else []
  | _, _ => []
  end.

(** * Properties *)

(** The three outcomes of the key check both tokenizers end with: valid
    key, invalid key dropped, invalid key kept with a warning. *)
Ltac key_check_cases :=
  destruct (negb (KEY_PATTERN _)); [destruct (negb (_ ?? _))|].

(** ** Strings *)

Lemma str_eqb_refl (a : str) : str_eqb a a = true.
Proof.
  induction a as [|x a IH]; simpl; [reflexivity|].
  now rewrite Ascii.eqb_refl.
Qed.

Lemma str_eqb_eq (a b : str) : str_eqb a b = true <-> a = b.
Proof.
  split.
  - revert b; induction a as [|x a IH]; intros [|y b] H; simpl in H;
      try discriminate; [reflexivity|].
    apply andb_true_iff in H as [Hx Hab].
    apply Ascii.eqb_eq in Hx. f_equal; auto.
  - intros ->. apply str_eqb_refl.
Qed.

Lemma isEmpty_true (s : str) : isEmpty s = true <-> s = [].
Proof. destruct s; simpl; split; congruence. Qed.

Lemma isEmpty_false (s : str) : isEmpty s = false <-> s <> [].
Proof. destruct s; simpl; split; congruence. Qed.

Lemma trimStart_app_nonspace (l : str) (x : ascii) :
  isSpace x = false -> trimStart (l ++ [x]) = trimStart l ++ [x].
Proof.
  intros Hx. induction l as [|c l IH]; simpl.
  - now rewrite Hx.
  - destruct (isSpace c); [exact IH | reflexivity].
Qed.

Lemma trimStart_spaces_app (r s : str) :
  forallb isSpace r = true -> trimStart (r ++ s) = trimStart s.
Proof.
  induction r as [|c r IH]; simpl; [reflexivity|].
  intros H. apply andb_true_iff in H as [Hc Hr]. rewrite Hc. auto.
Qed.

Lemma trimEnd_cons_nonspace (x : ascii) (t : str) :
  isSpace x = false -> trimEnd (x :: t) = x :: trimEnd t.
Proof.
  intros Hx. unfold trimEnd. simpl.
  rewrite trimStart_app_nonspace by assumption.
  rewrite rev_app_distr. reflexivity.
Qed.


Lemma trimEnd_app_nonspace (s : str) (x : ascii) :
  isSpace x = false -> trimEnd (s ++ [x]) = s ++ [x].
Proof.
  intros Hx. unfold trimEnd. rewrite rev_app_distr. simpl. rewrite Hx.
  simpl. now rewrite rev_involutive.
Qed.

Lemma trim_cons_nonspace (x : ascii) (t : str) :
  isSpace x = false -> trim (x :: t) = x :: trimEnd t.
Proof.
  intros Hx. unfold trim. simpl. rewrite Hx.
  now apply trimEnd_cons_nonspace.
Qed.

(** ** The token scan *)

Lemma scanToken_split (q e : bool) (s : str) :
  let '(tok, rest, _) := scanToken q e s in s = tok ++ rest.
Proof.
  revert q e; induction s as [|ch s IH]; intros q e; simpl; [reflexivity|].
  pose proof (IH q false) as H1. pose proof (IH q true) as H2.
  pose proof (IH (negb q) false) as H3.
  destruct e; [|destruct (Ascii.eqb ch BACKSLASH);
                [|destruct (Ascii.eqb ch DQUOTE);
                  [|destruct (Ascii.eqb ch SEMI && negb q)]]];
    try reflexivity;
    unfold consTok;
    repeat match goal with
           | |- context [scanToken ?a ?b ?c] =>
               destruct (scanToken a b c) as [[? ?] ?]
           end; simpl; congruence.
Qed.

Lemma scanToken_general (s : str) : forall q e,
  let '(tok, rest, q') := scanToken q e s in
  q' = fst (scanState q e tok)
  /\ (rest = [] \/ (exists r, rest = SEMI :: r)
                   /\ scanState q e tok = (false, false))
  /\ (forall p r, tok = p ++ SEMI :: r -> scanState q e p <> (false, false)).
Proof.
  induction s as [|ch s IH]; intros q e; simpl.
  - repeat split; auto. intros [|? ?] ? ?; discriminate.
  - assert (Hstep : forall q1 e1,
      scanState q e [ch] = (q1, e1) ->
      scanState q e [] <> (false, false) \/ ch <> SEMI ->
      let '(tok, rest, q') := consTok ch (scanToken q1 e1 s) in
      q' = fst (scanState q e tok)
      /\ (rest = [] \/ (exists r, rest = SEMI :: r)
                       /\ scanState q e tok = (false, false))
      /\ (forall p r, tok = p ++ SEMI :: r ->
                      scanState q e p <> (false, false))).
    { intros q1 e1 Hst Hne. specialize (IH q1 e1).
      unfold consTok. destruct (scanToken q1 e1 s) as [[tok rest] q'].
      destruct IH as (Hq & Hrest & Hfirst).
      assert (Hcons : forall p, scanState q e (ch :: p) = scanState q1 e1 p).
      { intros p. simpl in Hst |- *.
        destruct e; [|destruct (Ascii.eqb ch BACKSLASH);
                      [|destruct (Ascii.eqb ch DQUOTE)]];
          inversion Hst; reflexivity. }
      rewrite Hcons. repeat split; auto.
      intros [|c p] r Heq.
      - simpl in Heq. inversion Heq; subst.
        destruct Hne as [Hne|Hne]; [exact Hne | congruence].
      - simpl in Heq. inversion Heq; subst. rewrite Hcons.
        eapply Hfirst; reflexivity. }
    destruct e.
    + apply Hstep; [reflexivity|]. left; simpl; destruct q; discriminate.
    + destruct (Ascii.eqb ch BACKSLASH) eqn:Hb.
      * apply Hstep; [simpl; now rewrite Hb|]. right.
        apply Ascii.eqb_eq in Hb. subst. discriminate.
      * destruct (Ascii.eqb ch DQUOTE) eqn:Hd.
        -- apply Hstep; [simpl; now rewrite Hb, Hd|]. right.
           apply Ascii.eqb_eq in Hd. subst. discriminate.
        -- destruct (Ascii.eqb ch SEMI && negb q) eqn:Hs.
           ++ apply andb_true_iff in Hs as [Hs Hq].
              apply Ascii.eqb_eq in Hs. subst ch.
              apply negb_true_iff in Hq. subst q. simpl.
              repeat split; eauto.
              intros [|? ?] ? ?; discriminate.
           ++ apply Hstep; [simpl; now rewrite Hb, Hd|].
              apply andb_false_iff in Hs as [Hs|Hs].
              ** right. apply Ascii.eqb_neq in Hs. exact Hs.
              ** left. simpl. apply negb_false_iff in Hs. subst q.
                 discriminate.
Qed.

Lemma scanToken_lengths (q e : bool) (s : str) :
  let '(tok, rest, _) := scanToken q e s in
  length s = length tok + length rest.
Proof.
  pose proof (scanToken_split q e s) as H.
  destruct (scanToken q e s) as [[tok rest] q'].
  rewrite H at 1. apply length_app.
Qed.

Lemma scanToken_consumes (c : ascii) (s : str) :
  Ascii.eqb c SEMI = false ->
  let '(tok, _, _) := scanToken false false (c :: s) in tok <> [].
Proof.
  intros Hc. simpl. rewrite Hc. simpl.
  destruct (Ascii.eqb c BACKSLASH); [|destruct (Ascii.eqb c DQUOTE)];
    unfold consTok;
    match goal with
    | |- context [scanToken ?a ?b ?x] => destruct (scanToken a b x) as [[? ?] ?]
    end; discriminate.
Qed.

Lemma skipSemis_spec (s : str) :
  length (skipSemis s) <= length s
  /\ (skipSemis s = []
      \/ exists c r, skipSemis s = c :: r /\ Ascii.eqb c SEMI = false).
Proof.
  induction s as [|c s [IHl IHr]]; simpl; [auto|].
  destruct (Ascii.eqb c SEMI) eqn:Hc.
  - split; [lia | exact IHr].
  - split; [simpl; lia | right; eauto].
Qed.

Lemma skipOneSemi_length (s : str) : length (skipOneSemi s) <= length s.
Proof.
  destruct s as [|c s]; simpl; [lia|].
  destruct (Ascii.eqb c SEMI); simpl; lia.
Qed.

(** What is left after one token is strictly shorter than the input. *)
Lemma iteration_rest_shorter (body : str) (c : ascii) (r : str) :
  skipSemis body = c :: r ->
  let '(_, rest, _) := scanToken false false (c :: r) in
  length (skipOneSemi rest) < length body.
Proof.
  intros Hsk.
  destruct (skipSemis_spec body) as [Hlen [Hnil | (c' & r' & Heq & Hc)]];
    [congruence|].
  rewrite Hsk in Heq. inversion Heq; subst c' r'.
  pose proof (scanToken_lengths false false (c :: r)) as Hl.
  pose proof (scanToken_consumes c r Hc) as Hne.
  destruct (scanToken false false (c :: r)) as [[tok rest] q'].
  pose proof (skipOneSemi_length rest).
  rewrite Hsk in Hlen.
  destruct tok; [congruence|]. simpl in Hl, Hlen |- *. lia.
Qed.

(** Two iteration functions that agree on every input shorter than [body]
    give the same iteration on [body]. *)
Lemma parseXMSIteration_ext next1 next2 (o : XMSParseOptions) (body : str)
    (st : InternalState) :
  (forall b s, length b < length body -> next1 b s = next2 b s) ->
  parseXMSIteration next1 o body st = parseXMSIteration next2 o body st.
Proof.
  intros Hext. unfold parseXMSIteration.
  destruct (skipSemis body) as [|c r] eqn:Hsk; [reflexivity|].
  pose proof (iteration_rest_shorter body c r Hsk) as Hlt.
  destruct (scanToken false false (c :: r)) as [[tok rest] q'].
  destruct q'; [reflexivity|].
  destruct (isEmpty (trim tok)); [now apply Hext|].
  destruct (strictToken o (trim tok) st) as [st' [[e|]|m]];
    try reflexivity; rewrite (Hext _ st' Hlt); reflexivity.
Qed.

(** The bound on the number of iterations is never reached. *)
Lemma parseXMSLoop_fuel (o : XMSParseOptions) (f1 : nat) :
  forall f2 body st,
    length body <= f1 -> length body <= f2 ->
    parseXMSLoop f1 o body st = parseXMSLoop f2 o body st.
Proof.
  induction f1 as [|f1 IH]; intros f2 body st H1 H2.
  - destruct body; [|simpl in H1; lia].
    destruct f2; reflexivity.
  - destruct f2 as [|f2].
    + destruct body; [reflexivity | simpl in H2; lia].
    + simpl. apply parseXMSIteration_ext.
      intros b s Hb. apply IH; lia.
Qed.

(** The loop equation of [parseXMSCore]: one iteration, then the tokenizer
    on what remains. *)
Lemma parseXMSCore_unfold (o : XMSParseOptions) (body : str)
    (st : InternalState) :
  parseXMSCore o body st = parseXMSIteration (parseXMSCore o) o body st.
Proof.
  unfold parseXMSCore at 1.
  destruct body as [|c body]; [reflexivity|].
  cbn [length parseXMSLoop].
  apply parseXMSIteration_ext.
  intros b s Hb. unfold parseXMSCore.
  apply parseXMSLoop_fuel; simpl in Hb; lia.
Qed.

(** C7 (as amended).  In the strict tokenizer a token ends exactly at the
    first [;] that is neither inside quoting nor escaped, or at the end of
    the input: the scan splits the input into the token and what follows it,
    what follows is empty or starts with a [;] reached in the state
    "unquoted, not escaped", and no earlier [;] of the token was reached in
    that state.  The state is [scanState]: a quote that is not escaped
    toggles quoting, and a backslash escapes the next character inside and
    outside quoting alike.  The final [inQuote] is that of the state. *)
Theorem scanToken_ends_at_first_live_semicolon (body : str) :
  let '(tok, rest, inQuote) := scanToken false false body in
  body = tok ++ rest
  /\ inQuote = fst (scanState false false tok)
  /\ (rest = []
      \/ (exists r, rest = SEMI :: r)
         /\ scanState false false tok = (false, false))
  /\ (forall p r, tok = p ++ SEMI :: r ->
                  scanState false false p <> (false, false)).
Proof.
  pose proof (scanToken_split false false body) as Hsplit.
  pose proof (scanToken_general body false false) as Hgen.
  destruct (scanToken false false body) as [[tok rest] q'].
  destruct Hgen as (Hq & Hrest & Hfirst).
  repeat split; assumption.
Qed.

(** C7 (as stated) fails: outside quoting a backslash still escapes, so the
    [;] that follows it does not end the token.  On the body [a\;b] the
    source scans one token, where the scan that escapes only inside quoting
    stops at the [;]. *)
Lemma backslash_escapes_semicolon_outside_quotes :
  let body := L "a" ++ [BACKSLASH] ++ L ";b" in
  scanToken false false body = (body, [], false)
  /\ scanTokenQuotedEscapes false false body
     = (L "a" ++ [BACKSLASH], L ";b", false)
  /\ scanToken false false body <> scanTokenQuotedEscapes false false body
  /\ snd (parseXMSCore (withDefaults noOptions) body (mkState [] []))
     = Ok [mkEntry body None].
Proof.
  repeat split; try reflexivity. discriminate.
Qed.

(** ** Bare tokens and empty right-hand sides *)







Lemma trimStart_idem (t : str) : trimStart (trimStart t) = trimStart t.
Proof.
  induction t as [|x t IH]; simpl; [reflexivity|].
  destruct (isSpace x) eqn:Hx; [exact IH|]. simpl. now rewrite Hx.
Qed.



Lemma findEq_no_eq (t : str) : forall q e,
  hasEq t = false -> findEq q e t = None.
Proof.
  induction t as [|c t IH]; intros q e H; simpl; [reflexivity|].
  unfold hasEq in H. simpl in H. apply orb_false_iff in H as [Hc Ht].
  rewrite Hc. simpl.
  destruct e; [|destruct (Ascii.eqb c BACKSLASH);
                [|destruct (Ascii.eqb c DQUOTE)]];
    rewrite IH by exact Ht; reflexivity.
Qed.


Lemma splitFirst_no_eq (t : str) : hasEq t = false -> splitFirst EQUALS t = None.
Proof.
  induction t as [|c t IH]; intros H; simpl; [reflexivity|].
  unfold hasEq in H. simpl in H. apply orb_false_iff in H as [Hc Ht].
  rewrite Hc, IH by exact Ht. reflexivity.
Qed.




(** ** Limit enforcement *)

Lemma enforceLength_table (key v : str) (ws : list str) :
  enforceLength key v ws =
  match lengthLimit key with
  | Some n =>
      if n <? length v then (firstn n v, ws ++ [msgTruncated key n])
      else (v, ws)
  | None => (v, ws)
  end.
Proof.
  unfold enforceLength, lengthLimit, lengthLimitTable, lookupLimit.
  destruct (str_eqb key (L "username")); [reflexivity|].
  destruct (str_eqb key (L "message")); [reflexivity|].
  destruct (str_eqb key (L "error")) eqn:He;
    destruct (str_eqb key (L "error.message")) eqn:Hem; try reflexivity.
Qed.

Lemma firstn_within (n : nat) (v : str) : length v <= n -> firstn n v = v.
Proof. intros H. now apply firstn_all2. Qed.

Lemma entry_eta (e : XMSRawEntry) : mkEntry (name e) (value e) = e.
Proof. destruct e; reflexivity. Qed.

(** The entry that [ingestEntry] leaves in the log is the limited one. *)
Lemma ingestEntry_entry (o : XMSParseOptions) (e : XMSRawEntry)
    (root : XMSNode) (ws : list str) :
  fst (fst (ingestEntry o e root ws)) = limited o e.
Proof.
  unfold ingestEntry, limited.
  destruct (value e) as [v|] eqn:Hv.
  - rewrite enforceLength_table.
    destruct (enforceLimits o ?? true).
    + destruct (lengthLimit (name e)) as [n|].
      * destruct (n <? length v) eqn:Hn;
          destruct (assignNested _ _ _ _ _ _); simpl; [reflexivity|].
        apply Nat.ltb_ge in Hn. now rewrite firstn_within.
      * destruct (assignNested _ _ _ _ _ _); simpl.
        rewrite <- Hv. apply entry_eta.
    + destruct (lengthLimit (name e));
        destruct (assignNested _ _ _ _ _ _); reflexivity.
  - destruct (assignNested _ _ _ _ _ _); reflexivity.
Qed.

(** The entry log after [ingest]: every entry limited, none added, dropped
    or reordered. *)
Lemma ingest_entries (o : XMSParseOptions) (es : list XMSRawEntry) :
  forall root ws, fst (fst (ingest o es root ws)) = map (limited o) es.
Proof.
  induction es as [|e es IH]; intros root ws; simpl; [reflexivity|].
  pose proof (ingestEntry_entry o e root ws) as He.
  destruct (ingestEntry o e root ws) as [[e1 root1] ws1].
  specialize (IH root1 ws1).
  destruct (ingest o es root1 ws1) as [[es1 root2] ws2].
  simpl in *. congruence.
Qed.

Lemma limited_name (o : XMSParseOptions) (e : XMSRawEntry) :
  name (limited o e) = name e.
Proof.
  unfold limited. destruct (value e), (lengthLimit (name e));
    try reflexivity.
  destruct (enforceLimits o ?? true); reflexivity.
Qed.

(** With limit enforcement enabled, one step of ingestion on an entry
    [e] with string value [v]: the value kept in the entry log is [v] cut to
    the limit of the key ([username] 16; [message], [error] and
    [error.message] 255), a truncation warning naming key and limit is
    recorded exactly when [v] is longer than the limit, an entry whose key
    has no limit or whose value fits is left as it is, and the value handed
    to the nested assigner is the coercion of the string that was kept, so
    truncation comes before coercion. *)
Lemma ingestEntry_truncates_before_coercion
    (o : XMSParseOptions) (e : XMSRawEntry) (v : str) (root : XMSNode)
    (ws : list str)
    (Hon : enforceLimits o ?? true = true) (Hv : value e = Some v) :
  let lim := lengthLimit (name e) in
  let kept := match lim with Some n => firstn n v | None => v end in
  let ws' := match lim with
             | Some n =>
                 if n <? length v then ws ++ [msgTruncated (name e) n] else ws
             | None => ws
             end in
  let assigned :=
    assignNested o root (name e) (coerceValue o (Some kept)) (ingestCfg o) ws'
  in
  ingestEntry o e root ws
    = (mkEntry (name e) (Some kept), fst assigned, snd assigned)
  /\ (forall n, lim = Some n -> n < length v -> length kept = n)
  /\ (forall n, lim = Some n -> length v <= n ->
                mkEntry (name e) (Some kept) = e /\ ws' = ws)
  /\ (lim = None -> mkEntry (name e) (Some kept) = e /\ ws' = ws)
  /\ lengthLimit (L "username") = Some 16
  /\ lengthLimit (L "message") = Some 255
  /\ lengthLimit (L "error") = Some 255
  /\ lengthLimit (L "error.message") = Some 255
  /\ (forall key, ~ In key [L "username"; L "message"; L "error";
                            L "error.message"] ->
                  lengthLimit key = None).
Proof.
  cbv zeta. split; [|repeat split].
  - unfold ingestEntry. rewrite Hv, Hon, enforceLength_table.
    fold (ingestCfg o).
    destruct (lengthLimit (name e)) as [n|].
    + destruct (n <? length v) eqn:Hn; cbn [value].
      * destruct (assignNested _ _ _ _ _ _); reflexivity.
      * apply Nat.ltb_ge in Hn. rewrite firstn_within by assumption.
        destruct (assignNested _ _ _ _ _ _); reflexivity.
    + cbn [value]. destruct (assignNested _ _ _ _ _ _); reflexivity.
  - intros n -> Hn. apply length_firstn_le || apply firstn_length_le. lia.
  - rewrite H. rewrite firstn_within by assumption.
    rewrite <- (entry_eta e) at 2. now rewrite Hv.
  - rewrite H. apply Nat.ltb_ge in H0. now rewrite H0.
  - rewrite H. rewrite <- (entry_eta e) at 2. now rewrite Hv.
  - now rewrite H.
  - intros key Hnot. unfold lengthLimit, lengthLimitTable, lookupLimit.
    assert (Hne : forall k, In k [L "username"; L "message"; L "error";
                                  L "error.message"] ->
                            str_eqb key k = false).
    { intros k Hin. destruct (str_eqb key k) eqn:Hk; [|reflexivity].
      apply str_eqb_eq in Hk. subst k. contradiction. }
    rewrite !Hne by (simpl; tauto). reflexivity.
Qed.

(** ** Nested assignment *)

Lemma getProp_setProp_same (o : XMSNode) (k : str) (v : XMSValue) :
  getProp (setProp o k v) k = Some v.
Proof.
  induction o as [|[k' v'] o IH]; simpl.
  - now rewrite str_eqb_refl.
  - destruct (str_eqb k' k) eqn:Hk; simpl; rewrite Hk; auto.
Qed.


Lemma walkSegments_step (ow : bool) (cur : XMSNode) (seg s2 : str)
    (rest : list str) (v : XMSValue) :
  walkSegments ow cur (seg :: s2 :: rest) v =
  match getProp cur seg with
  | Some (VObj child) =>
      let (child', r) := walkSegments ow child (s2 :: rest) v in
      (setProp cur seg (VObj child'), r)
  | Some _ =>
      if ow then
        let (child', r) := walkSegments ow [] (s2 :: rest) v in
        (setProp cur seg (VObj child'), r)
      else (cur, Some seg)
  | None =>
      let (child', r) := walkSegments ow [] (s2 :: rest) v in
      (setProp cur seg (VObj child'), r)
  end.
Proof. reflexivity. Qed.

Lemma lookupPath_step (cur : XMSNode) (seg s2 : str) (rest : list str) :
  lookupPath cur (seg :: s2 :: rest) =
  match getProp cur seg with
  | Some (VObj child) => lookupPath child (s2 :: rest)
  | _ => None
  end.
Proof. reflexivity. Qed.










(** ** The error log of the tokenizers *)

Lemma strictToken_errors (o : XMSParseOptions) (token : str)
    (st : InternalState) :
  match strictToken o token st with
  | (st', Ok _) => st_errors st' = st_errors st
  | (st', Throw _) =>
      exists e, In e strictErrors /\ st_errors st' = st_errors st ++ [e]
  end.
Proof.
  unfold strictToken.
  destruct (findEq false false token) as [[l r]|].
  - destruct (isEmpty (trim r)).
    + key_check_cases; reflexivity.
    + destruct (startsWith [DQUOTE] (trim r)).
      * destruct ((length (trim r) <? 2) || negb (endsWithChar DQUOTE (trim r))).
        -- eexists; split; [|reflexivity]. simpl; tauto.
        -- destruct (unescape false (sliceInner (trim r))) as [outStr [|]].
           ++ eexists; split; [|reflexivity]. simpl; tauto.
           ++ key_check_cases;
                reflexivity.
      * key_check_cases; reflexivity.
  - key_check_cases; reflexivity.
Qed.

Lemma parseXMSLoop_errors (o : XMSParseOptions) (fuel : nat) :
  forall body st,
    match parseXMSLoop fuel o body st with
    | (st', Ok _) => st_errors st' = st_errors st
    | (st', Throw _) =>
        exists e, In e strictErrors /\ st_errors st' = st_errors st ++ [e]
    end.
Proof.
  induction fuel as [|fuel IH]; intros body st; [reflexivity|].
  cbn [parseXMSLoop]. unfold parseXMSIteration.
  destruct (skipSemis body) as [|c r]; [reflexivity|].
  destruct (scanToken false false (c :: r)) as [[tok rest] q].
  destruct q.
  { eexists; split; [|reflexivity]. simpl; tauto. }
  destruct (isEmpty (trim tok)); [apply IH|].
  pose proof (strictToken_errors o (trim tok) st) as Htok.
  destruct (strictToken o (trim tok) st) as [st' [[e|]|m]].
  - specialize (IH (skipOneSemi rest) st').
    destruct (parseXMSLoop fuel o (skipOneSemi rest) st') as [st'' [out|m]].
    + congruence.
    + destruct IH as (e' & Hin & Heq). exists e'. split; [assumption|].
      congruence.
  - specialize (IH (skipOneSemi rest) st').
    destruct (parseXMSLoop fuel o (skipOneSemi rest) st') as [st'' [out|m]].
    + congruence.
    + destruct IH as (e' & Hin & Heq). exists e'. split; [assumption|].
      congruence.
  - exact Htok.
Qed.

Lemma parseXMSCore_errors (o : XMSParseOptions) (body : str)
    (st : InternalState) :
  match parseXMSCore o body st with
  | (st', Ok _) => st_errors st' = st_errors st
  | (st', Throw _) =>
      exists e, In e strictErrors /\ st_errors st' = st_errors st ++ [e]
  end.
Proof. apply parseXMSLoop_errors. Qed.

Lemma legacyToken_state (o : XMSParseOptions) (text : str)
    (st1 st2 : InternalState) :
  st_errors (fst (legacyToken o text st1)) = st_errors st1
  /\ snd (legacyToken o text st1) = snd (legacyToken o text st2).
Proof.
  unfold legacyToken.
  destruct (isEmpty (trim text)); [split; reflexivity|].
  destruct (splitFirst EQUALS (trim text)) as [[l r]|];
    key_check_cases;
    split; reflexivity.
Qed.

(** The legacy tokenizer never records an error, and its entries do not
    depend on the state it is started in. *)
Lemma legacyLoop_state (o : XMSParseOptions) (toks : list str) :
  forall st1 st2,
    st_errors (fst (legacyLoop o toks st1)) = st_errors st1
    /\ snd (legacyLoop o toks st1) = snd (legacyLoop o toks st2).
Proof.
  induction toks as [|tk toks IH]; intros st1 st2; [split; reflexivity|].
  cbn [legacyLoop].
  destruct (legacyToken_state o tk st1 st2) as [He Hs].
  destruct (legacyToken o tk st1) as [st1' [e1|]];
    destruct (legacyToken o tk st2) as [st2' [e2|]];
    simpl in He, Hs; try discriminate.
  - inversion Hs; subst e2.
    destruct (IH st1' st2') as [He' Hs'].
    destruct (legacyLoop o toks st1') as [st1'' out1].
    destruct (legacyLoop o toks st2') as [st2'' out2].
    simpl in *. split; congruence.
  - destruct (IH st1' st2') as [He' Hs']. split; congruence.
Qed.

Lemma parseCommonMeta_errors (o : XMSParseOptions) (inp : str)
    (st : InternalState) :
  st_errors (fst (parseCommonMeta o inp st)) = st_errors st.
Proof. apply (legacyLoop_state o (splitTokens [] inp) st st). Qed.

Lemma parseCommonMeta_entries (o : XMSParseOptions) (inp : str)
    (st : InternalState) :
  snd (parseCommonMeta o inp st) = snd (parseCommonMeta o inp state0).
Proof. apply (legacyLoop_state o (splitTokens [] inp) st state0). Qed.

(** ** The three ways through [parse()] *)

Lemma parseDoc_no_prefix (inp : str) (o : XMSParseOptions) :
  matchVersion inp = None ->
  version (parseDoc inp o) = 0%N
  /\ isFallback (parseDoc inp o) = true
  /\ entries (parseDoc inp o)
     = map (limited o) (snd (parseCommonMeta o inp state0))
  /\ errors (parseDoc inp o) = [].
Proof.
  intros Hm. unfold parseDoc. rewrite Hm.
  pose proof (parseCommonMeta_errors o inp (mkState [] [])) as He.
  fold state0 in *.
  destruct (parseCommonMeta o inp state0) as [st es].
  pose proof (ingest_entries o es [] (st_warnings st)) as Hi.
  destruct (ingest o es [] (st_warnings st)) as [[es2 d2] ws2].
  simpl in *. auto.
Qed.

Lemma parseDoc_strict_ok (inp : str) (o : XMSParseOptions) (ds body : str)
    (st : InternalState) (es : list XMSRawEntry) :
  matchVersion inp = Some (ds, body) ->
  parseXMSCore o body state0 = (st, Ok es) ->
  version (parseDoc inp o) = parseDigits ds
  /\ isFallback (parseDoc inp o) = false
  /\ entries (parseDoc inp o) = map (limited o) es
  /\ errors (parseDoc inp o) = [].
Proof.
  intros Hm Hp. unfold parseDoc. rewrite Hm. fold state0. 
  pose proof (parseXMSCore_errors o body state0) as He.
  rewrite Hp in *.
  pose proof (ingest_entries o es [] (st_warnings st)) as Hi.
  destruct (ingest o es [] (st_warnings st)) as [[es2 d2] ws2].
  simpl in *. auto.
Qed.

Lemma parseDoc_strict_throw (inp : str) (o : XMSParseOptions) (ds body : str)
    (st : InternalState) (m : str) :
  matchVersion inp = Some (ds, body) ->
  parseXMSCore o body state0 = (st, Throw m) ->
  version (parseDoc inp o) = 0%N
  /\ isFallback (parseDoc inp o) = true
  /\ entries (parseDoc inp o)
     = (if reparseOnFallback o ?? true
        then map (limited o) (snd (parseCommonMeta o inp state0))
        else [])
  /\ (exists e, In e strictErrors /\ errors (parseDoc inp o) = [e]).
Proof.
  intros Hm Hp. unfold parseDoc. rewrite Hm. fold state0.
  pose proof (parseXMSCore_errors o body state0) as He.
  rewrite Hp in *.
  destruct (reparseOnFallback o ?? true).
  - pose proof (parseCommonMeta_errors o inp st) as He'.
    pose proof (parseCommonMeta_entries o inp st) as Hs'.
    destruct (parseCommonMeta o inp st) as [st' es].
    pose proof (ingest_entries o es [] (st_warnings st')) as Hi.
    destruct (ingest o es [] (st_warnings st')) as [[es2 d2] ws2].
    simpl in *. repeat split; try congruence.
    destruct He as (e & Hin & Heq). exists e. split; [assumption|].
    congruence.
  - simpl. repeat split; auto.
Qed.

(** ** The version prefix and the legacy tokenizer *)

Lemma digit_facts (c : ascii) :
  isDigit c = true ->
  isSpace c = false /\ Ascii.eqb c EQUALS = false /\ lowerChar c = c
  /\ Ascii.eqb c SEMI = false.
Proof.
  destruct c as [[] [] [] [] [] [] [] []]; intros H; vm_compute in H;
    try discriminate; vm_compute; auto.
Qed.

Lemma span_spec (p : ascii -> bool) (s : str) :
  let (a, b) := span p s in s = a ++ b /\ forallb p a = true.
Proof.
  induction s as [|c s IH]; simpl; [auto|].
  destruct (p c) eqn:Hc; [|auto].
  destruct (span p s) as [a b]. destruct IH as [-> Ha].
  simpl. rewrite Hc. auto.
Qed.

(** A match of [/^xms\/(\d+)/]: the input is [xms/], a non-empty digit run
    and the rest. *)
Lemma matchVersion_shape (inp ds body : str) :
  matchVersion inp = Some (ds, body) ->
  inp = L "xms/" ++ ds ++ body /\ ds <> [] /\ forallb isDigit ds = true.
Proof.
  unfold matchVersion.
  destruct inp as [|c1 [|c2 [|c3 [|c4 r]]]]; try discriminate.
  destruct (str_eqb [c1; c2; c3; c4] (L "xms/")) eqn:Hx; [|discriminate].
  apply str_eqb_eq in Hx. inversion Hx; subst.
  pose proof (span_spec isDigit r) as Hs.
  destruct (span isDigit r) as [a b]. destruct Hs as [-> Ha].
  destruct (isEmpty a) eqn:Hea; [discriminate|].
  intros H; inversion H; subst.
  repeat split; auto. now apply isEmpty_false.
Qed.

Lemma splitTokens_first (s : str) : forall cur,
  cur <> [] -> exists tok toks, splitTokens cur s = (cur ++ tok) :: toks.
Proof.
  induction s as [|ch s IH]; intros cur Hcur; simpl.
  - exists [], []. rewrite app_nil_r.
    destruct cur; [congruence | reflexivity].
  - destruct (Ascii.eqb ch SEMI).
    + exists [], (splitTokens [] s). rewrite app_nil_r.
      destruct cur; [congruence | reflexivity].
    + destruct (IH (cur ++ [ch])) as (tok & toks & Heq).
      { now destruct cur. }
      exists (ch :: tok), toks. rewrite Heq, <- app_assoc. reflexivity.
Qed.

Lemma splitTokens_until_semi (p rest : str) : forall cur,
  forallb (fun c => negb (Ascii.eqb c SEMI)) p = true ->
  cur ++ p <> [] ->
  splitTokens cur (p ++ SEMI :: rest) = (cur ++ p) :: splitTokens [] rest.
Proof.
  induction p as [|c p IH]; intros cur Hp Hne; simpl.
  - rewrite app_nil_r in *. change (Ascii.eqb SEMI SEMI) with true. cbv iota.
    destruct cur; [congruence | reflexivity].
  - simpl in Hp. apply andb_true_iff in Hp as [Hc Hp].
    apply negb_true_iff in Hc. rewrite Hc.
    rewrite IH; [|assumption|now destruct cur].
    now rewrite <- app_assoc.
Qed.

Lemma legacyToken_kept (o : XMSParseOptions) (text : str)
    (st : InternalState) :
  keepInvalidKeys o ?? true = true ->
  isEmpty (trim text) = false ->
  exists e, snd (legacyToken o text st) = Some e.
Proof.
  intros Hkeep Hne. unfold legacyToken. rewrite Hne, Hkeep.
  destruct (splitFirst EQUALS (trim text)) as [[l r]|];
    (destruct (negb (KEY_PATTERN _)); simpl; eexists; reflexivity).
Qed.

Lemma legacyLoop_first (o : XMSParseOptions) (tk : str) (toks : list str)
    (st : InternalState) (e : XMSRawEntry) :
  snd (legacyToken o tk st) = Some e ->
  snd (legacyLoop o (tk :: toks) st)
  = e :: snd (legacyLoop o toks (fst (legacyToken o tk st))).
Proof.
  intros H. cbn [legacyLoop].
  destruct (legacyToken o tk st) as [st' [e'|]]; simpl in H; [|discriminate].
  inversion H; subst. simpl.
  destruct (legacyLoop o toks st'); reflexivity.
Qed.

(** With invalid keys kept, the legacy tokenizer gives at least one entry
    to an input that starts with a character that is neither white space
    nor [;]. *)
Lemma parseCommonMeta_nonempty (o : XMSParseOptions) (c : ascii) (r : str)
    (st : InternalState) :
  keepInvalidKeys o ?? true = true ->
  isSpace c = false -> Ascii.eqb c SEMI = false ->
  snd (parseCommonMeta o (c :: r) st) <> [].
Proof.
  intros Hkeep Hsp Hsemi. unfold parseCommonMeta.
  assert (Hstart : splitTokens [] (c :: r) = splitTokens [c] r)
    by (simpl; now rewrite Hsemi).
  rewrite Hstart.
  destruct (splitTokens_first r [c]) as (tok & toks & ->); [discriminate|].
  destruct (legacyToken_kept o ([c] ++ tok) st Hkeep) as (e & He).
  { simpl. now rewrite trim_cons_nonspace. }
  rewrite (legacyLoop_first o _ toks st e He). discriminate.
Qed.

Lemma trimEnd_no_space (s : str) :
  forallb (fun c => negb (isSpace c)) s = true -> trimEnd s = s.
Proof.
  induction s as [|c s IH]; intros H; [reflexivity|].
  simpl in H. apply andb_true_iff in H as [Hc Hs].
  apply negb_true_iff in Hc.
  rewrite trimEnd_cons_nonspace by assumption. now rewrite IH.
Qed.

Lemma forallb_impl (p q : ascii -> bool) (s : str) :
  (forall c, p c = true -> q c = true) ->
  forallb p s = true -> forallb q s = true.
Proof.
  intros Hpq. rewrite !forallb_forall. auto.
Qed.

(** The legacy tokenizer on the token [xms/N]: a bare token with an invalid
    key. *)
Lemma legacyToken_version_prefix (o : XMSParseOptions) (ds : str)
    (st : InternalState) :
  keepInvalidKeys o ?? true = true ->
  forallb isDigit ds = true ->
  snd (legacyToken o (L "xms/" ++ ds) st)
  = Some (mkEntry (L "xms/" ++ ds) (Some [])).
Proof.
  intros Hkeep Hds.
  assert (Htrim : trim (L "xms/" ++ ds) = L "xms/" ++ ds).
  { change (L "xms/" ++ ds) with ("x"%char :: L "ms/" ++ ds).
    rewrite trim_cons_nonspace by reflexivity. f_equal.
    apply trimEnd_no_space. simpl.
    eapply forallb_impl; [|exact Hds].
    intros c Hc. now destruct (digit_facts c Hc) as (-> & _). }
  assert (Heq : hasEq (L "xms/" ++ ds) = false).
  { unfold hasEq. simpl.
    destruct (existsb _ ds) eqn:Hex; [|reflexivity].
    apply existsb_exists in Hex as (c & Hin & Hc).
    rewrite forallb_forall in Hds.
    destruct (digit_facts c (Hds c Hin)) as (_ & Hne & _). congruence. }
  assert (Hlow : toLowerCase (L "xms/" ++ ds) = L "xms/" ++ ds).
  { unfold toLowerCase. rewrite map_app. f_equal.
    rewrite forallb_forall in Hds.
    rewrite <- (map_id ds) at 2. apply map_ext_in.
    intros c Hin. now destruct (digit_facts c (Hds c Hin)) as (_ & _ & -> & _). }
  unfold legacyToken. rewrite Htrim.
  change (isEmpty (L "xms/" ++ ds)) with false. cbv iota.
  rewrite splitFirst_no_eq by assumption. rewrite Hlow, Hkeep.
  change (KEY_PATTERN (L "xms/" ++ ds)) with false. reflexivity.
Qed.

Lemma limited_version_prefix (o : XMSParseOptions) (ds : str) :
  limited o (mkEntry (L "xms/" ++ ds) (Some []))
  = mkEntry (L "xms/" ++ ds) (Some []).
Proof. reflexivity. Qed.

Lemma withDefaults_reparse (options : XMSParseOptions) :
  reparseOnFallback (withDefaults (setDefer options false)) ?? true
  = reparseOnFallback options ?? true.
Proof. simpl. now destruct (reparseOnFallback options). Qed.

Lemma withDefaults_keep (options : XMSParseOptions) :
  keepInvalidKeys (withDefaults (setDefer options false)) ?? true
  = keepInvalidKeys options ?? true.
Proof. simpl. now destruct (keepInvalidKeys options). Qed.

Lemma parse_string (inp : str) (options : XMSParseOptions) :
  parse (JString inp) options
  = Ok (parseDoc inp (withDefaults (setDefer options false))).
Proof. reflexivity. Qed.

(** ** The dispatcher *)

(** C1.  When the input carries a version prefix and the strict tokenizer
    throws on its body, [parse] with fallback re-parsing and invalid keys
    kept (both defaults) returns a document, no exception: [isFallback] is
    true, [version] is 0, and the entry log is the legacy tokenizer's output
    for the whole input (each entry after limit enforcement), which is not
    empty; when the prefix is [xms/N;] its first entry is the bare token
    [xms/N] with the empty string as value. *)
Theorem malformed_strict_input_falls_back
    (options : XMSParseOptions) (inp ds body : str) (st : InternalState)
    (m : str)
    (Hre : reparseOnFallback options ?? true = true)
    (Hkeep : keepInvalidKeys options ?? true = true)
    (Hprefix : matchVersion inp = Some (ds, body))
    (Hfail : parseXMSCore (withDefaults (setDefer options false)) body state0
             = (st, Throw m)) :
  let o := withDefaults (setDefer options false) in
  exists doc,
    parse (JString inp) options = Ok doc
    /\ isFallback doc = true
    /\ version doc = 0%N
    /\ entries doc <> []
    /\ entries doc = map (limited o) (snd (parseCommonMeta o inp state0))
    /\ (forall rest, body = SEMI :: rest ->
          hd_error (entries doc) = Some (mkEntry (L "xms/" ++ ds) (Some []))).
Proof.
  intros o. exists (parseDoc inp o). split; [apply parse_string|].
  destruct (parseDoc_strict_throw inp o ds body st m Hprefix Hfail)
    as (Hv & Hf & He & _).
  assert (Hre' : reparseOnFallback o ?? true = true)
    by (unfold o; now rewrite withDefaults_reparse).
  assert (Hkeep' : keepInvalidKeys o ?? true = true)
    by (unfold o; now rewrite withDefaults_keep).
  rewrite Hre' in He.
  destruct (matchVersion_shape inp ds body Hprefix) as (Hinp & Hne & Hds).
  repeat split; try assumption.
  - rewrite He. subst inp.
    pose proof (parseCommonMeta_nonempty o "x"%char
                  (L "ms/" ++ ds ++ body) state0 Hkeep' eq_refl eq_refl) as H.
    change (L "xms/" ++ ds ++ body) with ("x"%char :: L "ms/" ++ ds ++ body).
    destruct (snd (parseCommonMeta o _ state0)); [congruence | discriminate].
  - intros rest ->. rewrite He. subst inp.
    unfold parseCommonMeta.
    rewrite (app_assoc (L "xms/") ds (SEMI :: rest)).
    rewrite (splitTokens_until_semi (L "xms/" ++ ds) rest []).
    + rewrite (legacyLoop_first o _ _ state0 _
                 (legacyToken_version_prefix o ds state0 Hkeep' Hds)).
      reflexivity.
    + rewrite forallb_app. apply andb_true_iff. split; [reflexivity|].
      eapply forallb_impl; [|exact Hds].
      intros c Hc. destruct (digit_facts c Hc) as (_ & _ & _ & ->).
      reflexivity.
    + discriminate.
Qed.

Lemma malformed_strict_input_falls_back_witness :
  let inp := L "xms/1;username=" ++ [DQUOTE] ++ L "steve;item=sword" in
  let o := withDefaults (setDefer noOptions false) in
  exists doc,
    parse (JString inp) noOptions = Ok doc
    /\ isFallback doc = true
    /\ version doc = 0%N
    /\ entries doc <> []
    /\ entries doc = map (limited o) (snd (parseCommonMeta o inp state0))
    /\ (forall rest,
          L ";username=" ++ [DQUOTE] ++ L "steve;item=sword" = SEMI :: rest ->
          hd_error (entries doc) = Some (mkEntry (L "xms/" ++ L "1") (Some []))).
Proof.
  exact (malformed_strict_input_falls_back noOptions
           (L "xms/1;username=" ++ [DQUOTE] ++ L "steve;item=sword")
           (L "1") (L ";username=" ++ [DQUOTE] ++ L "steve;item=sword")
           (mkState [] [L "Unterminated quote; fallback."])
           (L "Malformed quotes") eq_refl eq_refl eq_refl eq_refl).
Defined.

(** The error log of a parsed document is non-empty exactly when [parse]
    itself detected a prefix (its own test: [xms/] and a digit run, with or
    without the [;]) and the strict tokenizer threw on the body; it then
    holds the one message recorded at the throw (unterminated quote,
    malformed quoted value or dangling backslash).  A legacy parse taken
    because [parse] detected no prefix is a fallback with an empty error
    log. *)
Lemma errors_iff_strict_tokenizer_failed (inp : str) (o : XMSParseOptions) :
  let doc := parseDoc inp o in
  (errors doc <> [] <->
     exists ds body st m,
       matchVersion inp = Some (ds, body)
       /\ parseXMSCore o body state0 = (st, Throw m))
  /\ (matchVersion inp = None -> isFallback doc = true /\ errors doc = [])
  /\ (errors doc = [] \/ exists e, In e strictErrors /\ errors doc = [e])
  /\ (forall options,
        parse (JString inp) options
        = Ok (parseDoc inp (withDefaults (setDefer options false)))).
Proof.
  cbv zeta.
  destruct (matchVersion inp) as [[ds body]|] eqn:Hm.
  - destruct (parseXMSCore o body state0) as [st [es|m]] eqn:Hp.
    + destruct (parseDoc_strict_ok inp o ds body st es Hm Hp)
        as (_ & _ & _ & He).
      repeat split; auto; try discriminate.
      * intros H. congruence.
      * intros (ds' & body' & st' & m' & Heq & Hthrow).
        inversion Heq; subst. congruence.
    + destruct (parseDoc_strict_throw inp o ds body st m Hm Hp)
        as (_ & _ & _ & e & Hin & He).
      repeat split; eauto; try discriminate.
      * intros _. exists ds, body, st, m. auto.
      * intros _. rewrite He. discriminate.
  - destruct (parseDoc_no_prefix inp o Hm) as (_ & Hf & _ & He).
    repeat split; auto.
    + intros H. congruence.
    + intros (ds & body & st & m & Heq & _). discriminate.
Qed.

(** C10.  The claim fails on the input [xms/1] followed by a double quote.
    The input carries no version prefix [xms/N;] (there is no [;], and
    [isProbablyXMS] rejects it), yet [parse] takes [xms/1] for a prefix,
    runs the strict tokenizer on the lone quote, which fails, and returns a
    fallback document of version 0 whose error log is not empty: the errors
    do not tell this fallback from one due to malformation after a
    prefix. *)
Theorem error_reported_without_version_prefix :
  let inp := L "xms/1" ++ [DQUOTE] in
  let doc := parseDoc inp (withDefaults (setDefer noOptions false)) in
  isProbablyXMS inp = false
  /\ (forall ds rest, inp <> L "xms/" ++ ds ++ SEMI :: rest)
  /\ parse (JString inp) noOptions = Ok doc
  /\ isFallback doc = true
  /\ version doc = 0%N
  /\ entries doc = [mkEntry (L "xms/1" ++ [DQUOTE]) (Some [])]
  /\ errors doc = [L "Unterminated quote; fallback."].
Proof.
  cbv zeta. split; [reflexivity|]. split; [|repeat split].
  intros ds rest H.
  assert (Hin : In SEMI (L "xms/1" ++ [DQUOTE])).
  { rewrite H. apply in_or_app. right. apply in_or_app. right. now left. }
  simpl in Hin. repeat (destruct Hin as [Hin | Hin]; [discriminate|]).
  exact Hin.
Qed.

Lemma isProbablyXMS_shape (inp : str) :
  isProbablyXMS inp = true ->
  exists ds rest,
    inp = L "xms/" ++ ds ++ SEMI :: rest
    /\ matchVersion inp = Some (ds, SEMI :: rest).
Proof.
  unfold isProbablyXMS.
  destruct (matchVersion inp) as [[ds [|c rest]]|] eqn:Hm; try discriminate.
  intros Hc. apply Ascii.eqb_eq in Hc. subst c.
  destruct (matchVersion_shape inp ds (SEMI :: rest) Hm) as (Hinp & _).
  eauto.
Qed.

(** The [;] that closes the version prefix is skipped as an empty token. *)
Lemma parseXMSCore_leading_semi (o : XMSParseOptions) (rest : str)
    (st : InternalState) :
  parseXMSCore o (SEMI :: rest) st = parseXMSCore o rest st.
Proof.
  rewrite (parseXMSCore_unfold o (SEMI :: rest)).
  rewrite (parseXMSCore_unfold o rest).
  reflexivity.
Qed.

(** On an input that starts with [xms/N;] and whose body the strict
    tokenizer accepts, [parse] gives the strict entries of what follows the
    prefix, with [version = N] and no fallback. *)
Lemma parseDoc_proper_prefix (inp : str) (o : XMSParseOptions)
    (st : InternalState) (es : list XMSRawEntry) :
  isProbablyXMS inp = true ->
  exists ds rest,
    inp = L "xms/" ++ ds ++ SEMI :: rest
    /\ (parseXMSCore o rest state0 = (st, Ok es) ->
        version (parseDoc inp o) = parseDigits ds
        /\ isFallback (parseDoc inp o) = false
        /\ entries (parseDoc inp o) = map (limited o) es).
Proof.
  intros Hp. destruct (isProbablyXMS_shape inp Hp) as (ds & rest & Hinp & Hm).
  exists ds, rest. split; [assumption|]. intros Hcore.
  rewrite <- parseXMSCore_leading_semi in Hcore.
  destruct (parseDoc_strict_ok inp o ds (SEMI :: rest) st es Hm Hcore)
    as (Hv & Hf & He & _).
  auto.
Qed.

(** C2 fails on the code.  [parse] looks for [/^xms\/(\d+)/], without the
    [;] that [isProbablyXMS] and [toXMS] require: the input [xms/1a=b] has
    no prefix of the shape [xms/ digits ;], yet it is tokenized strictly,
    with [version = 1] and no fallback. *)
Theorem parse_takes_prefix_without_semicolon :
  let inp := L "xms/1a=b" in
  isProbablyXMS inp = false
  /\ matchVersion inp = Some (L "1", L "a=b")
  /\ exists doc,
       parse (JString inp) noOptions = Ok doc
       /\ version doc = 1%N
       /\ isFallback doc = false
       /\ entries doc = [mkEntry (L "a") (Some (L "b"))]
       /\ errors doc = [].
Proof.
  repeat split. eexists. repeat split.
Qed.

(** C5 fails on the code.  [toXMS] writes an empty-string value as [key=],
    which both tokenizers read back as [null]: the well-formed strict input
    [xms/1;quoted=""] parses to the binding of [quoted] to the empty
    string, and the parse of its serialization binds [quoted] to [null]. *)
Theorem empty_string_value_lost_in_round_trip :
  let o := withDefaults noOptions in
  let doc := parseDoc (L "xms/1;quoted=" ++ [DQUOTE; DQUOTE]) o in
  let doc' := parseDoc (toXMS doc) o in
  entries doc = [mkEntry (L "quoted") (Some [])]
  /\ data doc = [(L "quoted", VStr [])]
  /\ warnings doc = [] /\ errors doc = [] /\ isFallback doc = false
  /\ toXMS doc = L "xms/1;quoted="
  /\ entries doc' = [mkEntry (L "quoted") None]
  /\ data doc' = [(L "quoted", VNull)]
  /\ isFallback doc' = false.
Proof.
  repeat split.
Qed.

(** ** Invariants of documents *)

Lemma parseDoc_fallback_version (inp : str) (o : XMSParseOptions) :
  isFallback (parseDoc inp o) = true -> version (parseDoc inp o) = 0%N.
Proof.
  destruct (matchVersion inp) as [[ds body]|] eqn:Hm.
  - destruct (parseXMSCore o body state0) as [st [es|m]] eqn:Hp.
    + destruct (parseDoc_strict_ok inp o ds body st es Hm Hp)
        as (_ & Hf & _). congruence.
    + destruct (parseDoc_strict_throw inp o ds body st m Hm Hp)
        as (Hv & _). auto.
  - destruct (parseDoc_no_prefix inp o Hm) as (Hv & _). auto.
Qed.

Lemma newXMSDoc_fallback_version (inp : JsInput) (options : XMSParseOptions)
    (doc : XMSDoc) :
  newXMSDoc inp options = Ok doc ->
  isFallback doc = true -> version doc = 0%N.
Proof.
  unfold newXMSDoc. destruct inp as [s|]; [|discriminate].
  destruct (defer options ?? false); intros H; inversion H; subst.
  - reflexivity.
  - apply parseDoc_fallback_version.
Qed.

Lemma safeParse_fallback_version (inp : JsInput) (options : XMSParseOptions) :
  isFallback (safeParse inp options) = true ->
  version (safeParse inp options) = 0%N.
Proof.
  unfold safeParse.
  destruct (newXMSDoc inp options) as [doc|msg] eqn:Hn; [|reflexivity].
  now apply (newXMSDoc_fallback_version inp options).
Qed.

(** What [from] stores in [isFallback] and [version] when it does not
    tokenize. *)
Lemma from_copies_flags (numberToString : str -> str) (c : Construction)
    (doc : XMSDoc) (f : bool) (v : N) :
  construct numberToString c = Ok doc ->
  suppliedFlags c = Some (f, v) ->
  isFallback doc = f /\ version doc = v.
Proof.
  destruct c as [inp o|inp o|[s|p|es|n|] fo]; simpl; try discriminate.
  - intros H Hs. inversion H; inversion Hs; subst. simpl.
    destruct (fo_isFallback fo), (fo_version fo); auto.
  - destruct (ingest _ _ _ _) as [[es' d'] ws'].
    intros H Hs. inversion H; inversion Hs; subst. auto.
  - destruct (ingest _ _ _ _) as [[es' d'] ws'].
    intros H Hs. inversion H; inversion Hs; subst. auto.
Qed.

(** C6 (as amended).  For every document produced by [parse], [safeParse]
    or [from] over a string, [isFallback] implies [version = 0].  The
    [from] constructors over a document-like structure, an entry log or a
    value tree store the flags the caller supplies, so for them the
    implication holds when the supplied pair satisfies it. *)
Theorem isFallback_implies_version_zero
    (numberToString : str -> str) (c : Construction) (doc : XMSDoc)
    (Hdoc : construct numberToString c = Ok doc)
    (Hflags : forall f v, suppliedFlags c = Some (f, v) ->
                          f = true -> v = 0%N)
    (Hfb : isFallback doc = true) :
  version doc = 0%N.
Proof.
  destruct (suppliedFlags c) as [[f v]|] eqn:Hs.
  - destruct (from_copies_flags numberToString c doc f v Hdoc Hs) as [Hf Hv].
    rewrite Hv. apply (Hflags f v eq_refl). congruence.
  - destruct c as [inp o|inp o|[s|p|es|n|] fo]; simpl in Hdoc, Hs;
      try discriminate.
    + now apply (newXMSDoc_fallback_version inp (setDefer o false)).
    + inversion Hdoc; subst. now apply safeParse_fallback_version.
    + now apply (newXMSDoc_fallback_version (JString s)
                   (setDefer (fo_parse fo) false)).
Qed.

Lemma isFallback_implies_version_zero_witness :
  version (parseDoc (L "user=steve") (withDefaults (setDefer noOptions false)))
  = 0%N.
Proof.
  apply (isFallback_implies_version_zero (fun s => s)
           (ViaParse (JString (L "user=steve")) noOptions)
           (parseDoc (L "user=steve") (withDefaults (setDefer noOptions false)))
           eq_refl).
  - intros f v H. discriminate H.
  - reflexivity.
Defined.

(** C6 (as stated) fails for the [from] constructors: over an entry log
    with the option [isFallback: true] and no [version], the document has
    [isFallback = true] and [version = 1]. *)
Lemma from_entries_fallback_with_version_one :
  exists doc,
    construct (fun s => s)
      (ViaFrom (SrcEntries [mkEntry (L "a") (Some (L "b"))])
               (mkFromOptions noOptions None (Some true) None None))
    = Ok doc
    /\ isFallback doc = true
    /\ version doc = 1%N
    /\ version doc <> 0%N.
Proof.
  eexists. repeat split. discriminate.
Qed.

(** ** Names in the entry log *)

Lemma lowerChar_facts (c : ascii) :
  lowerChar (lowerChar c) = lowerChar c /\ isSpace (lowerChar c) = isSpace c.
Proof.
  destruct c as [[] [] [] [] [] [] [] []]; vm_compute; auto.
Qed.

Lemma toLowerCase_idem (s : str) : toLowerCase (toLowerCase s) = toLowerCase s.
Proof.
  unfold toLowerCase. rewrite map_map. apply map_ext.
  intros c. apply lowerChar_facts.
Qed.

Lemma trimStart_lower (s : str) :
  trimStart (toLowerCase s) = toLowerCase (trimStart s).
Proof.
  induction s as [|c s IH]; simpl; [reflexivity|].
  destruct (lowerChar_facts c) as [_ ->].
  destruct (isSpace c); [exact IH | reflexivity].
Qed.

Lemma trim_lower (s : str) : trim (toLowerCase s) = toLowerCase (trim s).
Proof.
  unfold trim, trimEnd. rewrite trimStart_lower.
  unfold toLowerCase at 1. rewrite <- map_rev.
  fold (toLowerCase (rev (trimStart s))). rewrite trimStart_lower.
  unfold toLowerCase. now rewrite map_rev.
Qed.

Lemma trimStart_shape (s : str) :
  trimStart s = []
  \/ exists x t, trimStart s = x :: t /\ isSpace x = false.
Proof.
  induction s as [|c s IH]; simpl; [auto|].
  destruct (isSpace c) eqn:Hc; [exact IH | right; eauto].
Qed.

Lemma trimEnd_idem (s : str) : trimEnd (trimEnd s) = trimEnd s.
Proof.
  unfold trimEnd. now rewrite rev_involutive, trimStart_idem.
Qed.

Lemma trim_idem (s : str) : trim (trim s) = trim s.
Proof.
  assert (Hshape : trim s = []
                   \/ exists x t, trim s = x :: trimEnd t /\ isSpace x = false).
  { unfold trim.
    destruct (trimStart_shape s) as [-> | (x & t & -> & Hx)]; [now left|].
    right. exists x, t. now rewrite trimEnd_cons_nonspace. }
  destruct Hshape as [-> | (x & t & -> & Hx)]; [reflexivity|].
  rewrite trim_cons_nonspace by assumption.
  now rewrite trimEnd_idem.
Qed.

Lemma normalized_lower_trim (x : str) : normalized (toLowerCase (trim x)).
Proof.
  split; [apply toLowerCase_idem|].
  now rewrite trim_lower, trim_idem.
Qed.

Lemma strictToken_name (o : XMSParseOptions) (x : str) (st st' : InternalState)
    (e : XMSRawEntry) :
  strictToken o (trim x) st = (st', Ok (Some e)) -> normalized (name e).
Proof.
  unfold strictToken.
  assert (Hcheck : forall key0 fv,
    (exists y, key0 = trim y) ->
    (if negb (KEY_PATTERN (toLowerCase key0))
     then if negb (keepInvalidKeys o ?? true)
          then (st, Ok None)
          else (pushWarning st (msgInvalidKeyAccepted key0),
                Ok (Some (mkEntry (toLowerCase key0) fv)))
     else (st, Ok (Some (mkEntry (toLowerCase key0) fv))))
    = (st', Ok (Some e)) ->
    normalized (name e)).
  { intros key0 fv (y & ->) H.
    key_check_cases;
      inversion H; subst; apply normalized_lower_trim. }
  destruct (findEq false false (trim x)) as [[l r]|].
  - assert (Hl : exists y, trim l = trim y) by eauto.
    destruct (isEmpty (trim r)); [now apply Hcheck|].
    destruct (startsWith [DQUOTE] (trim r)); [|now apply Hcheck].
    destruct ((length (trim r) <? 2) || negb (endsWithChar DQUOTE (trim r)));
      [discriminate|].
    destruct (unescape false (sliceInner (trim r))) as [outStr [|]];
      [discriminate | now apply Hcheck].
  - apply Hcheck. eauto.
Qed.

Lemma parseXMSLoop_names (o : XMSParseOptions) (fuel : nat) :
  forall body st st' es,
    parseXMSLoop fuel o body st = (st', Ok es) ->
    Forall (fun e => normalized (name e)) es.
Proof.
  induction fuel as [|fuel IH]; intros body st st' es H.
  - inversion H; subst. constructor.
  - cbn [parseXMSLoop] in H. unfold parseXMSIteration in H.
    destruct (skipSemis body) as [|c r]; [inversion H; constructor|].
    destruct (scanToken false false (c :: r)) as [[tok rest] q].
    destruct q; [discriminate|].
    destruct (isEmpty (trim tok)); [now apply (IH _ _ _ _ H)|].
    destruct (strictToken o (trim tok) st) as [st1 [[e|]|m]] eqn:Htok;
      [| now apply (IH _ _ _ _ H) | discriminate].
    destruct (parseXMSLoop fuel o (skipOneSemi rest) st1)
      as [st2 [out|m]] eqn:Hrec; [|discriminate].
    inversion H; subst. constructor.
    + now apply (strictToken_name o tok st st1).
    + now apply (IH _ _ _ _ Hrec).
Qed.

Lemma legacyToken_name (o : XMSParseOptions) (text : str)
    (st : InternalState) (e : XMSRawEntry) :
  snd (legacyToken o text st) = Some e -> normalized (name e).
Proof.
  unfold legacyToken.
  destruct (isEmpty (trim text)); [discriminate|].
  destruct (splitFirst EQUALS (trim text)) as [[l r]|];
    key_check_cases;
    simpl; intros H; inversion H; subst; apply normalized_lower_trim.
Qed.

Lemma legacyLoop_names (o : XMSParseOptions) (toks : list str) :
  forall st, Forall (fun e => normalized (name e)) (snd (legacyLoop o toks st)).
Proof.
  induction toks as [|tk toks IH]; intros st; [constructor|].
  cbn [legacyLoop].
  pose proof (legacyToken_name o tk st) as Hn.
  destruct (legacyToken o tk st) as [st' [e|]]; [|apply IH].
  specialize (IH st'). destruct (legacyLoop o toks st') as [st'' out].
  simpl in *. constructor; auto.
Qed.

Lemma limited_names (o : XMSParseOptions) (es : list XMSRawEntry) :
  Forall (fun e => normalized (name e)) es ->
  Forall (fun e => normalized (name e)) (map (limited o) es).
Proof.
  intros H. apply Forall_map. eapply Forall_impl; [|exact H].
  intros e He. now rewrite limited_name.
Qed.

Lemma parseDoc_wellFormed (inp : str) (o : XMSParseOptions) :
  wellFormedDoc (parseDoc inp o).
Proof.
  split; [apply parseDoc_fallback_version|].
  destruct (matchVersion inp) as [[ds body]|] eqn:Hm.
  - destruct (parseXMSCore o body state0) as [st [es|m]] eqn:Hp.
    + destruct (parseDoc_strict_ok inp o ds body st es Hm Hp)
        as (_ & _ & -> & _).
      apply limited_names. now apply (parseXMSLoop_names o _ _ _ _ _ Hp).
    + destruct (parseDoc_strict_throw inp o ds body st m Hm Hp)
        as (_ & _ & -> & _).
      destruct (reparseOnFallback o ?? true); [|constructor].
      apply limited_names, legacyLoop_names.
  - destruct (parseDoc_no_prefix inp o Hm) as (_ & _ & -> & _).
    apply limited_names, legacyLoop_names.
Qed.

(** C9.  [safeParse] is total: for a string and for a value that is not a
    string it returns a document, which satisfies the document invariants.
    When the constructor throws, as it does on an input that is not a
    string, the document returned is the degraded one, with
    [isFallback = true], [version = 0], no entries, and the failure
    described in its error log; otherwise it is the document the
    constructor built. *)
Theorem safeParse_always_returns_document
    (inp : JsInput) (options : XMSParseOptions) :
  let doc := safeParse inp options in
  wellFormedDoc doc
  /\ (forall d, newXMSDoc inp options = Ok d -> doc = d)
  /\ (forall msg, newXMSDoc inp options = Throw msg ->
        isFallback doc = true /\ version doc = 0%N /\ entries doc = []
        /\ errors doc = [L "Unexpected parser failure: " ++ msg])
  /\ (forall s, inp = JString s -> exists d, newXMSDoc inp options = Ok d)
  /\ (inp = JNotString ->
        parse inp options = Throw (L "Input must be a string.")
        /\ isFallback doc = true
        /\ errors doc
           = [L "Unexpected parser failure: Input must be a string."]).
Proof.
  cbv zeta. repeat split.
  - apply safeParse_fallback_version.
  - unfold safeParse, newXMSDoc. destruct inp as [s|]; [|constructor].
    destruct (defer options ?? false); [constructor|].
    apply parseDoc_wellFormed.
  - intros d H. unfold safeParse. now rewrite H.
  - unfold safeParse. now rewrite H.
  - unfold safeParse. now rewrite H.
  - unfold safeParse. now rewrite H.
  - unfold safeParse. now rewrite H.
  - intros s ->. unfold newXMSDoc.
    destruct (defer options ?? false); eexists; reflexivity.
  - now subst inp.
  - now subst inp.
  - now subst inp.
Qed.

(** ** Serializing and tokenizing again *)

Lemma keyChar_facts (c : ascii) :
  isKeyChar c = true ->
  lowerChar c = c /\ isSpace c = false /\ plainChar c = true.
Proof.
  destruct c as [[] [] [] [] [] [] [] []]; intros H; vm_compute in H;
    try discriminate; vm_compute; auto.
Qed.

Lemma plainChar_spec (c : ascii) :
  plainChar c = true ->
  Ascii.eqb c BACKSLASH = false /\ Ascii.eqb c DQUOTE = false
  /\ Ascii.eqb c SEMI = false /\ Ascii.eqb c EQUALS = false.
Proof.
  unfold plainChar. intros H. apply negb_true_iff in H.
  repeat (apply orb_false_iff in H as [H ?]). auto.
Qed.

Lemma plain_scanPlain (s : str) :
  forallb plainChar s = true -> forallb scanPlain s = true.
Proof.
  apply forallb_impl. intros c Hc.
  destruct (plainChar_spec c Hc) as (Hb & Hq & Hs & _).
  unfold scanPlain. now rewrite Hb, Hq, Hs.
Qed.

Lemma scanToken_plain_prefix (p x : str) :
  forallb scanPlain p = true ->
  scanToken false false (p ++ x)
  = let '(t, r, q) := scanToken false false x in (p ++ t, r, q).
Proof.
  induction p as [|c p IH]; intros Hp; simpl.
  - now destruct (scanToken false false x) as [[t r] q].
  - simpl in Hp. apply andb_true_iff in Hp as [Hc Hp].
    unfold scanPlain in Hc. apply negb_true_iff in Hc.
    apply orb_false_iff in Hc as [Hc Hs].
    apply orb_false_iff in Hc as [Hb Hq].
    rewrite Hb, Hq, Hs. simpl.
    rewrite IH by assumption.
    now destruct (scanToken false false x) as [[t r] q].
Qed.

Lemma scanToken_at_end (rest : str) :
  rest = [] \/ (exists r, rest = SEMI :: r) ->
  scanToken false false rest = ([], rest, false).
Proof. intros [-> | (r & ->)]; reflexivity. Qed.

Lemma scanToken_quoted (v rest : str) :
  rest = [] \/ (exists r, rest = SEMI :: r) ->
  scanToken true false (escapeValue v ++ DQUOTE :: rest)
  = (escapeValue v ++ [DQUOTE], rest, false).
Proof.
  intros Hrest. induction v as [|c v IH].
  - simpl. change (Ascii.eqb DQUOTE BACKSLASH) with false.
    change (Ascii.eqb DQUOTE DQUOTE) with true. cbv iota.
    now rewrite (scanToken_at_end rest Hrest).
  - cbn [escapeValue].
    destruct (Ascii.eqb c DQUOTE) eqn:Hq; [|destruct (Ascii.eqb c BACKSLASH) eqn:Hb].
    + cbn [orb app scanToken].
      change (Ascii.eqb BACKSLASH BACKSLASH) with true. cbv iota.
      rewrite IH. reflexivity.
    + cbn [orb app scanToken].
      change (Ascii.eqb BACKSLASH BACKSLASH) with true. cbv iota.
      rewrite IH. reflexivity.
    + cbn [orb app scanToken]. rewrite Hb, Hq.
      rewrite andb_false_r. rewrite IH. reflexivity.
Qed.

Lemma findEq_plain_prefix (k x : str) :
  forallb plainChar k = true ->
  findEq false false (k ++ EQUALS :: x) = Some (k, x).
Proof.
  induction k as [|c k IH]; intros Hk; simpl; [reflexivity|].
  simpl in Hk. apply andb_true_iff in Hk as [Hc Hk].
  destruct (plainChar_spec c Hc) as (-> & -> & _ & ->). simpl.
  now rewrite IH.
Qed.

Lemma findEq_plain (k : str) :
  forallb plainChar k = true -> findEq false false k = None.
Proof.
  intros Hk. apply findEq_no_eq. unfold hasEq.
  destruct (existsb _ k) eqn:Hex; [|reflexivity].
  apply existsb_exists in Hex as (c & Hin & Hc).
  rewrite forallb_forall in Hk.
  destruct (plainChar_spec c (Hk c Hin)) as (_ & _ & _ & Hne). congruence.
Qed.

Lemma unescape_escapeValue (v : str) : unescape false (escapeValue v) = (v, false).
Proof.
  induction v as [|c v IH]; [reflexivity|].
  cbn [escapeValue].
  destruct (Ascii.eqb c DQUOTE) eqn:Hq; [|destruct (Ascii.eqb c BACKSLASH) eqn:Hb];
    cbn [orb unescape].
  - change (Ascii.eqb BACKSLASH BACKSLASH) with true. cbv iota.
    now rewrite IH.
  - change (Ascii.eqb BACKSLASH BACKSLASH) with true. cbv iota.
    now rewrite IH.
  - rewrite Hb. now rewrite IH.
Qed.

Lemma trim_no_space (s : str) :
  forallb (fun c => negb (isSpace c)) s = true -> trim s = s.
Proof.
  intros H. unfold trim.
  assert (Hs : trimStart s = s).
  { destruct s as [|c s]; [reflexivity|]. simpl in *.
    apply andb_true_iff in H as [Hc _]. apply negb_true_iff in Hc.
    now rewrite Hc. }
  rewrite Hs. now apply trimEnd_no_space.
Qed.

Lemma trim_quoted (x : str) :
  trim (DQUOTE :: x ++ [DQUOTE]) = DQUOTE :: x ++ [DQUOTE].
Proof.
  rewrite trim_cons_nonspace by reflexivity. f_equal.
  now apply trimEnd_app_nonspace.
Qed.

Lemma key_facts (k : str) :
  KEY_PATTERN k = true ->
  k <> [] /\ toLowerCase k = k /\ forallb plainChar k = true
  /\ forallb (fun c => negb (isSpace c)) k = true.
Proof.
  unfold KEY_PATTERN. destruct k as [|c k]; [discriminate|].
  intros H. split; [discriminate|].
  set (s := c :: k) in *. clearbody s. clear c k.
  rewrite forallb_forall in H. repeat split.
  - unfold toLowerCase. rewrite <- (map_id s) at 2. apply map_ext_in.
    intros c Hin. now destruct (keyChar_facts c (H c Hin)) as (-> & _).
  - apply forallb_forall. intros c Hin.
    now destruct (keyChar_facts c (H c Hin)) as (_ & _ & ->).
  - apply forallb_forall. intros c Hin.
    now destruct (keyChar_facts c (H c Hin)) as (_ & -> & _).
Qed.

Lemma needsQuotes_false (v : str) :
  needsQuotes v = false ->
  forallb plainChar v = true /\ forallb (fun c => negb (isSpace c)) v = true.
Proof.
  unfold needsQuotes. induction v as [|c v IH]; [auto|].
  simpl. intros H. apply orb_false_iff in H as [Hc Hv].
  destruct (IH Hv) as [-> ->].
  apply orb_false_iff in Hc as [Hc Hbs].
  apply orb_false_iff in Hc as [Hc Hdq].
  apply orb_false_iff in Hc as [Hc Heq].
  apply orb_false_iff in Hc as [Hsp Hsemi].
  unfold plainChar. rewrite Hbs, Hdq, Heq, Hsemi, Hsp. auto.
Qed.

Lemma xmsToken_scans (e : XMSRawEntry) (rest : str) :
  roundTrippable e ->
  rest = [] \/ (exists r, rest = SEMI :: r) ->
  scanToken false false (xmsToken e ++ rest) = (xmsToken e, rest, false).
Proof.
  intros [Hkey Hval] Hrest.
  destruct (key_facts (name e) Hkey) as (_ & _ & Hplain & _).
  pose proof (plain_scanPlain _ Hplain) as Hk.
  assert (Hdone : forall p, forallb scanPlain p = true ->
            scanToken false false (p ++ rest) = (p, rest, false)).
  { intros p Hp. rewrite scanToken_plain_prefix by assumption.
    rewrite (scanToken_at_end rest Hrest). now rewrite app_nil_r. }
  unfold xmsToken. destruct (value e) as [[|c v]|]; [congruence| |now apply Hdone].
  destruct (needsQuotes (c :: v)) eqn:Hnq.
  - rewrite <- !app_assoc.
    rewrite (app_assoc (name e) [EQUALS]).
    rewrite scanToken_plain_prefix
      by (rewrite forallb_app, Hk; reflexivity).
    change ([DQUOTE] ++ escapeValue (c :: v) ++ [DQUOTE] ++ rest)
      with (DQUOTE :: escapeValue (c :: v) ++ DQUOTE :: rest).
    cbn [scanToken].
    change (Ascii.eqb DQUOTE BACKSLASH) with false.
    change (Ascii.eqb DQUOTE DQUOTE) with true. cbv iota. cbn [negb].
    rewrite (scanToken_quoted (c :: v) rest Hrest).
    cbn [consTok]. now rewrite <- !app_assoc.
  - destruct (needsQuotes_false _ Hnq) as [Hv _].
    apply Hdone. rewrite !forallb_app, Hk.
    now rewrite (plain_scanPlain _ Hv).
Qed.

Lemma xmsToken_trimmed (e : XMSRawEntry) :
  roundTrippable e ->
  trim (xmsToken e) = xmsToken e
  /\ exists c t, xmsToken e = c :: t /\ Ascii.eqb c SEMI = false.
Proof.
  intros [Hkey Hval].
  destruct (key_facts (name e) Hkey) as (Hne & _ & Hplain & Hns).
  split.
  - unfold xmsToken. destruct (value e) as [[|c v]|];
      [congruence| |now apply trim_no_space].
    destruct (needsQuotes (c :: v)) eqn:Hnq.
    + destruct (name e) as [|k0 k]; [congruence|].
      simpl in Hns. apply andb_true_iff in Hns as [Hk0 _].
      apply negb_true_iff in Hk0.
      change ((k0 :: k) ++ [EQUALS] ++ [DQUOTE] ++ escapeValue (c :: v)
              ++ [DQUOTE])
        with (k0 :: k ++ [EQUALS] ++ [DQUOTE] ++ escapeValue (c :: v)
              ++ [DQUOTE]).
      rewrite trim_cons_nonspace by assumption. f_equal.
      rewrite !app_assoc. now apply trimEnd_app_nonspace.
    + destruct (needsQuotes_false _ Hnq) as [_ Hv].
      apply trim_no_space. now rewrite !forallb_app, Hns, Hv.
  - destruct (name e) as [|k0 k] eqn:Hn; [congruence|].
    simpl in Hplain. apply andb_true_iff in Hplain as [Hk0 _].
    destruct (plainChar_spec k0 Hk0) as (_ & _ & Hsemi & _).
    unfold xmsToken. rewrite Hn.
    destruct (value e) as [[|c v]|]; [congruence| |eauto].
    destruct (needsQuotes (c :: v)); simpl; eauto.
Qed.

Lemma xmsToken_tokenizes (o : XMSParseOptions) (e : XMSRawEntry)
    (st : InternalState) :
  roundTrippable e ->
  strictToken o (xmsToken e) st = (st, Ok (Some e)).
Proof.
  intros [Hkey Hval].
  destruct (key_facts (name e) Hkey) as (Hne & Hlow & Hplain & Hns).
  assert (Hcheck : forall fv, value e = fv ->
    (if negb (KEY_PATTERN (toLowerCase (name e)))
     then if negb (keepInvalidKeys o ?? true)
          then (st, Ok None)
          else (pushWarning st (msgInvalidKeyAccepted (name e)),
                Ok (Some (mkEntry (toLowerCase (name e)) fv)))
     else (st, Ok (Some (mkEntry (toLowerCase (name e)) fv))))
    = (st, Ok (Some e))).
  { intros fv <-. rewrite Hlow, Hkey. cbn [negb]. now rewrite entry_eta. }
  unfold strictToken, xmsToken.
  destruct (value e) as [[|c v]|] eqn:Hv; [congruence| |].
  - destruct (needsQuotes (c :: v)) eqn:Hnq.
    + change (name e ++ [EQUALS] ++ [DQUOTE] ++ escapeValue (c :: v)
              ++ [DQUOTE])
        with (name e ++ EQUALS :: DQUOTE :: escapeValue (c :: v) ++ [DQUOTE]).
      rewrite findEq_plain_prefix by assumption.
      rewrite (trim_no_space (name e) Hns).
      rewrite trim_quoted. cbn [isEmpty startsWith].
      change (Ascii.eqb DQUOTE DQUOTE) with true. cbn [andb].
      assert (Hlen : (length (DQUOTE :: escapeValue (c :: v) ++ [DQUOTE]) <? 2)
                     = false).
      { apply Nat.ltb_ge. simpl. rewrite length_app. simpl. lia. }
      assert (Hend : endsWithChar DQUOTE
                       (DQUOTE :: escapeValue (c :: v) ++ [DQUOTE]) = true).
      { unfold endsWithChar. simpl rev. rewrite rev_app_distr. reflexivity. }
      rewrite Hlen, Hend. cbn [orb negb].
      assert (Hinner : sliceInner (DQUOTE :: escapeValue (c :: v) ++ [DQUOTE])
                       = escapeValue (c :: v)).
      { unfold sliceInner. cbn [tl]. apply removelast_last. }
      rewrite Hinner, unescape_escapeValue. now apply Hcheck.
    + destruct (needsQuotes_false _ Hnq) as [Hpv Hsv].
      change (name e ++ [EQUALS] ++ c :: v) with (name e ++ EQUALS :: c :: v).
      rewrite findEq_plain_prefix by assumption.
      rewrite (trim_no_space (name e) Hns), (trim_no_space (c :: v) Hsv).
      cbn [isEmpty startsWith].
      simpl in Hpv. apply andb_true_iff in Hpv as [Hc _].
      destruct (plainChar_spec c Hc) as (_ & Hq & _).
      rewrite Ascii.eqb_sym, Hq. cbn [andb]. now apply Hcheck.
  - rewrite findEq_plain by assumption. now apply Hcheck.
Qed.

Lemma xmsTokens_valid (es : list XMSRawEntry) :
  Forall roundTrippable es -> xmsTokens es = map xmsToken es.
Proof.
  induction 1 as [|e es [Hkey Hval] _ IH]; [reflexivity|].
  cbn [xmsTokens map]. rewrite Hkey. cbn [negb]. rewrite IH.
  unfold xmsToken. destruct (value e) as [[|c v]|]; try reflexivity.
  destruct (needsQuotes (c :: v)); reflexivity.
Qed.

Lemma joinSemi_cons (t : str) (toks : list str) :
  exists rest,
    joinSemi (t :: toks) = t ++ rest
    /\ (rest = [] \/ exists r, rest = SEMI :: r)
    /\ skipOneSemi rest = joinSemi toks.
Proof.
  destruct toks as [|t2 toks].
  - exists []. simpl. rewrite app_nil_r. auto.
  - exists (SEMI :: joinSemi (t2 :: toks)). repeat split; eauto.
Qed.

Lemma parseXMSIteration_entry next (o : XMSParseOptions) (body tok rest : str)
    (st st' : InternalState) (e : XMSRawEntry) :
  skipSemis body = body -> body <> [] ->
  scanToken false false body = (tok, rest, false) ->
  isEmpty (trim tok) = false ->
  strictToken o (trim tok) st = (st', Ok (Some e)) ->
  parseXMSIteration next o body st
  = match next (skipOneSemi rest) st' with
    | (st'', Ok out) => (st'', Ok (e :: out))
    | (st'', Throw m) => (st'', Throw m)
    end.
Proof.
  intros Hskip Hne Hscan Hempty Htok. unfold parseXMSIteration.
  rewrite Hskip. destruct body as [|c body]; [congruence|].
  now rewrite Hscan, Hempty, Htok.
Qed.

(** The strict tokenizer reads back the entries that [toXMS] wrote. *)
Lemma parseXMSCore_reads_tokens (o : XMSParseOptions)
    (es : list XMSRawEntry) (st : InternalState) :
  Forall roundTrippable es ->
  parseXMSCore o (joinSemi (xmsTokens es)) st = (st, Ok es).
Proof.
  intros Hes. rewrite (xmsTokens_valid es Hes).
  induction Hes as [|e es He Hes IH]; [reflexivity|].
  cbn [map].
  destruct (joinSemi_cons (xmsToken e) (map xmsToken es))
    as (rest & -> & Hrest & Hnext).
  destruct (xmsToken_trimmed e He) as (Htrim & c & t & Htok & Hc).
  rewrite parseXMSCore_unfold.
  rewrite (parseXMSIteration_entry (parseXMSCore o) o (xmsToken e ++ rest)
             (xmsToken e) rest st st e).
  - now rewrite Hnext, IH.
  - rewrite Htok. simpl. now rewrite Hc.
  - rewrite Htok. discriminate.
  - now apply xmsToken_scans.
  - rewrite Htrim, Htok. reflexivity.
  - rewrite Htrim. now apply xmsToken_tokenizes.
Qed.

(** ** Printing and reading the version *)

Lemma digits_of_uint (d : Decimal.uint) (acc : N) :
  fold_left (fun a c => (a * 10 + N.of_nat (nat_of_ascii c - 48))%N)
            (L (NilEmpty.string_of_uint d)) acc
  = uintValue acc d
  /\ forallb isDigit (L (NilEmpty.string_of_uint d)) = true.
Proof.
  split.
  - revert acc. induction d; intros acc; [reflexivity| ..]; apply IHd.
  - induction d; [reflexivity| ..]; exact IHd.
Qed.

Lemma uintValue_revapp (d a : Decimal.uint) :
  uintValue (DecimalPos.Unsigned.of_lu a) d
  = DecimalPos.Unsigned.of_lu (Decimal.revapp d a).
Proof.
  revert a. induction d; intros a; simpl; [reflexivity| ..];
    rewrite <- IHd; f_equal; cbn [DecimalPos.Unsigned.of_lu]; lia.
Qed.

Lemma showN_spec (n : N) :
  parseDigits (showN n) = n
  /\ forallb isDigit (showN n) = true
  /\ showN n <> [].
Proof.
  unfold showN, parseDigits, NilZero.string_of_uint.
  pose proof (DecimalN.Unsigned.of_to n) as Hn.
  unfold N.of_uint in Hn. rewrite DecimalPos.Unsigned.of_uint_alt in Hn.
  unfold Decimal.rev in Hn. rewrite <- uintValue_revapp in Hn.
  simpl DecimalPos.Unsigned.of_lu in Hn.
  destruct (N.to_uint n) eqn:Hd;
    try (destruct (digits_of_uint (N.to_uint n) 0%N) as [H1 H2];
         rewrite Hd in H1, H2; repeat split;
         [rewrite H1; exact Hn | exact H2 | discriminate]).
  repeat split; [simpl in *; congruence | discriminate].
Qed.

Lemma span_digits (ds rest : str) :
  forallb isDigit ds = true ->
  span isDigit (ds ++ SEMI :: rest) = (ds, SEMI :: rest).
Proof.
  induction ds as [|c ds IH]; intros H; simpl; [reflexivity|].
  simpl in H. apply andb_true_iff in H as [Hc Hds].
  now rewrite Hc, IH.
Qed.

Lemma matchVersion_prefix (ds rest : str) :
  forallb isDigit ds = true -> ds <> [] ->
  matchVersion (L "xms/" ++ ds ++ SEMI :: rest) = Some (ds, SEMI :: rest).
Proof.
  intros Hds Hne. unfold matchVersion.
  change (L "xms/" ++ ds ++ SEMI :: rest)
    with ("x"%char :: "m"%char :: "s"%char :: "/"%char :: ds ++ SEMI :: rest).
  cbv iota beta.
  change (str_eqb ["x"%char; "m"%char; "s"%char; "/"%char] (L "xms/")) with true.
  cbv iota. rewrite span_digits by assumption.
  destruct ds; [congruence | reflexivity].
Qed.

Lemma limited_idem (o : XMSParseOptions) (e : XMSRawEntry) :
  limited o (limited o e) = limited o e.
Proof.
  unfold limited.
  destruct (value e) as [v|] eqn:Hv; [|now rewrite Hv].
  destruct (lengthLimit (name e)) as [n|] eqn:Hn; [|now rewrite Hv, Hn].
  destruct (enforceLimits o ?? true) eqn:He; [|now rewrite Hv, Hn].
  cbn [value name]. rewrite Hn.
  now rewrite firstn_firstn, Nat.min_id.
Qed.

Lemma parseDoc_entries_limited (inp : str) (o : XMSParseOptions) :
  map (limited o) (entries (parseDoc inp o)) = entries (parseDoc inp o).
Proof.
  assert (Hidem : forall es,
            map (limited o) (map (limited o) es) = map (limited o) es).
  { intros es. rewrite map_map. apply map_ext. apply limited_idem. }
  destruct (matchVersion inp) as [[ds body]|] eqn:Hm.
  - destruct (parseXMSCore o body state0) as [st [es|m]] eqn:Hp.
    + destruct (parseDoc_strict_ok inp o ds body st es Hm Hp)
        as (_ & _ & -> & _). apply Hidem.
    + destruct (parseDoc_strict_throw inp o ds body st m Hm Hp)
        as (_ & _ & -> & _).
      destruct (reparseOnFallback o ?? true); [apply Hidem | reflexivity].
  - destruct (parseDoc_no_prefix inp o Hm) as (_ & _ & -> & _). apply Hidem.
Qed.

(** On the inputs on which the prefix test of [parse] and the one of
    [isProbablyXMS] agree, the error log is non-empty exactly when the input
    starts with a version prefix [xms/N;] and the strict tokenizer threw on
    what follows it. *)
Lemma errors_iff_when_prefix_tests_agree (inp : str) (o : XMSParseOptions) :
  matchVersion inp = None \/ isProbablyXMS inp = true ->
  (errors (parseDoc inp o) <> [] <->
     exists ds rest st m,
       inp = L "xms/" ++ ds ++ SEMI :: rest
       /\ forallb isDigit ds = true /\ ds <> []
       /\ parseXMSCore o rest state0 = (st, Throw m)).
Proof.
  intros Hagree.
  destruct (errors_iff_strict_tokenizer_failed inp o) as (Hiff & _).
  cbv zeta in Hiff. rewrite Hiff. clear Hiff. split.
  - intros (ds & body & st & m & Hm & Hthrow).
    destruct Hagree as [Hnone | Hp]; [congruence|].
    destruct (isProbablyXMS_shape inp Hp) as (ds' & rest & Hinp & Hm').
    rewrite Hm in Hm'. inversion Hm'; subst ds' body.
    destruct (matchVersion_shape inp ds (SEMI :: rest) Hm) as (_ & Hne & Hds).
    rewrite parseXMSCore_leading_semi in Hthrow.
    exists ds, rest, st, m. auto.
  - intros (ds & rest & st & m & Hinp & Hds & Hne & Hthrow).
    exists ds, (SEMI :: rest), st, m. split.
    + rewrite Hinp. now apply matchVersion_prefix.
    + now rewrite parseXMSCore_leading_semi.
Qed.

(** What [parse] reads from the serialization of a document with a
    non-zero version and round-trippable entries. *)
Lemma toXMS_reads_back
    (o : XMSParseOptions) (doc : XMSDoc) :
  version doc <> 0%N ->
  Forall roundTrippable (entries doc) ->
  version (parseDoc (toXMS doc) o) = version doc
  /\ isFallback (parseDoc (toXMS doc) o) = false
  /\ entries (parseDoc (toXMS doc) o) = map (limited o) (entries doc)
  /\ errors (parseDoc (toXMS doc) o) = [].
Proof.
  intros Hv Hes.
  assert (Hser : toXMS doc
                 = L "xms/" ++ showN (version doc)
                   ++ SEMI :: joinSemi (xmsTokens (entries doc))).
  { unfold toXMS. apply N.eqb_neq in Hv. rewrite Hv.
    destruct (xmsTokens (entries doc)); reflexivity. }
  destruct (showN_spec (version doc)) as (Hval & Hds & Hne).
  pose proof (matchVersion_prefix (showN (version doc))
                (joinSemi (xmsTokens (entries doc))) Hds Hne) as Hm.
  rewrite <- Hser in Hm.
  pose proof (parseXMSCore_reads_tokens o (entries doc) state0 Hes) as Hcore.
  rewrite <- parseXMSCore_leading_semi in Hcore.
  destruct (parseDoc_strict_ok (toXMS doc) o _ _ _ _ Hm Hcore)
    as (Hv' & Hf & He & Herr).
  rewrite Hv', Hval. auto.
Qed.

(** X1.  The round trip that does hold: a document with a non-zero version
    within the safe-integer range and entries with valid keys, none of them
    with the empty string as value and none with a segment named like a
    member of [Object.prototype], is read back from its serialization with
    the same version and the same entry log (after limit enforcement),
    without fallback and without errors. *)
Theorem toXMS_round_trip_without_empty_strings
    (o : XMSParseOptions) (doc : XMSDoc)
    (Hsafe : (version doc <=? MAX_SAFE_INTEGER)%N = true)
    (Hown : Forall (fun e => ownPath (name e) = true) (entries doc)) :
  version doc <> 0%N ->
  Forall roundTrippable (entries doc) ->
  version (parseDoc (toXMS doc) o) = version doc
  /\ isFallback (parseDoc (toXMS doc) o) = false
  /\ entries (parseDoc (toXMS doc) o) = map (limited o) (entries doc)
  /\ errors (parseDoc (toXMS doc) o) = [].
Proof. exact (toXMS_reads_back o doc). Qed.

Lemma toXMS_round_trip_without_empty_strings_witness :
  let doc := mkDoc 2%N false
               [mkEntry (L "message") (Some (L "A;B = C"));
                mkEntry (L "flag") None;
                mkEntry (L "path") (Some (L "C:" ++ [BACKSLASH] ++ L "x"))]
               [] [] [] [] noOptions in
  let o := withDefaults noOptions in
  version (parseDoc (toXMS doc) o) = 2%N
  /\ isFallback (parseDoc (toXMS doc) o) = false
  /\ entries (parseDoc (toXMS doc) o) = map (limited o) (entries doc)
  /\ errors (parseDoc (toXMS doc) o) = [].
Proof.
  apply (toXMS_round_trip_without_empty_strings (withDefaults noOptions)).
  - reflexivity.
  - repeat constructor.
  - discriminate.
  - repeat constructor; discriminate.
Defined.

(** ** Lookup after assignment *)







(** ** Entries of either tokenizer *)

Lemma parseXMSLoop_Forall (P : XMSRawEntry -> Prop) (o : XMSParseOptions)
    (HP : forall x st st' e,
        strictToken o (trim x) st = (st', Ok (Some e)) -> P e)
    (fuel : nat) :
  forall body st st' es,
    parseXMSLoop fuel o body st = (st', Ok es) -> Forall P es.
Proof.
  induction fuel as [|fuel IH]; intros body st st' es H.
  - inversion H; subst. constructor.
  - cbn [parseXMSLoop] in H. unfold parseXMSIteration in H.
    destruct (skipSemis body) as [|c r]; [inversion H; constructor|].
    destruct (scanToken false false (c :: r)) as [[tok rest] q].
    destruct q; [discriminate|].
    destruct (isEmpty (trim tok)); [now apply (IH _ _ _ _ H)|].
    destruct (strictToken o (trim tok) st) as [st1 [[e|]|m]] eqn:Htok;
      [| now apply (IH _ _ _ _ H) | discriminate].
    destruct (parseXMSLoop fuel o (skipOneSemi rest) st1)
      as [st2 [out|m]] eqn:Hrec; [|discriminate].
    inversion H; subst. constructor.
    + now apply (HP tok st st1).
    + now apply (IH _ _ _ _ Hrec).
Qed.

Lemma legacyLoop_Forall (P : XMSRawEntry -> Prop) (o : XMSParseOptions)
    (HP : forall text st e, snd (legacyToken o text st) = Some e -> P e)
    (toks : list str) :
  forall st, Forall P (snd (legacyLoop o toks st)).
Proof.
  induction toks as [|tk toks IH]; intros st; [constructor|].
  cbn [legacyLoop].
  pose proof (HP tk st) as Hn.
  destruct (legacyToken o tk st) as [st' [e|]]; [|apply IH].
  specialize (IH st'). destruct (legacyLoop o toks st') as [st'' out].
  simpl in *. constructor; auto.
Qed.

(** Whatever holds of every tokenizer entry and is kept by limit
    enforcement holds of every entry of a parsed document. *)
Lemma parseDoc_entries_Forall (P : XMSRawEntry -> Prop) (inp : str)
    (o : XMSParseOptions)
    (Hstrict : forall x st st' e,
        strictToken o (trim x) st = (st', Ok (Some e)) -> P e)
    (Hlegacy : forall text st e, snd (legacyToken o text st) = Some e -> P e)
    (Hlim : forall e, P e -> P (limited o e)) :
  Forall P (entries (parseDoc inp o)).
Proof.
  assert (Hmap : forall es, Forall P es -> Forall P (map (limited o) es)).
  { intros es H. apply Forall_map. eapply Forall_impl; [|exact H]. auto. }
  destruct (matchVersion inp) as [[ds body]|] eqn:Hm.
  - destruct (parseXMSCore o body state0) as [st [es|m]] eqn:Hp.
    + destruct (parseDoc_strict_ok inp o ds body st es Hm Hp)
        as (_ & _ & -> & _).
      apply Hmap. exact (parseXMSLoop_Forall P o Hstrict _ _ _ _ _ Hp).
    + destruct (parseDoc_strict_throw inp o ds body st m Hm Hp)
        as (_ & _ & -> & _).
      destruct (reparseOnFallback o ?? true); [|constructor].
      apply Hmap, legacyLoop_Forall, Hlegacy.
  - destruct (parseDoc_no_prefix inp o Hm) as (_ & _ & -> & _).
    apply Hmap, legacyLoop_Forall, Hlegacy.
Qed.

(** X3.  With [keepInvalidKeys] off every entry of a parsed document has a
    key that matches the key pattern, so the serializer omits none of
    them: it writes one token per entry. *)
Theorem dropping_invalid_keys_leaves_valid_keys
    (inp : str) (o : XMSParseOptions)
    (Hdrop : keepInvalidKeys o ?? true = false) :
  Forall (fun e => KEY_PATTERN (name e) = true) (entries (parseDoc inp o))
  /\ length (xmsTokens (entries (parseDoc inp o)))
     = length (entries (parseDoc inp o)).
Proof.
  assert (Hall : Forall (fun e => KEY_PATTERN (name e) = true)
                   (entries (parseDoc inp o))).
  { apply parseDoc_entries_Forall.
    - intros x st st' e. unfold strictToken. rewrite Hdrop. cbn [negb].
      destruct (findEq false false (trim x)) as [[l r]|].
      + destruct (isEmpty (trim r)).
        * destruct (KEY_PATTERN _) eqn:Hk; simpl; intros H;
            inversion H; subst; exact Hk.
        * destruct (startsWith [DQUOTE] (trim r)).
          -- destruct ((length (trim r) <? 2)
                       || negb (endsWithChar DQUOTE (trim r)));
               [discriminate|].
             destruct (unescape false (sliceInner (trim r))) as [s [|]];
               [discriminate|].
             destruct (KEY_PATTERN _) eqn:Hk; simpl; intros H;
               inversion H; subst; exact Hk.
          -- destruct (KEY_PATTERN _) eqn:Hk; simpl; intros H;
               inversion H; subst; exact Hk.
      + destruct (KEY_PATTERN _) eqn:Hk; simpl; intros H;
          inversion H; subst; exact Hk.
    - intros text st e. unfold legacyToken. rewrite Hdrop. cbn [negb].
      destruct (isEmpty (trim text)); [discriminate|].
      destruct (splitFirst EQUALS (trim text)) as [[l r]|];
        (destruct (KEY_PATTERN _) eqn:Hk; simpl; intros H;
         inversion H; subst; exact Hk).
    - intros e He. now rewrite limited_name. }
  split; [exact Hall|].
  induction Hall as [|e es He _ IH]; [reflexivity|].
  cbn [xmsTokens]. rewrite He. cbn [negb].
  destruct (value e) as [[|c v]|]; try (simpl; now rewrite IH).
  destruct (needsQuotes (c :: v)); simpl; now rewrite IH.
Qed.

Lemma dropping_invalid_keys_leaves_valid_keys_witness :
  let o := withDefaults
             (mkOptions None None None None None None (Some false) None None
                        None None None) in
  let inp := L "xms/1;Good=1;bad key=2;ok.too" in
  Forall (fun e => KEY_PATTERN (name e) = true) (entries (parseDoc inp o))
  /\ length (xmsTokens (entries (parseDoc inp o)))
     = length (entries (parseDoc inp o)).
Proof.
  exact (dropping_invalid_keys_leaves_valid_keys
           (L "xms/1;Good=1;bad key=2;ok.too")
           (withDefaults
              (mkOptions None None None None None None (Some false) None None
                         None None None))
           eq_refl).
Defined.

(** X4.  With limit enforcement on, no entry of a parsed document exceeds
    the limit of its key: a [username] value has at most 16 characters and
    a [message], [error] or [error.message] value at most 255. *)
Theorem parsed_values_within_limits
    (inp : str) (o : XMSParseOptions)
    (Hon : enforceLimits o ?? true = true) :
  Forall (fun e => forall v n,
            value e = Some v -> lengthLimit (name e) = Some n ->
            length v <= n)
         (entries (parseDoc inp o)).
Proof.
  pose proof (parseDoc_entries_limited inp o) as Hfix.
  induction (entries (parseDoc inp o)) as [|e es IH]; [constructor|].
  cbn [map] in Hfix. inversion Hfix as [[He Hes]].
  constructor; [|rewrite Hes; apply IH; exact Hes].
  rewrite He. intros v n Hv Hn.
  unfold limited in He. rewrite Hv, Hn, Hon in He.
  assert (Hcut : Some (firstn n v) = Some v).
  { rewrite <- Hv, <- He. reflexivity. }
  inversion Hcut as [Hfirst]. rewrite <- Hfirst.
  rewrite length_firstn. apply Nat.le_min_l.
Qed.

Lemma parsed_values_within_limits_witness :
  Forall (fun e => forall v n,
            value e = Some v -> lengthLimit (name e) = Some n ->
            length v <= n)
         (entries (parseDoc (L "xms/1;username=a_very_long_user_name_1234")
                     (withDefaults noOptions))).
Proof.
  exact (parsed_values_within_limits
           (L "xms/1;username=a_very_long_user_name_1234")
           (withDefaults noOptions) eq_refl).
Defined.

(** X5.  Ingestion keeps the entry log: it neither adds, drops, reorders
    nor renames entries, a [null] value stays [null] and a string value
    stays a string, and with limit enforcement off the log is left exactly
    as the tokenizer gave it. *)
Theorem ingest_keeps_entry_log
    (o : XMSParseOptions) (es : list XMSRawEntry) (root : XMSNode)
    (ws : list str) :
  let es' := fst (fst (ingest o es root ws)) in
  length es' = length es
  /\ map name es' = map name es
  /\ Forall2 (fun e e' => value e = None <-> value e' = None) es es'
  /\ (enforceLimits o ?? true = false -> es' = es).
Proof.
  cbv zeta. rewrite ingest_entries. repeat split.
  - apply length_map.
  - rewrite map_map. apply map_ext. apply limited_name.
  - induction es as [|e es IH]; constructor; [|exact IH].
    unfold limited. destruct (value e) as [v|] eqn:Hv.
    + destruct (lengthLimit (name e)); [|now rewrite Hv].
      destruct (enforceLimits o ?? true); [|now rewrite Hv].
      simpl. split; discriminate.
    + now rewrite Hv.
  - intros Hoff. rewrite <- (map_id es) at 2. apply map_ext.
    intros e. unfold limited. rewrite Hoff.
    destruct (value e), (lengthLimit (name e)); reflexivity.
Qed.

(** ** Shape of the value tree *)

Lemma plainNode_cons (k : str) (x : XMSValue) (ps : XMSNode) :
  plainNode ((k, x) :: ps) = plainTree x && plainNode ps.
Proof. reflexivity. Qed.

Lemma plainNode_setProp (o : XMSNode) (k : str) (v : XMSValue) :
  plainNode o = true -> plainTree v = true -> plainNode (setProp o k v) = true.
Proof.
  intros Ho Hv. induction o as [|[k' x] o IH]; simpl setProp.
  - rewrite plainNode_cons, Hv. reflexivity.
  - rewrite plainNode_cons in Ho. apply andb_true_iff in Ho as [Hx Hrest].
    destruct (str_eqb k' k); rewrite plainNode_cons.
    + now rewrite Hv, Hrest.
    + now rewrite Hx, IH.
Qed.

Lemma plainNode_getProp (o : XMSNode) (k : str) (x : XMSValue) :
  plainNode o = true -> getProp o k = Some x -> plainTree x = true.
Proof.
  induction o as [|[k' x'] o IH]; simpl getProp; [discriminate|].
  rewrite plainNode_cons. intros Ho Hg.
  apply andb_true_iff in Ho as [Hx Hrest].
  destruct (str_eqb k' k); [congruence | auto].
Qed.

Lemma plainNode_walk (segs : list str) (v : XMSValue) (ow : bool) :
  plainTree v = true ->
  forall cur, plainNode cur = true ->
              plainNode (fst (walkSegments ow cur segs v)) = true.
Proof.
  intros Hv.
  induction segs as [|s1 [|s2 more] IH]; intros cur Hcur; [exact Hcur| |].
  - simpl. now apply plainNode_setProp.
  - rewrite walkSegments_step.
    assert (Hrec : forall child, plainNode child = true ->
      plainNode (fst (let (child', r) := walkSegments ow child (s2 :: more) v
                      in (setProp cur s1 (VObj child'), r))) = true).
    { intros child Hch. specialize (IH child Hch).
      destruct (walkSegments ow child (s2 :: more) v) as [child' r].
      simpl in *. now apply plainNode_setProp. }
    destruct (getProp cur s1) as [[| | | |child|]|] eqn:Hg.
    1-4, 6: destruct ow; [now apply Hrec | exact Hcur].
    + apply Hrec. exact (plainNode_getProp cur s1 _ Hcur Hg).
    + now apply Hrec.
Qed.

Lemma coerceValue_scalar (o : XMSParseOptions) (raw : option str) :
  match coerceValue o raw with
  | VNull => raw = None
  | VBool _ => exists s, raw = Some s /\ coerceBooleans o ?? true = true
  | VNum s => raw = Some s /\ coerceNumbers o ?? false = true
              /\ numericPattern s = true /\ accepted o s = true
  | VStr s => raw = Some s
  | VObj _ | VArr _ => False
  end.
Proof.
  unfold coerceValue, accepted. destruct raw as [s|]; [|reflexivity].
  destruct (coerceBooleans o ?? true) eqn:Hb.
  - destruct (str_eqb (toLowerCase s) (L "true"));
      [exists s; split; reflexivity|].
    destruct (str_eqb (toLowerCase s) (L "false"));
      [exists s; split; reflexivity|].
    destruct (match customBooleanLiterals o with
              | Some lits => matchCustomLiteral lits (toLowerCase s)
              | None => None
              end); [exists s; split; reflexivity|].
    destruct (coerceNumbers o ?? false) eqn:Hc; [|reflexivity].
    destruct (numericPattern s) eqn:Hn; [|reflexivity].
    destruct (match numberPredicate o with
              | Some p => p s
              | None => true
              end) eqn:Ha; simpl; repeat split; assumption || reflexivity.
  - destruct (coerceNumbers o ?? false) eqn:Hc; [|reflexivity].
    destruct (numericPattern s) eqn:Hn; [|reflexivity].
    destruct (match numberPredicate o with
              | Some p => p s
              | None => true
              end) eqn:Ha; simpl; repeat split; assumption || reflexivity.
Qed.

Lemma coerceValue_plain (o : XMSParseOptions) (raw : option str) :
  plainTree (coerceValue o raw) = true.
Proof.
  pose proof (coerceValue_scalar o raw) as H.
  destruct (coerceValue o raw); try reflexivity; contradiction.
Qed.

Lemma plainNode_assignNested (o : XMSParseOptions) (root : XMSNode)
    (key : str) (v : XMSValue) (cfg : NestCfg) (ws : list str) :
  plainNode root = true -> plainTree v = true ->
  plainNode (fst (assignNested o root key v cfg ws)) = true.
Proof.
  intros Hroot Hv. unfold assignNested.
  set (root1 := if cfg_createFlatKeys cfg then setProp root key v else root).
  assert (H1 : plainNode root1 = true).
  { unfold root1. destruct (cfg_createFlatKeys cfg);
      [now apply plainNode_setProp | exact Hroot]. }
  destruct (negb (cfg_createNestedKeys cfg)); [exact H1|].
  destruct (existsb isEmpty (splitOn DOT key)); [exact H1|].
  destruct (cfg_maxNestingDepth cfg <? _)%Z; [exact H1|].
  pose proof (plainNode_walk (splitOn DOT key) v
                (overwriteScalarsForNested o ?? false) Hv root1 H1) as Hw.
  destruct (walkSegments _ root1 _ v) as [root2 [seg|]]; exact Hw.
Qed.

Lemma plainNode_ingest (o : XMSParseOptions) (es : list XMSRawEntry) :
  forall root ws,
    plainNode root = true ->
    plainNode (snd (fst (ingest o es root ws))) = true.
Proof.
  induction es as [|e es IH]; intros root ws Hroot; [exact Hroot|].
  cbn [ingest].
  assert (Hstep : plainNode (snd (fst (ingestEntry o e root ws))) = true).
  { unfold ingestEntry.
    destruct (match value e with
              | Some v =>
                  if enforceLimits o ?? true
                  then let (v', ws') := enforceLength (name e) v ws in
                       (mkEntry (name e) (Some v'), ws')
                  else (e, ws)
              | None => (e, ws)
              end) as [e1 ws1].
    pose proof (plainNode_assignNested o root (name e)
                  (coerceValue o (value e1))
                  (mkCfg (maxNestingDepth o ?? DEFAULT_maxNestingDepth)
                         (createFlatKeys o ?? true)
                         (createNestedKeys o ?? true))
                  ws1 Hroot (coerceValue_plain o (value e1))) as Ha.
    destruct (assignNested _ _ _ _ _ _) as [root' ws2]. exact Ha. }
  destruct (ingestEntry o e root ws) as [[e1 root1] ws1].
  specialize (IH root1 ws1 Hstep).
  destruct (ingest o es root1 ws1) as [[es1 root2] ws2]. exact IH.
Qed.

(** X6.  The value tree of a document built by tokenizing or by [from]
    over an entry log or a value tree holds null, booleans, numbers,
    strings and objects only: ingestion never creates an array, and the
    arrays of a tree handed to [from] come back as objects keyed by
    index. *)
Theorem value_tree_has_no_arrays
    (numberToString : str -> str) (inp : str) (o : XMSParseOptions)
    (es : list XMSRawEntry) (n : XMSNode) (fo : FromOptions) :
  plainNode (data (parseDoc inp o)) = true
  /\ match from numberToString (SrcEntries es) fo with
     | Ok doc => plainNode (data doc) = true
     | Throw _ => False
     end
  /\ match from numberToString (SrcNode n) fo with
     | Ok doc => plainNode (data doc) = true
     | Throw _ => False
     end.
Proof.
  repeat split.
  - unfold parseDoc.
    destruct (match matchVersion inp with
              | Some (ds, rest) => (parseDigits ds, true, rest)
              | None => (0%N, false, inp)
              end) as [[v0 cand] body].
    destruct (if cand
              then match parseXMSCore o body (mkState [] []) with
                   | (st, Ok es0) => (v0, false, st, es0)
                   | (st, Throw _) =>
                       if reparseOnFallback o ?? true
                       then let (st', es0) := parseCommonMeta o inp st in
                            (0%N, true, st', es0)
                       else (0%N, true, st, [])
                   end
              else let (st, es0) := parseCommonMeta o inp (mkState [] []) in
                   (v0, true, st, es0)) as [[[v1 f1] st1] es1].
    pose proof (plainNode_ingest o es1 [] (st_warnings st1) eq_refl) as H.
    destruct (ingest o es1 [] (st_warnings st1)) as [[es2 d2] ws2]. exact H.
  - unfold from. cbn [opts data warnings unparsed].
    match goal with
    | |- context [ingest ?a ?b ?c ?d] =>
        pose proof (plainNode_ingest a b c d eq_refl) as H;
        destruct (ingest a b c d) as [[es2 d2] ws2]
    end. exact H.
  - unfold from. cbn [opts data warnings unparsed].
    match goal with
    | |- context [ingest ?a ?b ?c ?d] =>
        pose proof (plainNode_ingest a b c d eq_refl) as H;
        destruct (ingest a b c d) as [[es2 d2] ws2]
    end. exact H.
Qed.

(** ** Flat keys *)

Lemma hasProp_setProp_same (o : XMSNode) (k : str) (v : XMSValue) :
  hasProp (setProp o k v) k = true.
Proof. unfold hasProp. now rewrite getProp_setProp_same. Qed.

Lemma hasProp_setProp_mono (o : XMSNode) (k k' : str) (v : XMSValue) :
  hasProp o k = true -> hasProp (setProp o k' v) k = true.
Proof.
  unfold hasProp. induction o as [|[k0 x] o IH]; simpl; [discriminate|].
  destruct (str_eqb k0 k') eqn:Hk'; simpl; destruct (str_eqb k0 k);
    auto.
Qed.

Lemma hasProp_walk (segs : list str) (v : XMSValue) (ow : bool)
    (cur : XMSNode) (k : str) :
  hasProp cur k = true ->
  hasProp (fst (walkSegments ow cur segs v)) k = true.
Proof.
  intros Hk. destruct segs as [|s1 [|s2 more]]; [exact Hk| |].
  - simpl. now apply hasProp_setProp_mono.
  - rewrite walkSegments_step.
    destruct (getProp cur s1) as [[| | | |child|]|];
      try (destruct ow; [|exact Hk]);
      match goal with
      | |- context [walkSegments ?a ?b ?c ?d] =>
          destruct (walkSegments a b c d) as [child' r]
      end; simpl; now apply hasProp_setProp_mono.
Qed.

Lemma hasProp_assignNested (o : XMSParseOptions) (root : XMSNode)
    (key : str) (v : XMSValue) (cfg : NestCfg) (ws : list str) (k : str) :
  hasProp root k = true
  \/ (k = key /\ cfg_createFlatKeys cfg = true) ->
  hasProp (fst (assignNested o root key v cfg ws)) k = true.
Proof.
  intros Hk. unfold assignNested.
  set (root1 := if cfg_createFlatKeys cfg then setProp root key v else root).
  assert (H1 : hasProp root1 k = true).
  { unfold root1. destruct Hk as [Hk | [-> Hflat]].
    - destruct (cfg_createFlatKeys cfg);
        [now apply hasProp_setProp_mono | exact Hk].
    - rewrite Hflat. apply hasProp_setProp_same. }
  destruct (negb (cfg_createNestedKeys cfg)); [exact H1|].
  destruct (existsb isEmpty (splitOn DOT key)); [exact H1|].
  destruct (cfg_maxNestingDepth cfg <? _)%Z; [exact H1|].
  pose proof (hasProp_walk (splitOn DOT key) v
                (overwriteScalarsForNested o ?? false) root1 k H1) as Hw.
  destruct (walkSegments _ root1 _ v) as [root2 [seg|]]; exact Hw.
Qed.

Lemma hasProp_ingestEntry (o : XMSParseOptions) (e : XMSRawEntry)
    (root : XMSNode) (ws : list str) (k : str) :
  hasProp root k = true
  \/ (k = name e /\ createFlatKeys o ?? true = true) ->
  hasProp (snd (fst (ingestEntry o e root ws))) k = true.
Proof.
  intros Hk. unfold ingestEntry.
  destruct (match value e with
            | Some v =>
                if enforceLimits o ?? true
                then let (v', ws') := enforceLength (name e) v ws in
                     (mkEntry (name e) (Some v'), ws')
                else (e, ws)
            | None => (e, ws)
            end) as [e1 ws1].
  pose proof (hasProp_assignNested o root (name e)
                (coerceValue o (value e1))
                (mkCfg (maxNestingDepth o ?? DEFAULT_maxNestingDepth)
                       (createFlatKeys o ?? true)
                       (createNestedKeys o ?? true))
                ws1 k Hk) as Ha.
  destruct (assignNested _ _ _ _ _ _) as [root' ws2]. exact Ha.
Qed.

Lemma hasProp_ingest (o : XMSParseOptions) (es : list XMSRawEntry) :
  forall root ws k,
    hasProp root k = true
    \/ (In k (map name es) /\ createFlatKeys o ?? true = true) ->
    hasProp (snd (fst (ingest o es root ws))) k = true.
Proof.
  induction es as [|e es IH]; intros root ws k Hk.
  - destruct Hk as [Hk | [[] _]]. exact Hk.
  - cbn [ingest].
    assert (Hstep : hasProp (snd (fst (ingestEntry o e root ws))) k = true
                    \/ (In k (map name es) /\ createFlatKeys o ?? true = true)).
    { destruct Hk as [Hk | [[Hk | Hk] Hflat]].
      - left. apply hasProp_ingestEntry. now left.
      - left. apply hasProp_ingestEntry. right. auto.
      - right. auto. }
    destruct (ingestEntry o e root ws) as [[e1 root1] ws1].
    specialize (IH root1 ws1 k Hstep).
    destruct (ingest o es root1 ws1) as [[es1 root2] ws2]. exact IH.
Qed.

Lemma parseDoc_ingested (inp : str) (o : XMSParseOptions) :
  exists es ws,
    entries (parseDoc inp o) = fst (fst (ingest o es [] ws))
    /\ data (parseDoc inp o) = snd (fst (ingest o es [] ws)).
Proof.
  unfold parseDoc.
  destruct (match matchVersion inp with
            | Some (ds, rest) => (parseDigits ds, true, rest)
            | None => (0%N, false, inp)
            end) as [[v0 cand] body].
  destruct (if cand
            then match parseXMSCore o body (mkState [] []) with
                 | (st, Ok es0) => (v0, false, st, es0)
                 | (st, Throw _) =>
                     if reparseOnFallback o ?? true
                     then let (st', es0) := parseCommonMeta o inp st in
                          (0%N, true, st', es0)
                     else (0%N, true, st, [])
                 end
            else let (st, es0) := parseCommonMeta o inp (mkState [] []) in
                 (v0, true, st, es0)) as [[[v1 f1] st1] es1].
  exists es1, (st_warnings st1).
  destruct (ingest o es1 [] (st_warnings st1)) as [[es2 d2] ws2].
  split; reflexivity.
Qed.

(** X7.  With flat keys enabled, and when no segment of an entry name is a
    name inherited from [Object.prototype], every entry of a parsed document
    is present in the value tree under its full name, whatever happened to
    its nested path: the name is an own property of the root, and
    [contains] and [get] find it. *)
Theorem flat_keys_cover_every_entry
    (inp : str) (o : XMSParseOptions)
    (Hflat : createFlatKeys o ?? true = true)
    (Hown : Forall (fun e => ownPath (name e) = true)
                   (entries (parseDoc inp o))) :
  Forall (fun e => hasProp (data (parseDoc inp o)) (name e) = true
                   /\ contains (parseDoc inp o) (name e) = true
                   /\ get (parseDoc inp o) (name e) <> None)
         (entries (parseDoc inp o)).
Proof.
  destruct (parseDoc_ingested inp o) as (es & ws & He & Hd).
  apply Forall_forall. intros e Hin.
  assert (Hhas : hasProp (data (parseDoc inp o)) (name e) = true).
  { rewrite Hd. apply hasProp_ingest. right. split; [|exact Hflat].
    rewrite He, ingest_entries in Hin.
    apply in_map_iff in Hin as (e0 & <- & Hin0).
    rewrite limited_name. now apply in_map. }
  assert (Hget : get (parseDoc inp o) (name e) <> None).
  { unfold get, getNested.
    destruct (getWalk _ _); [discriminate|].
    unfold hasProp in Hhas.
    destruct (getProp (data (parseDoc inp o)) (name e)); discriminate. }
  repeat split; [exact Hhas | | exact Hget].
  unfold contains. destruct (get (parseDoc inp o) (name e)); congruence.
Qed.

Lemma flat_keys_cover_every_entry_witness :
  let o := withDefaults
             (mkOptions None None None None (Some true) None None None None
                        None None None) in
  let doc := parseDoc (L "user=steve;user.stats.level=5") o in
  Forall (fun e => hasProp (data doc) (name e) = true
                   /\ contains doc (name e) = true
                   /\ get doc (name e) <> None)
         (entries doc).
Proof.
  apply (flat_keys_cover_every_entry
           (L "user=steve;user.stats.level=5")
           (withDefaults
              (mkOptions None None None None (Some true) None None None None
                         None None None))
           eq_refl).
  vm_compute. repeat constructor.
Defined.

(** ** Coercion *)

(** X8.  Value coercion.  [null] and only [null] stays [null]; a string is
    never changed, only retyped: the result is that string, the number it
    spells (only with number coercion on, when it matches the numeric
    pattern and the number predicate, if there is one, accepts it) or a
    boolean (only with boolean coercion on), never an object or an array.
    With boolean coercion on, [true] and [false] in any letter case win
    over everything else, and a custom literal wins over number coercion.
    A string that is not made a boolean becomes a number exactly when
    number coercion is on, the pattern matches and the predicate accepts. *)
Theorem coerceValue_retypes_only (o : XMSParseOptions) (s : str) :
  coerceValue o None = VNull
  /\ coerceValue o (Some s) <> VNull
  /\ (coerceValue o (Some s) = VStr s
      \/ (coerceValue o (Some s) = VNum s
          /\ coerceNumbers o ?? false = true /\ numericPattern s = true
          /\ accepted o s = true)
      \/ (exists b, coerceValue o (Some s) = VBool b
                    /\ coerceBooleans o ?? true = true))
  /\ (coerceBooleans o ?? true = true ->
      (toLowerCase s = L "true" -> coerceValue o (Some s) = VBool true)
      /\ (toLowerCase s = L "false" -> coerceValue o (Some s) = VBool false)
      /\ (forall lits b,
            toLowerCase s <> L "true" -> toLowerCase s <> L "false" ->
            customBooleanLiterals o = Some lits ->
            matchCustomLiteral lits (toLowerCase s) = Some b ->
            coerceValue o (Some s) = VBool b))
  /\ (coerceBooleans o ?? true = false ->
      forall b, coerceValue o (Some s) <> VBool b)
  /\ (coerceNumbers o ?? false = false \/ numericPattern s = false
      \/ accepted o s = false ->
      forall n, coerceValue o (Some s) <> VNum n)
  /\ ((forall b, coerceValue o (Some s) <> VBool b) ->
      coerceNumbers o ?? false = true -> numericPattern s = true ->
      accepted o s = true ->
      coerceValue o (Some s) = VNum s).
Proof.
  pose proof (coerceValue_scalar o (Some s)) as Hsc.
  split; [reflexivity|]. split; [|split; [|split; [|split; [|split]]]].
  - destruct (coerceValue o (Some s)); try discriminate.
  - destruct (coerceValue o (Some s)) as [|b|n|t|ps|xs];
      try contradiction; try discriminate.
    + right. right. exists b. destruct Hsc as (s0 & _ & Hb). auto.
    + destruct Hsc as (Hs & Hc & Hn & Ha). inversion Hs; subst.
      right; left. repeat split; assumption.
    + inversion Hsc; subst. auto.
  - intros Hb. unfold coerceValue. rewrite Hb. repeat split.
    + intros ->. reflexivity.
    + intros ->. reflexivity.
    + intros lits b Ht Hf Hl Hm.
      destruct (str_eqb (toLowerCase s) (L "true")) eqn:E1;
        [apply str_eqb_eq in E1; contradiction|].
      destruct (str_eqb (toLowerCase s) (L "false")) eqn:E2;
        [apply str_eqb_eq in E2; contradiction|].
      now rewrite Hl, Hm.
  - intros Hb b Heq. rewrite Heq in Hsc.
    destruct Hsc as (s0 & _ & Hon). congruence.
  - intros Hoff n Heq. rewrite Heq in Hsc.
    destruct Hsc as (Hs & Hon & Hn & Ha). inversion Hs; subst n.
    destruct Hoff as [H | [H | H]]; congruence.
  - intros Hnb Hc Hn Ha. clear Hsc. unfold coerceValue in *.
    unfold accepted in Ha. cbv zeta in *.
    match goal with
    | |- match ?x with Some _ => _ | None => _ end = _ =>
        destruct x as [b|]
    end.
    + exfalso. exact (Hnb b eq_refl).
    + simpl. rewrite Hc, Hn, Ha. reflexivity.
Qed.

(** ** Copies *)

Lemma deepClone_id : forall v, noProtoKey v = true -> deepClone v = v.
Proof.
  fix IH 1. intros [| | | |props|items] H; try reflexivity.
  - simpl. f_equal. revert props H. fix IHp 1.
    intros [|[k x] ps] H; [reflexivity|].
    change (negb (str_eqb k PROTO) && noProtoKey x
            && noProtoKey (VObj ps) = true) in H.
    apply andb_prop in H as [H Hps]. apply andb_prop in H as [Hk Hx].
    destruct (str_eqb k PROTO); [discriminate|].
    rewrite (IH x Hx), (IHp ps Hps). reflexivity.
  - simpl. f_equal. revert items H. fix IHi 1.
    intros [|x xs] H; [reflexivity|].
    change (noProtoKey x && noProtoKey (VArr xs) = true) in H.
    apply andb_prop in H as [Hx Hxs].
    rewrite (IH x Hx), (IHi xs Hxs). reflexivity.
Qed.

Lemma deepCloneNode_id (n : XMSNode) :
  noProtoKey (VObj n) = true -> deepCloneNode n = n.
Proof. intros H. unfold deepCloneNode. now rewrite deepClone_id. Qed.

(** X9.  Export and import.  For a document whose value tree has no
    property named [__proto__] (the one key an assignment does not copy),
    [toObject] and [toJSON] hand out a tree equal to the document's, and
    [from] over the [toJSON] export of the document, with no overriding
    option, gives a document with the same version, fallback flag, entry
    log, value tree, warnings and errors. *)
Theorem from_toJSON_restores_document
    (numberToString : str -> str) (doc : XMSDoc) (po : XMSParseOptions)
    (Hplain : noProtoKey (VObj (data doc)) = true) :
  toObject doc = data doc
  /\ pl_data (toJSON doc) = data doc
  /\ exists doc',
       from numberToString (SrcParsedLike (toJSON doc))
            (mkFromOptions po None None None None) = Ok doc'
       /\ version doc' = version doc
       /\ isFallback doc' = isFallback doc
       /\ entries doc' = entries doc
       /\ data doc' = data doc
       /\ warnings doc' = warnings doc
       /\ errors doc' = errors doc.
Proof.
  pose proof (deepCloneNode_id (data doc) Hplain) as Hid.
  split; [exact Hid|]. split; [exact Hid|].
  unfold from, toJSON.
  cbn [pl_data pl_version pl_isFallback pl_entries pl_warnings pl_errors
       fo_version fo_isFallback fo_preserveWarnings fo_preserveErrors].
  rewrite !Hid.
  eexists. split; [reflexivity|].
  cbn [version isFallback entries data warnings errors].
  repeat split.
  rewrite <- (map_id (entries doc)) at 2. apply map_ext.
  intros e. apply entry_eta.
Qed.

Lemma from_toJSON_restores_document_witness :
  let doc := parseDoc (L "xms/1;user.name=steve;level=5")
               (withDefaults noOptions) in
  toObject doc = data doc
  /\ data doc = [(L "user", VObj [(L "name", VStr (L "steve"))]);
                 (L "level", VStr (L "5"))].
Proof.
  split; [|reflexivity].
  exact (proj1 (from_toJSON_restores_document
                  (fun s => s)
                  (parseDoc (L "xms/1;user.name=steve;level=5")
                     (withDefaults noOptions))
                  noOptions eq_refl)).
Defined.

(** ** Separators and empty tokens *)

Lemma splitTokens_app (a b : str) : forall cur,
  splitTokens cur (a ++ SEMI :: b) = splitTokens cur a ++ splitTokens [] b.
Proof.
  induction a as [|c a IH]; intros cur; simpl.
  - change (Ascii.eqb SEMI SEMI) with true. cbv iota.
    destruct (isEmpty cur); reflexivity.
  - destruct (Ascii.eqb c SEMI).
    + destruct (isEmpty cur); rewrite IH; reflexivity.
    + apply IH.
Qed.

Lemma legacyLoop_app (o : XMSParseOptions) (t1 t2 : list str) :
  forall st,
    snd (legacyLoop o (t1 ++ t2) st)
    = snd (legacyLoop o t1 st) ++ snd (legacyLoop o t2 st).
Proof.
  induction t1 as [|tk t1 IH]; intros st; [reflexivity|].
  cbn [app legacyLoop].
  destruct (legacyToken o tk st) as [st' [e|]].
  - specialize (IH st').
    destruct (legacyLoop_state o t2 st' st) as [_ Hs].
    destruct (legacyLoop o (t1 ++ t2) st') as [sa outa].
    destruct (legacyLoop o t1 st') as [sb outb].
    simpl in *. rewrite IH, Hs. reflexivity.
  - rewrite IH.
    destruct (legacyLoop_state o t2 st' st) as [_ Hs]. now rewrite Hs.
Qed.

(** X10.  The legacy tokenizer splits at every [;], quoted or not: the
    entries of [a;b] are the entries of [a] followed by the entries of
    [b], whatever the state it is started in. *)
Theorem parseCommonMeta_splits_at_every_semicolon
    (o : XMSParseOptions) (a b : str) (st st' : InternalState) :
  snd (parseCommonMeta o (a ++ SEMI :: b) st)
  = snd (parseCommonMeta o a st') ++ snd (parseCommonMeta o b st').
Proof.
  unfold parseCommonMeta. rewrite splitTokens_app, legacyLoop_app.
  destruct (legacyLoop_state o (splitTokens [] a) st st') as [_ ->].
  destruct (legacyLoop_state o (splitTokens [] b) st st') as [_ ->].
  reflexivity.
Qed.

Lemma trim_spaces (s : str) : forallb isSpace s = true -> trim s = [].
Proof.
  intros H. unfold trim.
  rewrite <- (app_nil_r s), trimStart_spaces_app by assumption.
  reflexivity.
Qed.

Lemma splitTokens_blank (s : str) : forall cur,
  blank s = true -> forallb isSpace cur = true ->
  Forall (fun t => forallb isSpace t = true) (splitTokens cur s).
Proof.
  induction s as [|c s IH]; intros cur Hs Hcur; simpl.
  - destruct (isEmpty cur); constructor; auto.
  - unfold blank in Hs. simpl in Hs. apply andb_true_iff in Hs as [Hc Hs].
    destruct (Ascii.eqb c SEMI) eqn:Hsemi.
    + destruct (isEmpty cur); [|constructor; [exact Hcur|]];
        now apply IH.
    + rewrite orb_false_r in Hc. apply IH; [exact Hs|].
      rewrite forallb_app, Hcur. simpl. now rewrite Hc.
Qed.

Lemma legacyLoop_blank (o : XMSParseOptions) (toks : list str)
    (st : InternalState) :
  Forall (fun t => forallb isSpace t = true) toks ->
  legacyLoop o toks st = (st, []).
Proof.
  induction 1 as [|tk toks Htk _ IH]; [reflexivity|].
  cbn [legacyLoop]. unfold legacyToken. rewrite (trim_spaces tk Htk).
  cbn [isEmpty]. exact IH.
Qed.

Lemma scanToken_blank (s : str) :
  blank s = true ->
  let '(tok, rest, q) := scanToken false false s in
  forallb isSpace tok = true /\ blank rest = true /\ q = false.
Proof.
  induction s as [|c s IH]; intros Hs; [simpl; auto|].
  unfold blank in Hs. simpl in Hs. apply andb_true_iff in Hs as [Hc Hs].
  fold (blank s) in Hs. specialize (IH Hs). cbn [scanToken].
  destruct (Ascii.eqb c SEMI) eqn:Hsemi.
  - apply Ascii.eqb_eq in Hsemi. subst c.
    change (Ascii.eqb SEMI BACKSLASH) with false.
    change (Ascii.eqb SEMI DQUOTE) with false. cbn.
    repeat split. unfold blank. simpl. exact Hs.
  - rewrite orb_false_r in Hc.
    assert (Hb : Ascii.eqb c BACKSLASH = false).
    { destruct (Ascii.eqb c BACKSLASH) eqn:E; [|reflexivity].
      apply Ascii.eqb_eq in E. subst c. discriminate. }
    assert (Hq : Ascii.eqb c DQUOTE = false).
    { destruct (Ascii.eqb c DQUOTE) eqn:E; [|reflexivity].
      apply Ascii.eqb_eq in E. subst c. discriminate. }
    rewrite Hb, Hq. cbn [andb].
    destruct (scanToken false false s) as [[tok rest] q].
    destruct IH as (Ht & Hr & Hq'). cbn [consTok forallb].
    now rewrite Hc, Ht.
Qed.

Lemma blank_suffix (s : str) :
  blank s = true ->
  blank (skipSemis s) = true /\ blank (skipOneSemi s) = true.
Proof.
  induction s as [|c s IH]; intros Hs; [auto|].
  pose proof Hs as Hs'.
  unfold blank in Hs'. simpl in Hs'. apply andb_true_iff in Hs' as [Hc Hs'].
  simpl. destruct (Ascii.eqb c SEMI); split; auto.
  now apply IH.
Qed.

Lemma parseXMSLoop_blank (o : XMSParseOptions) (fuel : nat) :
  forall body st,
    blank body = true -> parseXMSLoop fuel o body st = (st, Ok []).
Proof.
  induction fuel as [|fuel IH]; intros body st Hb; [reflexivity|].
  cbn [parseXMSLoop]. unfold parseXMSIteration.
  destruct (blank_suffix body Hb) as [Hsk _].
  destruct (skipSemis body) as [|c r]; [reflexivity|].
  pose proof (scanToken_blank (c :: r) Hsk) as Hscan.
  destruct (scanToken false false (c :: r)) as [[tok rest] q].
  destruct Hscan as (Ht & Hr & ->).
  rewrite (trim_spaces tok Ht). cbn [isEmpty].
  apply IH. now apply blank_suffix.
Qed.

Lemma blank_no_prefix (s : str) : blank s = true -> matchVersion s = None.
Proof.
  intros Hs. unfold matchVersion.
  destruct s as [|c1 [|c2 [|c3 [|c4 r]]]]; try reflexivity.
  unfold blank in Hs. simpl in Hs. apply andb_true_iff in Hs as [Hc _].
  assert (Hx : Ascii.eqb c1 "x"%char = false).
  { destruct (Ascii.eqb c1 "x"%char) eqn:E; [|reflexivity].
    apply Ascii.eqb_eq in E. subst c1. discriminate. }
  simpl. now rewrite Hx.
Qed.

(** X11.  Input without tokens.  On an input of white space and [;] only
    (the empty input included) both tokenizers give no entry and leave the
    state as it was, and [parse] gives the empty legacy document: version
    0, fallback, no entries, an empty tree, no warnings and no errors.
    After a version prefix [xms/N] such a body gives the empty strict
    document of version [N]. *)
Theorem blank_input_gives_empty_document
    (o : XMSParseOptions) (body ds : str) (st : InternalState)
    (Hblank : blank body = true)
    (Hds : forallb isDigit ds = true) (Hne : isEmpty ds = false) :
  parseXMSCore o body st = (st, Ok [])
  /\ parseCommonMeta o body st = (st, [])
  /\ parseDoc body o = mkDoc 0%N true [] [] [] [] body o
  /\ parseDoc (L "xms/" ++ ds ++ SEMI :: body) o
     = mkDoc (parseDigits ds) false [] [] [] []
             (L "xms/" ++ ds ++ SEMI :: body) o.
Proof.
  assert (Hlegacy : forall s, parseCommonMeta o body s = (s, [])).
  { intros s. unfold parseCommonMeta. apply legacyLoop_blank.
    now apply splitTokens_blank. }
  repeat split.
  - now apply parseXMSLoop_blank.
  - apply Hlegacy.
  - unfold parseDoc. rewrite (blank_no_prefix body Hblank), Hlegacy.
    reflexivity.
  - unfold parseDoc.
    rewrite matchVersion_prefix by (auto; now apply isEmpty_false).
    unfold parseXMSCore.
    rewrite parseXMSLoop_blank; [reflexivity|].
    unfold blank. simpl. exact Hblank.
Qed.

Lemma blank_input_gives_empty_document_witness :
  let o := withDefaults noOptions in
  parseXMSCore o (L " ;; ; ") state0 = (state0, Ok [])
  /\ parseCommonMeta o (L " ;; ; ") state0 = (state0, [])
  /\ parseDoc (L " ;; ; ") o = mkDoc 0%N true [] [] [] [] (L " ;; ; ") o
  /\ parseDoc (L "xms/" ++ L "12" ++ SEMI :: L " ;; ; ") o
     = mkDoc 12%N false [] [] [] []
             (L "xms/" ++ L "12" ++ SEMI :: L " ;; ; ") o.
Proof.
  exact (blank_input_gives_empty_document (withDefaults noOptions)
           (L " ;; ; ") (L "12") state0 eq_refl eq_refl eq_refl).
Defined.

(** ** The prefix test, the serializer and the dispatcher *)

(** X12.  When [isProbablyXMS] accepts an input, [parse] never takes it
    for a legacy input: the input is [xms/N;rest], and the document either
    is a strict one of version [N] without errors, or is the fallback of a
    failed strict parse, with version 0 and the tokenizer's error recorded.
    So a fallback document with an empty error log comes from an input
    that [isProbablyXMS] rejects. *)
Theorem isProbablyXMS_means_strict_or_reported
    (inp : str) (o : XMSParseOptions)
    (Hprob : isProbablyXMS inp = true) :
  let doc := parseDoc inp o in
  exists ds rest,
    inp = L "xms/" ++ ds ++ SEMI :: rest
    /\ ((isFallback doc = false /\ version doc = parseDigits ds
         /\ errors doc = [])
        \/ (isFallback doc = true /\ version doc = 0%N
            /\ exists e, In e strictErrors /\ errors doc = [e])).
Proof.
  cbv zeta.
  destruct (isProbablyXMS_shape inp Hprob) as (ds & rest & Hinp & Hm).
  exists ds, rest. split; [exact Hinp|].
  destruct (parseXMSCore o (SEMI :: rest) state0) as [st [es|m]] eqn:Hp.
  - left. destruct (parseDoc_strict_ok inp o _ _ _ _ Hm Hp)
      as (Hv & Hf & _ & He). auto.
  - right. destruct (parseDoc_strict_throw inp o _ _ _ _ Hm Hp)
      as (Hv & Hf & _ & He). auto.
Qed.

Lemma isProbablyXMS_means_strict_or_reported_witness :
  let inp := L "xms/3;a=" ++ [DQUOTE] ++ L "open" in
  let doc := parseDoc inp (withDefaults noOptions) in
  exists ds rest,
    inp = L "xms/" ++ ds ++ SEMI :: rest
    /\ ((isFallback doc = false /\ version doc = parseDigits ds
         /\ errors doc = [])
        \/ (isFallback doc = true /\ version doc = 0%N
            /\ exists e, In e strictErrors /\ errors doc = [e])).
Proof.
  exact (isProbablyXMS_means_strict_or_reported
           (L "xms/3;a=" ++ [DQUOTE] ++ L "open") (withDefaults noOptions)
           eq_refl).
Defined.

Lemma keyChar_not_slash (c : ascii) :
  isKeyChar c = true -> Ascii.eqb c "/"%char = false.
Proof.
  destruct c as [[] [] [] [] [] [] [] []]; intros H; vm_compute in H;
    try discriminate; reflexivity.
Qed.

(** A valid key followed by nothing, a [=] or a [;] does not start with a
    version prefix. *)
Lemma key_then_separator_no_prefix (key z : str) :
  KEY_PATTERN key = true ->
  z = [] \/ (exists z', z = EQUALS :: z') \/ (exists z', z = SEMI :: z') ->
  matchVersion (key ++ z) = None.
Proof.
  intros Hkey Hz.
  assert (Hshort : forall a b c d r sep,
            sep = EQUALS \/ sep = SEMI ->
            a = sep \/ b = sep \/ c = sep \/ d = sep ->
            matchVersion (a :: b :: c :: d :: r) = None).
  { intros a b c d r sep Hsep Hpos. unfold matchVersion.
    assert (Hneq : str_eqb [a; b; c; d] (L "xms/") = false).
    { destruct (str_eqb [a; b; c; d] (L "xms/")) eqn:E; [|reflexivity].
      apply str_eqb_eq in E. inversion E; subst.
      destruct Hsep as [-> | ->];
        destruct Hpos as [H | [H | [H | H]]]; discriminate H. }
    now rewrite Hneq. }
  unfold KEY_PATTERN in Hkey.
  destruct key as [|k1 [|k2 [|k3 [|k4 kr]]]]; [discriminate| | | |].
  - destruct Hz as [-> | [(z' & ->) | (z' & ->)]]; [reflexivity| |];
      (destruct z' as [|c3 [|c4 r]]; try reflexivity);
      [apply (Hshort _ _ _ _ _ EQUALS) | apply (Hshort _ _ _ _ _ SEMI)];
      auto.
  - destruct Hz as [-> | [(z' & ->) | (z' & ->)]]; [reflexivity| |];
      (destruct z' as [|c4 r]; try reflexivity);
      [apply (Hshort _ _ _ _ _ EQUALS) | apply (Hshort _ _ _ _ _ SEMI)];
      auto.
  - destruct Hz as [-> | [(z' & ->) | (z' & ->)]]; [reflexivity| |];
      [apply (Hshort _ _ _ _ _ EQUALS) | apply (Hshort _ _ _ _ _ SEMI)];
      auto.
  - simpl in Hkey.
    apply andb_true_iff in Hkey as [_ Hkey].
    apply andb_true_iff in Hkey as [_ Hkey].
    apply andb_true_iff in Hkey as [_ Hkey].
    apply andb_true_iff in Hkey as [H4 _].
    apply keyChar_not_slash in H4.
    unfold matchVersion. cbn [app].
    assert (Hneq : str_eqb [k1; k2; k3; k4] (L "xms/") = false).
    { destruct (str_eqb [k1; k2; k3; k4] (L "xms/")) eqn:E; [|reflexivity].
      apply str_eqb_eq in E. inversion E; subst. discriminate H4. }
    now rewrite Hneq.
Qed.

Lemma xmsTokens_head (es : list XMSRawEntry) :
  joinSemi (xmsTokens es) = []
  \/ exists key z,
       joinSemi (xmsTokens es) = key ++ z
       /\ KEY_PATTERN key = true
       /\ (z = [] \/ (exists z', z = EQUALS :: z')
           \/ (exists z', z = SEMI :: z')).
Proof.
  induction es as [|e es IH]; [now left|].
  cbn [xmsTokens].
  destruct (KEY_PATTERN (name e)) eqn:Hk; cbn [negb]; [|exact IH].
  right. exists (name e).
  assert (Hjoin : forall tail,
            tail = [] \/ (exists t', tail = EQUALS :: t') ->
            exists z,
              joinSemi ((name e ++ tail) :: xmsTokens es) = name e ++ z
              /\ (z = [] \/ (exists z', z = EQUALS :: z')
                  \/ (exists z', z = SEMI :: z'))).
  { intros tail Htail.
    destruct (joinSemi_cons (name e ++ tail) (xmsTokens es))
      as (rest & -> & Hrest & _).
    exists (tail ++ rest). split; [now rewrite app_assoc|].
    destruct Htail as [-> | (t' & ->)]; [|right; left; simpl; eauto].
    simpl. destruct Hrest as [-> | (r & ->)]; [now left | right; right; eauto]. }
  destruct (value e) as [[|c v]|].
  - destruct (Hjoin [EQUALS]) as (z & Hz & Hsep); [right; eauto|]. eauto.
  - destruct (needsQuotes (c :: v)).
    + destruct (Hjoin ([EQUALS] ++ [DQUOTE] ++ escapeValue (c :: v) ++ [DQUOTE]))
        as (z & Hz & Hsep); [right; simpl; eauto|]. eauto.
    + destruct (Hjoin ([EQUALS] ++ c :: v)) as (z & Hz & Hsep);
        [right; simpl; eauto|]. eauto.
  - destruct (Hjoin []) as (z & Hz & Hsep); [now left|].
    rewrite app_nil_r in Hz. eauto.
Qed.

(** X13.  The serializer and the prefix, for a document whose version is
    within the safe-integer range and whose entry names have no segment
    named like a member of [Object.prototype].  With a non-zero version the
    document serializes to a string that [isProbablyXMS] accepts, whatever
    its entries.  With version 0 it serializes to a string without a
    version prefix, whatever its entries, so parsing that string is always
    a legacy parse: fallback, version 0 and no errors. *)
Theorem toXMS_prefix_follows_version (doc : XMSDoc) (o : XMSParseOptions)
    (Hsafe : (version doc <=? MAX_SAFE_INTEGER)%N = true)
    (Hown : Forall (fun e => ownPath (name e) = true) (entries doc)) :
  (version doc <> 0%N -> isProbablyXMS (toXMS doc) = true)
  /\ (version doc = 0%N ->
      isProbablyXMS (toXMS doc) = false
      /\ isFallback (parseDoc (toXMS doc) o) = true
      /\ version (parseDoc (toXMS doc) o) = 0%N
      /\ errors (parseDoc (toXMS doc) o) = []).
Proof.
  split.
  - intros Hv.
    assert (Hser : toXMS doc
                   = L "xms/" ++ showN (version doc)
                     ++ SEMI :: joinSemi (xmsTokens (entries doc))).
    { unfold toXMS. apply N.eqb_neq in Hv. rewrite Hv.
      destruct (xmsTokens (entries doc)); reflexivity. }
    destruct (showN_spec (version doc)) as (_ & Hds & Hne).
    unfold isProbablyXMS.
    rewrite Hser, (matchVersion_prefix _ _ Hds Hne).
    reflexivity.
  - intros Hv.
    assert (Hnone : matchVersion (toXMS doc) = None).
    { unfold toXMS. rewrite Hv. cbn [N.eqb].
      destruct (xmsTokens_head (entries doc))
        as [-> | (key & z & -> & Hk & Hz)]; [reflexivity|].
      now apply key_then_separator_no_prefix. }
    destruct (parseDoc_no_prefix (toXMS doc) o Hnone) as (Hv' & Hf & _ & He).
    unfold isProbablyXMS. rewrite Hnone. auto.
Qed.

Lemma toXMS_prefix_follows_version_witness :
  let doc := mkDoc 7%N false
               [mkEntry (L "user") (Some (L "steve")); mkEntry (L "flag") None]
               [] [] [] [] noOptions in
  toXMS doc = L "xms/7;user=steve;flag"
  /\ isProbablyXMS (toXMS doc) = true.
Proof.
  split; [reflexivity|].
  apply (proj1 (toXMS_prefix_follows_version
                  (mkDoc 7%N false
                     [mkEntry (L "user") (Some (L "steve"));
                      mkEntry (L "flag") None]
                     [] [] [] [] noOptions)
                  noOptions eq_refl
                  (Forall_cons (mkEntry (L "user") (Some (L "steve"))) eq_refl
                     (Forall_cons (mkEntry (L "flag") None) eq_refl
                        (Forall_nil _))))).
  discriminate.
Defined.

(** ** Depth of the value tree *)

Lemma nodeLevels_cons (k : str) (x : XMSValue) (ps : XMSNode) :
  nodeLevels ((k, x) :: ps) = Nat.max (S (levels x)) (nodeLevels ps).
Proof. reflexivity. Qed.

Lemma nodeLevels_setProp (o : XMSNode) (k : str) (v : XMSValue) (b : nat) :
  nodeLevels o <= b -> S (levels v) <= b -> nodeLevels (setProp o k v) <= b.
Proof.
  intros Ho Hv. induction o as [|[k' x] o IH]; simpl setProp.
  - rewrite nodeLevels_cons. change (nodeLevels []) with 0. lia.
  - rewrite nodeLevels_cons in Ho.
    destruct (str_eqb k' k); rewrite nodeLevels_cons; [lia|].
    assert (nodeLevels (setProp o k v) <= b) by (apply IH; lia). lia.
Qed.

Lemma levels_getProp (o : XMSNode) (k : str) (x : XMSValue) :
  getProp o k = Some x -> S (levels x) <= nodeLevels o.
Proof.
  induction o as [|[k' x'] o IH]; simpl getProp; [discriminate|].
  rewrite nodeLevels_cons.
  destruct (str_eqb k' k); intros H.
  - inversion H; subst. lia.
  - specialize (IH H). lia.
Qed.

Lemma nodeLevels_walk (segs : list str) (v : XMSValue) (ow : bool) :
  levels v = 0 ->
  forall cur b,
    nodeLevels cur <= b -> length segs <= b ->
    nodeLevels (fst (walkSegments ow cur segs v)) <= b.
Proof.
  intros Hv.
  induction segs as [|s1 [|s2 more] IH]; intros cur b Hcur Hlen;
    [exact Hcur| |].
  - simpl in *. apply nodeLevels_setProp; [exact Hcur | lia].
  - rewrite walkSegments_step.
    assert (Hrec : forall child, nodeLevels child <= b - 1 ->
      nodeLevels (fst (let (child', r) := walkSegments ow child (s2 :: more) v
                       in (setProp cur s1 (VObj child'), r))) <= b).
    { intros child Hch.
      assert (Hl : length (s2 :: more) <= b - 1) by (simpl in *; lia).
      specialize (IH child (b - 1) Hch Hl).
      destruct (walkSegments ow child (s2 :: more) v) as [child' r].
      simpl fst in *. apply nodeLevels_setProp; [exact Hcur|].
      change (levels (VObj child')) with (nodeLevels child').
      simpl in Hlen. lia. }
    destruct (getProp cur s1) as [[| | | |child|]|] eqn:Hg.
    1-4, 6: destruct ow;
      [apply Hrec; change (nodeLevels []) with 0; lia | exact Hcur].
    + apply Hrec. apply levels_getProp in Hg.
      change (levels (VObj child)) with (nodeLevels child) in Hg. lia.
    + apply Hrec. change (nodeLevels []) with 0. lia.
Qed.

Lemma coerceValue_levels (o : XMSParseOptions) (raw : option str) :
  levels (coerceValue o raw) = 0.
Proof.
  pose proof (coerceValue_scalar o raw) as H.
  destruct (coerceValue o raw); try reflexivity; contradiction.
Qed.

Lemma nodeLevels_assignNested (o : XMSParseOptions) (root : XMSNode)
    (key : str) (v : XMSValue) (cfg : NestCfg) (ws : list str) :
  levels v = 0 ->
  nodeLevels root <= Nat.max 1 (Z.to_nat (cfg_maxNestingDepth cfg)) ->
  nodeLevels (fst (assignNested o root key v cfg ws))
  <= Nat.max 1 (Z.to_nat (cfg_maxNestingDepth cfg)).
Proof.
  intros Hv Hroot. unfold assignNested.
  set (b := Nat.max 1 (Z.to_nat (cfg_maxNestingDepth cfg))) in *.
  set (root1 := if cfg_createFlatKeys cfg then setProp root key v else root).
  assert (H1 : nodeLevels root1 <= b).
  { unfold root1. destruct (cfg_createFlatKeys cfg); [|exact Hroot].
    apply nodeLevels_setProp; [exact Hroot | unfold b; lia]. }
  destruct (negb (cfg_createNestedKeys cfg)); [exact H1|].
  destruct (existsb isEmpty (splitOn DOT key)); [exact H1|].
  destruct (cfg_maxNestingDepth cfg <? Z.of_nat (length (splitOn DOT key)))%Z
    eqn:Hd; [exact H1|].
  apply Z.ltb_ge in Hd.
  assert (Hlen : length (splitOn DOT key) <= b) by (unfold b; lia).
  pose proof (nodeLevels_walk (splitOn DOT key) v
                (overwriteScalarsForNested o ?? false) Hv root1 b H1 Hlen)
    as Hw.
  destruct (walkSegments _ root1 _ v) as [root2 [seg|]]; exact Hw.
Qed.

Lemma nodeLevels_ingest (o : XMSParseOptions) (es : list XMSRawEntry) :
  forall root ws,
    nodeLevels root
    <= Nat.max 1 (Z.to_nat (maxNestingDepth o ?? DEFAULT_maxNestingDepth)) ->
    nodeLevels (snd (fst (ingest o es root ws)))
    <= Nat.max 1 (Z.to_nat (maxNestingDepth o ?? DEFAULT_maxNestingDepth)).
Proof.
  induction es as [|e es IH]; intros root ws Hroot; [exact Hroot|].
  cbn [ingest].
  assert (Hstep : nodeLevels (snd (fst (ingestEntry o e root ws)))
                  <= Nat.max 1 (Z.to_nat (maxNestingDepth o
                                           ?? DEFAULT_maxNestingDepth))).
  { unfold ingestEntry.
    destruct (match value e with
              | Some v =>
                  if enforceLimits o ?? true
                  then let (v', ws') := enforceLength (name e) v ws in
                       (mkEntry (name e) (Some v'), ws')
                  else (e, ws)
              | None => (e, ws)
              end) as [e1 ws1].
    pose proof (nodeLevels_assignNested o root (name e)
                  (coerceValue o (value e1))
                  (mkCfg (maxNestingDepth o ?? DEFAULT_maxNestingDepth)
                         (createFlatKeys o ?? true)
                         (createNestedKeys o ?? true))
                  ws1 (coerceValue_levels o (value e1)) Hroot) as Ha.
    destruct (assignNested _ _ _ _ _ _) as [root' ws2]. exact Ha. }
  destruct (ingestEntry o e root ws) as [[e1 root1] ws1].
  specialize (IH root1 ws1 Hstep).
  destruct (ingest o es root1 ws1) as [[es1 root2] ws2]. exact IH.
Qed.

(** X14.  The value tree of a parsed document is never deeper than the
    depth limit: it has at most [maxNestingDepth] object levels (at most
    one when the limit is below one, the level of the flat keys), whatever
    the input and whether or not [enforceLimits] is set; and a looked-up
    value therefore lies at most that many segments down. *)
Theorem value_tree_depth_bounded (inp : str) (o : XMSParseOptions) :
  nodeLevels (data (parseDoc inp o))
  <= Nat.max 1 (Z.to_nat (maxNestingDepth o ?? DEFAULT_maxNestingDepth))
  /\ forall segs v,
       lookupPath (data (parseDoc inp o)) segs = Some v ->
       length segs
       <= Nat.max 1 (Z.to_nat (maxNestingDepth o ?? DEFAULT_maxNestingDepth)).
Proof.
  assert (Hd : nodeLevels (data (parseDoc inp o))
               <= Nat.max 1 (Z.to_nat (maxNestingDepth o
                                        ?? DEFAULT_maxNestingDepth))).
  { destruct (parseDoc_ingested inp o) as (es & ws & _ & ->).
    apply nodeLevels_ingest. change (nodeLevels []) with 0. lia. }
  split; [exact Hd|].
  intros segs v Hl.
  assert (Hpath : forall segs cur v,
            lookupPath cur segs = Some v -> length segs <= nodeLevels cur).
  { clear. induction segs as [|s1 [|s2 more] IH]; intros cur v H;
      [discriminate| |].
    - simpl in H. apply levels_getProp in H. simpl. lia.
    - rewrite lookupPath_step in H.
      destruct (getProp cur s1) as [[| | | |child|]|] eqn:Hg;
        try discriminate.
      apply IH in H. apply levels_getProp in Hg.
      change (levels (VObj child)) with (nodeLevels child) in Hg.
      simpl length in *. lia. }
  apply Hpath in Hl. lia.
Qed.

(** ** Flattening a value tree *)

Lemma flattenWalk_lower (numberToString : str -> str) :
  forall v cur,
    Forall (fun e => toLowerCase (name e) = name e)
           (flattenWalk numberToString v cur).
Proof.
  fix IH 1. intros [|b|n|s|props|items] cur;
    try (constructor; [apply toLowerCase_idem | constructor]).
  - simpl. revert props. fix IHp 1.
    intros [|[k x] ps]; [constructor|].
    apply Forall_app. split; [apply IH | apply IHp].
  - simpl. generalize 0. revert items. fix IHi 1.
    intros [|x xs] i; [constructor|].
    apply Forall_app. split; [apply IH | apply IHi].
Qed.

Lemma flattenWalk_record (numberToString : str -> str)
    (kvs : list (str * str)) (cur : str) :
  flattenWalk numberToString
    (VObj (map (fun kv => (fst kv, VStr (snd kv))) kvs)) cur
  = map (fun kv => mkEntry (toLowerCase (joinKey cur (fst kv)))
                           (Some (snd kv))) kvs.
Proof.
  induction kvs as [|[k s] kvs IH]; [reflexivity|].
  simpl in *. now rewrite IH.
Qed.

Lemma flattenWalk_array (numberToString : str -> str) (ss : list str)
    (cur : str) :
  flattenWalk numberToString (VArr (map VStr ss)) cur
  = map (fun p => mkEntry (toLowerCase (joinKey cur (showNat (fst p))))
                          (Some (snd p)))
        (combine (seq 0 (length ss)) ss).
Proof.
  simpl. generalize 0. induction ss as [|s ss IH]; intros i; [reflexivity|].
  simpl. now rewrite IH.
Qed.

(** X15.  Flattening.  Every entry name that [flattenNodeToEntries] gives
    is lower-cased, so the entry log of [from] over a value tree has
    lower-cased names, and [from] over an entry log lower-cases the names
    it is given (it does not trim them).  A record of strings flattens to
    one entry per property, in the order of the property list (for a
    JavaScript object, the order of [Object.keys]), and an array of strings
    under a key [k] to the entries [k.0], [k.1], ... in order. *)
Theorem from_flattens_to_lowercase_entries
    (numberToString : str -> str) (n : XMSNode) (es : list XMSRawEntry)
    (fo : FromOptions) (kvs : list (str * str)) (k : str) (ss : list str) :
  Forall (fun e => toLowerCase (name e) = name e)
         (flattenNodeToEntries numberToString n)
  /\ match from numberToString (SrcNode n) fo with
     | Ok doc => map name (entries doc)
                 = map name (flattenNodeToEntries numberToString n)
     | Throw _ => False
     end
  /\ match from numberToString (SrcEntries es) fo with
     | Ok doc => map name (entries doc)
                 = map (fun e => toLowerCase (name e)) es
     | Throw _ => False
     end
  /\ flattenNodeToEntries numberToString
       (map (fun kv => (fst kv, VStr (snd kv))) kvs)
     = map (fun kv => mkEntry (toLowerCase (fst kv)) (Some (snd kv))) kvs
  /\ (isEmpty k = false ->
      flattenNodeToEntries numberToString [(k, VArr (map VStr ss))]
      = map (fun p => mkEntry (toLowerCase (k ++ [DOT] ++ showNat (fst p)))
                              (Some (snd p)))
            (combine (seq 0 (length ss)) ss)).
Proof.
  assert (Hnames : forall o l root ws,
            map name (fst (fst (ingest o l root ws))) = map name l).
  { intros o l root ws. rewrite ingest_entries, map_map.
    apply map_ext. apply limited_name. }
  split; [apply flattenWalk_lower|].
  split; [|split; [|split]].
  - unfold from. cbn [opts data warnings unparsed].
    match goal with
    | |- context [ingest ?a ?b ?c ?d] =>
        pose proof (Hnames a b c d) as H;
        destruct (ingest a b c d) as [[es2 d2] ws2]
    end. exact H.
  - unfold from. cbn [opts data warnings unparsed].
    match goal with
    | |- context [ingest ?a ?b ?c ?d] =>
        pose proof (Hnames a b c d) as H;
        destruct (ingest a b c d) as [[es2 d2] ws2]
    end. cbn [entries]. simpl in H. rewrite H, map_map. reflexivity.
  - unfold flattenNodeToEntries. rewrite flattenWalk_record. reflexivity.
  - intros Hk. unfold flattenNodeToEntries.
    change (flattenWalk numberToString (VObj [(k, VArr (map VStr ss))]) [])
      with (flattenWalk numberToString (VArr (map VStr ss)) (joinKey [] k)
            ++ []).
    rewrite app_nil_r, flattenWalk_array.
    change (joinKey [] k) with k.
    apply map_ext. intros p. unfold joinKey. now rewrite Hk.
Qed.

Lemma from_flattens_to_lowercase_entries_witness :
  isEmpty (L "Tags") = false
  /\ flattenNodeToEntries (fun s => s)
       [(L "Tags", VArr (map VStr [L "a"; L "B"]))]
     = [mkEntry (L "tags.0") (Some (L "a"));
        mkEntry (L "tags.1") (Some (L "B"))].
Proof.
  split; [reflexivity|].
  destruct (from_flattens_to_lowercase_entries (fun s => s) [] [] 
              (mkFromOptions noOptions None None None None) []
              (L "Tags") [L "a"; L "B"]) as (_ & _ & _ & _ & H).
  rewrite (H eq_refl). reflexivity.
Defined.

(** ** Limits and coercion over the whole entry log *)

(** The tree [assignNested] returns does not depend on the warning log. *)
Lemma assignNested_tree_any_log (o : XMSParseOptions) (root : XMSNode)
    (key : str) (v : XMSValue) (cfg : NestCfg) (ws : list str) :
  fst (assignNested o root key v cfg ws)
  = fst (assignNested o root key v cfg []).
Proof.
  unfold assignNested.
  destruct (negb (cfg_createNestedKeys cfg)); [reflexivity|].
  destruct (existsb isEmpty (splitOn DOT key)); [reflexivity|].
  destruct (cfg_maxNestingDepth cfg <? _)%Z; [reflexivity|].
  destruct (walkSegments _ _ _ _) as [r [seg|]]; reflexivity.
Qed.

(** [assignNested] appends to the warning log, and never a truncation
    warning. *)
Lemma assignNested_log (o : XMSParseOptions) (root : XMSNode)
    (key : str) (v : XMSValue) (cfg : NestCfg) (ws : list str) :
  exists added,
    snd (assignNested o root key v cfg ws) = ws ++ added
    /\ forall k n, ~ In (msgTruncated k n) added.
Proof.
  assert (Hd : forall key' d k n, msgDepth key' d <> msgTruncated k n).
  { intros key' d k n H. apply (f_equal (@hd_error ascii)) in H.
    discriminate H. }
  assert (Hs : forall key' seg k n, msgSkipNested key' seg <> msgTruncated k n).
  { intros key' seg k n H. apply (f_equal (@hd_error ascii)) in H.
    discriminate H. }
  assert (Hnil : exists added : list str,
             ws = ws ++ added /\ forall k n, ~ In (msgTruncated k n) added).
  { exists []. rewrite app_nil_r. split; [reflexivity|]. intros k n []. }
  unfold assignNested.
  destruct (negb (cfg_createNestedKeys cfg)); [exact Hnil|].
  destruct (existsb isEmpty (splitOn DOT key)); [exact Hnil|].
  destruct (cfg_maxNestingDepth cfg <? _)%Z.
  - eexists; split; [reflexivity|]. intros k n [H|[]]. exact (Hd _ _ _ _ H).
  - destruct (walkSegments _ _ _ _) as [r [seg|]]; [|exact Hnil].
    eexists; split; [reflexivity|]. intros k n [H|[]]. exact (Hs _ _ _ _ H).
Qed.

(** One iteration of [ingest]: the entry is limited, its truncation warning
    is recorded before the nested assigner runs, and the assigner stores
    the coercion of the limited value. *)
Lemma ingestEntry_spec (o : XMSParseOptions) (e : XMSRawEntry)
    (root : XMSNode) (ws : list str) :
  ingestEntry o e root ws =
  (limited o e,
   fst (assignNested o root (name e) (coerceValue o (value (limited o e)))
          (ingestCfg o) []),
   snd (assignNested o root (name e) (coerceValue o (value (limited o e)))
          (ingestCfg o) (ws ++ truncationWarning o e))).
Proof.
  assert (Hpair : forall v ws',
            assignNested o root (name e) v (ingestCfg o) ws'
            = (fst (assignNested o root (name e) v (ingestCfg o) []),
               snd (assignNested o root (name e) v (ingestCfg o) ws'))).
  { intros v ws'.
    rewrite <- (assignNested_tree_any_log o root (name e) v (ingestCfg o) ws').
    destruct (assignNested _ _ _ _ _ _); reflexivity. }
  unfold ingestEntry, limited, truncationWarning. fold (ingestCfg o).
  destruct (value e) as [v|] eqn:Hv.
  - rewrite enforceLength_table.
    destruct (enforceLimits o ?? true).
    + destruct (lengthLimit (name e)) as [n|].
      * destruct (n <? length v) eqn:Hn; cbn [andb value].
        -- rewrite Hpair. reflexivity.
        -- apply Nat.ltb_ge in Hn. rewrite (firstn_within n v Hn).
           rewrite app_nil_r, Hpair, <- Hv, entry_eta. reflexivity.
      * cbn [value]. rewrite app_nil_r, Hpair, Hv, <- Hv, entry_eta.
        reflexivity.
    + cbn [andb].
      destruct (lengthLimit (name e)); rewrite app_nil_r, Hpair, Hv;
        reflexivity.
  - rewrite app_nil_r, Hpair, Hv. reflexivity.
Qed.

Lemma assignAll_cons (o : XMSParseOptions) (e : XMSRawEntry)
    (es : list XMSRawEntry) (root : XMSNode) :
  assignAll o (e :: es) root
  = assignAll o es
      (fst (assignNested o root (name e) (coerceValue o (value e))
              (ingestCfg o) [])).
Proof. reflexivity. Qed.

(** [ingest] over an entry log: the log is limited entry by entry, the tree
    is built from the limited log, and the warning log grows by warnings
    among which the truncation warnings are those of the truncated
    entries. *)
Lemma ingest_spec (o : XMSParseOptions) (es : list XMSRawEntry) :
  forall root ws,
  exists added,
    ingest o es root ws
    = (map (limited o) es, assignAll o (map (limited o) es) root, ws ++ added)
    /\ (forall e w, In e es -> In w (truncationWarning o e) -> In w added)
    /\ (forall k n, In (msgTruncated k n) added ->
          exists e, In e es /\ In (msgTruncated k n) (truncationWarning o e)).
Proof.
  induction es as [|e es IH]; intros root ws.
  - exists []. rewrite app_nil_r. split; [reflexivity|].
    split; [intros e w []|intros k n []].
  - cbn [ingest map]. rewrite ingestEntry_spec.
    destruct (assignNested_log o root (name e)
                (coerceValue o (value (limited o e))) (ingestCfg o)
                (ws ++ truncationWarning o e)) as (a1 & Ha1 & Hno).
    rewrite Ha1.
    destruct (IH (fst (assignNested o root (name e)
                         (coerceValue o (value (limited o e)))
                         (ingestCfg o) []))
                 ((ws ++ truncationWarning o e) ++ a1))
      as (a2 & Hing & Hfwd & Hbwd).
    rewrite Hing.
    exists (truncationWarning o e ++ a1 ++ a2). split; [|split].
    + rewrite assignAll_cons, limited_name, <- !app_assoc. reflexivity.
    + intros e0 w [<- | Hin] Hw.
      * apply in_or_app. now left.
      * apply in_or_app. right. apply in_or_app. right. eauto.
    + intros k n Hin.
      apply in_app_or in Hin as [Hin | Hin]; [exists e; split; [now left|exact Hin]|].
      apply in_app_or in Hin as [Hin | Hin]; [exfalso; exact (Hno _ _ Hin)|].
      destruct (Hbwd k n Hin) as (e0 & He0 & Hw). exists e0. split; [now right|exact Hw].
Qed.

(** [parse()] ingests the tokenized entries, starting from the empty tree
    and the warnings of the tokenizers. *)
Lemma parseDoc_tokenized (inp : str) (o : XMSParseOptions) :
  (entries (parseDoc inp o), data (parseDoc inp o), warnings (parseDoc inp o))
  = ingest o (snd (tokenized inp o)) []
      (st_warnings (fst (tokenized inp o))).
Proof.
  unfold parseDoc, tokenized, state0.
  destruct (matchVersion inp) as [[ds body]|].
  - destruct (parseXMSCore o body (mkState [] [])) as [st [es|m]].
    + cbn [fst snd]. destruct (ingest _ _ _ _) as [[? ?] ?]. reflexivity.
    + destruct (reparseOnFallback o ?? true).
      * destruct (parseCommonMeta o inp st) as [st' es].
        cbn [fst snd]. destruct (ingest _ _ _ _) as [[? ?] ?]. reflexivity.
      * cbn [fst snd]. destruct (ingest _ _ _ _) as [[? ?] ?]. reflexivity.
  - destruct (parseCommonMeta o inp (mkState [] [])) as [st es].
    cbn [fst snd]. destruct (ingest _ _ _ _) as [[? ?] ?]. reflexivity.
Qed.

Lemma Forall2_map_right {A B : Type} (P : A -> B -> Prop) (f : A -> B)
    (l : list A) :
  (forall a, In a l -> P a (f a)) -> Forall2 P l (map f l).
Proof.
  induction l as [|a l IH]; intros H; simpl; constructor.
  - apply H. now left.
  - apply IH. intros b Hb. apply H. now right.
Qed.

Lemma lengthLimit_table :
  lengthLimit (L "username") = Some 16
  /\ lengthLimit (L "message") = Some 255
  /\ lengthLimit (L "error") = Some 255
  /\ lengthLimit (L "error.message") = Some 255
  /\ (forall key, ~ In key [L "username"; L "message"; L "error";
                            L "error.message"] ->
                  lengthLimit key = None).
Proof.
  repeat split.
  intros key Hnot. unfold lengthLimit, lengthLimitTable, lookupLimit.
  assert (Hne : forall k, In k [L "username"; L "message"; L "error";
                                L "error.message"] ->
                          str_eqb key k = false).
  { intros k Hin. destruct (str_eqb key k) eqn:Hk; [|reflexivity].
    apply str_eqb_eq in Hk. subst k. contradiction. }
  rewrite !Hne by (simpl; tauto). reflexivity.
Qed.

(** C8.  With limit enforcement enabled, for every entry that [parse] takes
    from the tokenizers: a value longer than the limit of its key
    ([username] 16; [message], [error] and [error.message] 255) is cut to
    the limit in the entry log of the document and the truncation warning
    naming key and limit is in the warnings of the document; an entry whose
    key has no limit, whose value fits or whose value is [null] is left as
    it is; the warnings that ingestion adds hold no truncation warning but
    those of the truncated entries; and the value tree is the one built by
    coercing and storing the values of the entry log after truncation, so
    truncation works on the string form, before coercion. *)
Theorem limits_truncate_before_coercion
    (inp : str) (o : XMSParseOptions)
    (Hon : enforceLimits o ?? true = true) :
  let raw := snd (tokenized inp o) in
  let doc := parseDoc inp o in
  Forall2
    (fun e e' =>
       name e' = name e
       /\ match value e, lengthLimit (name e) with
          | Some v, Some n =>
              value e' = Some (firstn n v)
              /\ (n < length v ->
                  length (firstn n v) = n
                  /\ In (msgTruncated (name e) n) (warnings doc))
              /\ (length v <= n -> e' = e)
          | _, _ => e' = e
          end)
    raw (entries doc)
  /\ (exists added,
        warnings doc = st_warnings (fst (tokenized inp o)) ++ added
        /\ forall k n, In (msgTruncated k n) added ->
             exists e v n',
               In e raw /\ value e = Some v
               /\ lengthLimit (name e) = Some n' /\ n' < length v
               /\ msgTruncated k n = msgTruncated (name e) n')
  /\ data doc = assignAll o (entries doc) []
  /\ lengthLimit (L "username") = Some 16
  /\ lengthLimit (L "message") = Some 255
  /\ lengthLimit (L "error") = Some 255
  /\ lengthLimit (L "error.message") = Some 255
  /\ (forall key, ~ In key [L "username"; L "message"; L "error";
                            L "error.message"] ->
                  lengthLimit key = None).
Proof.
  cbv zeta.
  pose proof (parseDoc_tokenized inp o) as Hdoc.
  destruct (ingest_spec o (snd (tokenized inp o)) []
              (st_warnings (fst (tokenized inp o))))
    as (added & Hing & Hfwd & Hbwd).
  rewrite Hing in Hdoc.
  assert (He : entries (parseDoc inp o)
               = map (limited o) (snd (tokenized inp o)))
    by exact (f_equal (fun t => fst (fst t)) Hdoc).
  assert (Hd : data (parseDoc inp o)
               = assignAll o (map (limited o) (snd (tokenized inp o))) [])
    by exact (f_equal (fun t => snd (fst t)) Hdoc).
  assert (Hw : warnings (parseDoc inp o)
               = st_warnings (fst (tokenized inp o)) ++ added)
    by exact (f_equal snd Hdoc).
  clear Hdoc Hing.
  split; [|split; [|split; [|exact lengthLimit_table]]].
  - rewrite He, Hw. apply Forall2_map_right. intros e Hin.
    split; [apply limited_name|].
    pose proof (Hfwd e) as Hwarn.
    unfold limited, truncationWarning in *. rewrite Hon in *.
    destruct (value e) as [v|] eqn:Hv; [|reflexivity].
    destruct (lengthLimit (name e)) as [n|]; [|reflexivity].
    cbn [value andb] in *. split; [reflexivity|]. split.
    + intros Hlong. split; [apply firstn_length_le; lia|].
      apply in_or_app. right. apply Hwarn; [exact Hin|].
      apply Nat.ltb_lt in Hlong. rewrite Hlong. now left.
    + intros Hfit. rewrite (firstn_within n v Hfit), <- Hv. apply entry_eta.
  - exists added. split; [exact Hw|].
    intros k n Hin. destruct (Hbwd k n Hin) as (e & He0 & Hw0).
    unfold truncationWarning in Hw0. rewrite Hon in Hw0.
    destruct (value e) as [v|] eqn:Hv; [|destruct Hw0].
    destruct (lengthLimit (name e)) as [n'|] eqn:Hl; [|destruct Hw0].
    cbn [andb] in Hw0.
    destruct (n' <? length v) eqn:Hlt; [|destruct Hw0].
    destruct Hw0 as [Hw0|[]]. apply Nat.ltb_lt in Hlt.
    exists e, v, n'. auto.
  - rewrite Hd, He. reflexivity.
Qed.

Lemma limits_truncate_before_coercion_witness :
  let o := withDefaults
             (mkOptions None (Some true) None None None None None None None
                        None None None) in
  let doc := parseDoc (L "xms/1;username=12345678901234567;level=5") o in
  entries doc = [mkEntry (L "username") (Some (L "1234567890123456"));
                 mkEntry (L "level") (Some (L "5"))]
  /\ warnings doc = [msgTruncated (L "username") 16]
  /\ data doc = [(L "username", VNum (L "1234567890123456"));
                 (L "level", VNum (L "5"))]
  /\ data doc = assignAll o (entries doc) [].
Proof.
  split; [reflexivity|]. split; [reflexivity|]. split; [reflexivity|].
  exact (proj1 (proj2 (proj2
           (limits_truncate_before_coercion
              (L "xms/1;username=12345678901234567;level=5")
              (withDefaults
                 (mkOptions None (Some true) None None None None None None
                            None None None None))
              eq_refl)))).
Defined.
